(** * go-flow: the step execution engine, embedded in Rocq

    A shallow embedding of the step execution engine of go-flow
    ([main.go], with the step label of the run log), and the properties of
    its save / expectation / templating contract.

    Conventions of the embedding:
    - a Go [string] is a Rocq [string] (a sequence of bytes);
    - a Go [int] / [int64] is a [Z] (no arithmetic of the engine overflows);
    - a Go [error] is an [option string] holding the message, [None] is [nil];
      a function returning [(T, error)] returns a [result T];
    - [map[string]string] used as the variable store is a [gmap string string];
      a map that the code ranges over ([Step.Save], headers) is the list of
      its entries in the order the [range] statement visits them, so that every
      statement below holds for each order Go may choose;
    - the libraries the engine calls (text/template, gjson, database/sql, the
      MongoDB and gRPC clients, the file system) are fields of [World]: the
      answer the outside gives to each call. *)

From Stdlib Require Import ZArith Lia Ascii String.
From Stdlib Require OrderedTypeEx.
From stdpp Require Import gmap strings list fin_maps pretty sorting.

Local Open Scope string_scope.
Local Open Scope list_scope.
Local Open Scope stdpp_scope.
Local Open Scope Z_scope.

Set Warnings "-register-all".
Set Default Proof Using "Type".

(* ===================================================================== *)
(** * Part I: definitions *)
(* ===================================================================== *)

(** ** Results and errors *)

Inductive result (A : Type) : Type :=
| Ok (a : A)
| Err (msg : string).
Arguments Ok {A} a.
Arguments Err {A} msg.

(** A Go [error] value: [None] is [nil]. *)
Definition error : Type := option string.

Definition is_ok {A} (r : result A) : bool :=
  match r with Ok _ => true | Err _ => false end.

(** ** Strings: the parts of [strings], [strconv] and [fmt] the engine uses *)

Definition dquote : ascii := ascii_of_nat 34.
Definition backslash : ascii := ascii_of_nat 92.
Definition newline : ascii := ascii_of_nat 10.

(** [unicode.IsSpace] on the bytes of the ASCII range: tab, line feed,
    vertical tab, form feed, carriage return and space.  The multi-byte
    Unicode spaces (U+0085, U+00A0, ...) are outside this byte-level model. *)
Definition is_space (a : ascii) : bool :=
  let n := nat_of_ascii a in
  ((9 <=? n)%nat && (n <=? 13)%nat) || (n =? 32)%nat.

Fixpoint trim_left (s : string) : string :=
  match s with
  | EmptyString => EmptyString
  | String a s' => if is_space a then trim_left s' else s
  end.

Fixpoint trim_right (s : string) : string :=
  match s with
  | EmptyString => EmptyString
  | String a s' =>
      match trim_right s' with
      | EmptyString => if is_space a then EmptyString else String a EmptyString
      | t => String a t
      end
  end.

(** [strings.TrimSpace]. *)
Definition TrimSpace (s : string) : string := trim_right (trim_left s).

Definition lower_ascii (a : ascii) : ascii :=
  let n := nat_of_ascii a in
  if (65 <=? n)%nat && (n <=? 90)%nat then ascii_of_nat (n + 32) else a.

(** [strings.ToLower], on the ASCII letters; other bytes are kept. *)
Fixpoint ToLower (s : string) : string :=
  match s with
  | EmptyString => EmptyString
  | String a s' => String (lower_ascii a) (ToLower s')
  end.

Definition is_empty (s : string) : bool :=
  match s with EmptyString => true | String _ _ => false end.

Definition hex_digit (n : nat) : ascii :=
  if (n <? 10)%nat then ascii_of_nat (48 + n) else ascii_of_nat (87 + n).

(** One byte of [strconv.Quote]: the quote and the backslash are escaped,
    control bytes are written with their Go escape; the bytes of a multi-byte
    rune are kept as they are. *)
Definition quote_byte (a : ascii) : string :=
  let n := nat_of_ascii a in
  if (n =? 34)%nat then String backslash (String dquote EmptyString)
  else if (n =? 92)%nat then String backslash (String backslash EmptyString)
  else if (n =? 7)%nat then String backslash "a"
  else if (n =? 8)%nat then String backslash "b"
  else if (n =? 9)%nat then String backslash "t"
  else if (n =? 10)%nat then String backslash "n"
  else if (n =? 11)%nat then String backslash "v"
  else if (n =? 12)%nat then String backslash "f"
  else if (n =? 13)%nat then String backslash "r"
  else if (n <? 32)%nat || (n =? 127)%nat then
    String backslash
      (String "x" (String (hex_digit (n / 16)) (String (hex_digit (n mod 16)) EmptyString)))
  else String a EmptyString.

Fixpoint quote_bytes (s : string) : string :=
  match s with
  | EmptyString => EmptyString
  | String a s' => quote_byte a +:+ quote_bytes s'
  end.

(** The [%q] verb of [fmt] on a string. *)
Definition Quote (s : string) : string :=
  String dquote (quote_bytes s) +:+ String dquote EmptyString.

(** The [%d] verb of [fmt]. *)
Definition fmt_d (n : Z) : string := pretty n.

(** ** The flow document *)

(** A [map[string]string] the code ranges over: its entries, in the order
    the [range] statement visits them. *)
Abbreviation StringMap := (list (string * string)).

Module MongoStep.
Record t : Type := mk {
  URI : string;
  Database : string;
  Collection : string;
  Operation : string;
  Filter : string;
  Document : string;
  Update : string;
  Pipeline : string;
  Command : string;
  Limit : Z
}.
End MongoStep.

Module GRPCStep.
Record t : Type := mk {
  Target : string;
  Method : string;
  Request : string;
  Format : string;
  Metadata : StringMap;
  ReflectionMetadata : StringMap;
  UseTLS : bool;
  SkipTLSVerify : bool;
  CACert : string;
  ClientCert : string;
  ClientKey : string;
  ServerName : string;
  ProtoSets : list string;
  ProtoFiles : list string;
  ProtoPaths : list string;
  UseReflection : option bool;
  ExpectCode : string
}.
End GRPCStep.

Module Step.
Record t : Type := mk {
  Wait : string;
  Skip : bool;
  Export : bool;
  Name : string;
  TimeoutSeconds : Z;
  Method : string;
  URL : string;
  Headers : StringMap;
  Body : string;
  ExpectStatus : Z;
  Save : StringMap;
  SQL : string;
  DatabaseURL : string;
  ExpectAffectedRows : Z;
  Mongo : option MongoStep.t;
  GRPC : option GRPCStep.t
}.

Definition with_TimeoutSeconds (n : Z) (s : t) : t :=
  mk (Wait s) (Skip s) (Export s) (Name s) n (Method s) (URL s) (Headers s)
     (Body s) (ExpectStatus s) (Save s) (SQL s) (DatabaseURL s)
     (ExpectAffectedRows s) (Mongo s) (GRPC s).
End Step.

(** [Step.applyDefaults]. *)
Definition applyDefaults (s : Step.t) : Step.t :=
  if Step.TimeoutSeconds s =? 0 then Step.with_TimeoutSeconds 10 s else s.

(** ** The template renderer *)

(** The [missingkey] option of text/template. *)
Inductive missingkey : Type :=
| MissingKeyDefault
| MissingKeyZero
| MissingKeyError.

(** text/template with the function library of the engine installed:
    [Parse] is [template.New(flow).Funcs(templateFuncs).Parse], [None] on a
    parse error; [Execute] runs a parsed template on a variable store under
    a [missingkey] option, [None] on an execution error.  What the fixture
    generators of the library draw is part of the answer of [Execute]. *)
Record TemplateEngine : Type := {
  Template : Type;
  Parse : string -> option Template;
  Execute : missingkey -> Template -> gmap string string -> option string
}.

(** [render]. *)
Definition render (T : TemplateEngine) (tmpl : string) (vars : gmap string string) : string :=
  if is_empty tmpl then EmptyString
  else
    match Parse T tmpl with
    | None => tmpl
    | Some t =>
        match Execute T MissingKeyZero t vars with
        | None => tmpl
        | Some buf => TrimSpace buf
        end
    end.

(** ** Affected-row expectation *)

(** [ensureExpectedAffectedRows]. *)
Definition ensureExpectedAffectedRows (step : Step.t) (affectedRows : Z) : error :=
  if (Step.ExpectAffectedRows step =? 0) || (affectedRows =? Step.ExpectAffectedRows step)
  then None
  else Some ("step " +:+ Quote (Step.Name step) +:+
             " failed: unexpected affected rows " +:+ fmt_d affectedRows).

(** ** The outside world *)

(** A column value as [database/sql] scans it into an [any]: [nil] for
    NULL, a [[]byte], or another driver value, kept as the text [fmt.Sprint]
    prints for it. *)
Inductive sqlval : Type :=
| SqlNull
| SqlBytes (b : string)
| SqlOther (printed : string).

(** [*sql.Rows]: the column names, the rows [Next] delivers before it
    returns false, and what [Err] reports afterwards. *)
Record Rows : Type := {
  Columns : result (list string);
  fetched : list (list sqlval);
  rows_Err : error
}.

(** [sql.Result]. *)
Record ExecResult : Type := {
  RowsAffected : result Z
}.

(** [*sql.DB]: the answers of one database to the calls of a step. *)
Record DB : Type := {
  PingContext : error;
  ExecContext : string -> result ExecResult;
  QueryContext : string -> result Rows
}.

(** A BSON value as far as the engine looks into it: documents and arrays
    are structured, every other type (object ids, dates, ...) is kept by the
    Extended JSON text that stands for it. *)
Inductive bson : Type :=
| BNull
| BInt64 (n : Z)
| BOpaque (extjson : string)
| BDoc (fields : list (string * bson))
| BArr (items : list bson).

(** [bson.M]. *)
Abbreviation bsonM := (list (string * bson)).

(** What [collection.FindOne(...).Decode(&doc)] reports. *)
Inductive FindOneResult : Type :=
| ErrNoDocuments
| FindOneErr (msg : string)
| FindOneDoc (doc : bsonM).

(** [*mongo.Cursor]: what [All] reads. *)
Record Cursor : Type := {
  All : result (list bsonM)
}.

(** [*mongo.UpdateResult]. *)
Record UpdateResult : Type := {
  MatchedCount : Z;
  ModifiedCount : Z;
  UpsertedCount : Z;
  UpsertedID : option bson
}.

(** [*mongo.Collection]; [Find] takes the limit that was set, if any;
    [InsertOne] returns the inserted id, [DeleteOne] the deleted count. *)
Record Collection : Type := {
  FindOne : bsonM -> FindOneResult;
  Find : bsonM -> option Z -> result Cursor;
  Aggregate : list bson -> result Cursor;
  InsertOne : bsonM -> result bson;
  UpdateOne : bsonM -> bsonM -> result UpdateResult;
  DeleteOne : bsonM -> result Z
}.

(** [*mongo.Database]. *)
Record Database : Type := {
  GetCollection : string -> Collection;
  RunCommand : bsonM -> result bsonM
}.

(** [*mongo.Client]. *)
Record Client : Type := {
  Ping : error;
  GetDatabase : string -> Database
}.

(** [*status.Status]. *)
Record Status : Type := {
  status_Code : Z;
  status_Message : string
}.

(** What the gRPC libraries answer to one call of a step: a failure of the
    dial, of the descriptor source, of the request parser or of the
    invocation, or the events the invocation delivers to its handler: each
    response message as the formatter prints it, then the trailers. *)
Inductive GRPCCall : Type :=
| DialFailed (e : string)
| DescriptorSourceFailed (e : string)
| RequestParserFailed (e : string)
| InvokeFailed (e : string)
| Invoked (formatted : list (result string)) (trailers : option Status).

(** [grpcurl.Format]. *)
Inductive GRPCFormat : Type :=
| FormatJSON
| FormatText.

(** [*http.Request] as the engine builds it. *)
Record Request : Type := {
  req_Method : string;
  req_URL : string;
  req_Body : option string;
  req_Header : list (string * string)
}.

(** [*http.Response]: the status code and what [io.ReadAll] reads. *)
Record Response : Type := {
  StatusCode : Z;
  ReadAll : result string
}.

(** One record of the export file. *)
Record exportRecord : Type := {
  rec_Step : string;
  rec_Vars : gmap string string
}.

(** The libraries and services the engine calls. *)
Record World : Type := {
  templates : TemplateEngine;
  (** [gjson.GetBytes(json, path).String()] *)
  gjson_Get : string -> string -> string;
  json_Valid : string -> bool;
  Getenv : string -> string;
  (** [sql.Open(postgres, url)] *)
  sql_Open : string -> result DB;
  (** [mongo.Connect] on a URI *)
  mongo_Connect : string -> result Client;
  (** [bson.UnmarshalExtJSON] (canonical) into a [bson.M] and into a [bson.A] *)
  UnmarshalExtJSON_M : string -> result bsonM;
  UnmarshalExtJSON_A : string -> result (list bson);
  (** [bson.MarshalExtJSON] (canonical, HTML-escaped) *)
  MarshalExtJSON : bson -> result string;
  (** dial, descriptor source, request parser and [grpcurl.InvokeRPC] for
      the step configuration, target, method, format and payload *)
  grpc_Call : GRPCStep.t -> gmap string string -> string -> string -> GRPCFormat ->
              string -> GRPCCall;
  (** [http.NewRequestWithContext] refusing a method or a URL *)
  http_NewRequest : string -> string -> error;
  (** [client.Do] *)
  client_Do : Request -> result Response;
  time_ParseDuration : string -> result Z;
  (** [json.Encoder.Encode] with a two-space indent, on a non-empty list of
      records *)
  json_Encode : list exportRecord -> result string
}.

(** ** The state a step runs in *)

(** [*os.File]: the path it was created at and whether [Close] was called. *)
Record File : Type := {
  file_path : string;
  file_closed : bool
}.

(** [varExporter]. *)
Record varExporter : Type := {
  file : option File;
  records : list exportRecord
}.

(** What a step can change: the variable store it is handed (a Go map,
    shared with the caller) and the exporter of the runner (a pointer, [None]
    is [nil]). *)
Record RunState : Type := {
  st_vars : gmap string string;
  st_exporter : option varExporter
}.

(** Computations that may fail with an error and may have changed the state
    by then. *)
Definition M (A : Type) : Type := RunState -> result A * RunState.

Definition ret {A} (a : A) : M A := fun s => (Ok a, s).

Definition fail {A} (msg : string) : M A := fun s => (Err msg, s).

Definition bind {A B} (m : M A) (k : A -> M B) : M B :=
  fun s =>
    match m s with
    | (Ok a, s') => k a s'
    | (Err e, s') => (Err e, s')
    end.

Definition lift {A} (r : result A) : M A := fun s => (r, s).

Definition check (e : error) : M unit :=
  fun s => match e with None => (Ok tt, s) | Some msg => (Err msg, s) end.

Definition get_vars : M (gmap string string) := fun s => (Ok (st_vars s), s).

(** Runs a function that updates the variable store in place. *)
Definition update_vars (f : gmap string string -> gmap string string) : M unit :=
  fun s => (Ok tt, {| st_vars := f (st_vars s); st_exporter := st_exporter s |}).

(** Runs a function that updates the variable store in place and returns an
    error. *)
Definition update_vars_err {A}
  (f : gmap string string -> result A * gmap string string) : M A :=
  fun s =>
    let '(r, vars') := f (st_vars s) in
    (r, {| st_vars := vars'; st_exporter := st_exporter s |}).

Declare Scope go_scope.
Delimit Scope go_scope with go.
Notation "x <~ c ;; k" := (bind c (fun x => k))
  (at level 100, c at next level, right associativity) : go_scope.
Notation "c ;;; k" := (bind c (fun _ => k))
  (at level 100, right associativity) : go_scope.

(** [fmt.Errorf(what step %q: %w, name, err)]. *)
Definition wrap_step (what : string) (name : string) (err : string) : string :=
  what +:+ " " +:+ Quote name +:+ ": " +:+ err.

Definition wrapped {A} (what : string) (name : string) (r : result A) : result A :=
  match r with
  | Ok a => Ok a
  | Err e => Err (wrap_step what name e)
  end.

(** [vars[key]]: the empty string for a key that is not there. *)
Definition var_or_empty (vars : gmap string string) (key : string) : string :=
  default EmptyString (vars !! key).

(** ** Saving values from a JSON response *)

(** The loop of [saveValues]. *)
Fixpoint saveValues_range (w : World) (respBytes : string) (save : StringMap)
    (vars : gmap string string) : gmap string string :=
  match save with
  | [] => vars
  | (varName, jsonPath) :: rest =>
      let val := gjson_Get w respBytes jsonPath in
      if is_empty val then saveValues_range w respBytes rest vars
      else saveValues_range w respBytes rest (<[varName := val]> vars)
  end.

(** [saveValues]: it has no result, its effect is on [vars] (and on the
    console, which is not part of the model). *)
Definition saveValues (w : World) (respBytes : string) (save : StringMap)
    (vars : gmap string string) : gmap string string :=
  saveValues_range w respBytes save vars.

(** ** The SQL executor *)

(** [anyToString], on a value that is not [nil]. *)
Definition anyToString (v : sqlval) : string :=
  match v with
  | SqlNull => "<nil>"
  | SqlBytes b => b
  | SqlOther printed => printed
  end.

(** The column a save entry names: the trimmed value of the entry, or the
    variable name when that is empty. *)
Definition saveTarget (varName column : string) : string :=
  let target := TrimSpace column in
  if is_empty target then varName else target.

(** The loop of [saveRowValues] over the entries of [step.Save].  The
    index [rowValues[idx]] is always within the row, since the index holds
    positions of columns and [Scan] fills one value per column; the case is
    kept as an error so that the function is total. *)
Fixpoint saveRowValues_range (name : string) (save : StringMap)
    (rowValues : list sqlval) (columnIndex : gmap string nat)
    (vars : gmap string string) : error * gmap string string :=
  match save with
  | [] => (None, vars)
  | (varName, column) :: rest =>
      let target := saveTarget varName column in
      match columnIndex !! ToLower target with
      | None =>
          (Some ("step " +:+ Quote name +:+ ": column " +:+ Quote target +:+
                 " not found in result set"), vars)
      | Some idx =>
          match rowValues !! idx with
          | None => (Some "runtime error: index out of range", vars)
          | Some SqlNull => saveRowValues_range name rest rowValues columnIndex vars
          | Some val =>
              saveRowValues_range name rest rowValues columnIndex
                (<[varName := anyToString val]> vars)
          end
      end
  end.

(** [saveRowValues]. *)
Definition saveRowValues (step : Step.t) (vars : gmap string string)
    (rowValues : list sqlval) (columnIndex : gmap string nat)
    : error * gmap string string :=
  saveRowValues_range (Step.Name step) (Step.Save step) rowValues columnIndex vars.

(** The column index of [runSQLAndSave]: lower-cased name to position, a
    later column replacing an earlier one of the same lower-cased name. *)
Fixpoint buildColumnIndex (i : nat) (columns : list string)
    (columnIndex : gmap string nat) : gmap string nat :=
  match columns with
  | [] => columnIndex
  | col :: rest => buildColumnIndex (S i) rest (<[ToLower col := i]> columnIndex)
  end.

(** [rows.Scan] into one [any] per column. *)
Definition Scan (ncols : nat) (row : list sqlval) : result (list sqlval) :=
  if (length row =? ncols)%nat then Ok row
  else Err ("sql: expected " +:+ pretty (length row) +:+
            " destination arguments in Scan, not " +:+ pretty ncols).

(** The [for rows.Next()] loop of [runSQLAndSave]. *)
Fixpoint scanRows (step : Step.t) (ncols : nat) (columnIndex : gmap string nat)
    (rows : list (list sqlval)) (savedFirstRow : bool) (affectedRows : Z)
    (vars : gmap string string) : result Z * gmap string string :=
  match rows with
  | [] => (Ok affectedRows, vars)
  | row :: rest =>
      match Scan ncols row with
      | Err e => (Err (wrap_step "scan row for step" (Step.Name step) e), vars)
      | Ok values =>
          if savedFirstRow then
            scanRows step ncols columnIndex rest true (affectedRows + 1) vars
          else
            match saveRowValues step vars values columnIndex with
            | (Some e, vars') => (Err e, vars')
            | (None, vars') =>
                scanRows step ncols columnIndex rest true (affectedRows + 1) vars'
            end
      end
  end.

(** [runSQLAndSave]. *)
Definition runSQLAndSave (db : DB) (step : Step.t) (sqlStmt : string)
    (vars : gmap string string) : result Z * gmap string string :=
  match QueryContext db sqlStmt with
  | Err e => (Err (wrap_step "query sql for step" (Step.Name step) e), vars)
  | Ok rows =>
      match Columns rows with
      | Err e => (Err (wrap_step "fetch columns for step" (Step.Name step) e), vars)
      | Ok columns =>
          let columnIndex := buildColumnIndex 0 columns ∅ in
          match scanRows step (length columns) columnIndex (fetched rows) false 0 vars with
          | (Err e, vars') => (Err e, vars')
          | (Ok affectedRows, vars') =>
              match rows_Err rows with
              | Some e =>
                  (Err (wrap_step "iterate rows for step" (Step.Name step) e), vars')
              | None =>
                  if affectedRows =? 0 then
                    (Err (wrap_step "execute sql for step" (Step.Name step)
                            "no rows returned to save"), vars')
                  else (Ok affectedRows, vars')
              end
          end
      end
  end.

(** [runSQLWithoutSave]. *)
Definition runSQLWithoutSave (db : DB) (step : Step.t) (sqlStmt : string) : result Z :=
  match ExecContext db sqlStmt with
  | Err e => Err (wrap_step "execute sql for step" (Step.Name step) e)
  | Ok results =>
      match RowsAffected results with
      | Err e => Err (wrap_step "get affected rows for step" (Step.Name step) e)
      | Ok rowsAffected => Ok rowsAffected
      end
  end.

(** [executeSQLAndMaybeSave]. *)
Definition executeSQLAndMaybeSave (db : DB) (step : Step.t) (sqlStmt : string)
    (vars : gmap string string) : result Z * gmap string string :=
  match Step.Save step with
  | [] => (runSQLWithoutSave db step sqlStmt, vars)
  | _ :: _ => runSQLAndSave db step sqlStmt vars
  end.

(** The connection string of a SQL step: the step field, then the variable
    [database_url], then the environment. *)
Definition resolveDatabaseURL (w : World) (step : Step.t)
    (vars : gmap string string) : string :=
  let dbURL := TrimSpace (render (templates w) (Step.DatabaseURL step) vars) in
  let dbURL := if is_empty dbURL then TrimSpace (var_or_empty vars "database_url") else dbURL in
  if is_empty dbURL then TrimSpace (Getenv w "DATABASE_URL") else dbURL.

(** [executeSQLStep]. *)
Definition executeSQLStep (w : World) (step : Step.t) (sqlStmt : string) : M unit :=
  (vars <~ get_vars ;;
   let dbURL := resolveDatabaseURL w step vars in
   if is_empty dbURL then
     fail ("step " +:+ Quote (Step.Name step) +:+
           " requires database_url (var, step override, or DATABASE_URL env)")
   else
     db <~ lift (wrapped "open database for step" (Step.Name step) (sql_Open w dbURL)) ;;
     check (wrap_step "ping database for step" (Step.Name step) <$> PingContext db) ;;;
     affectedRows <~ update_vars_err (executeSQLAndMaybeSave db step sqlStmt) ;;
     check (ensureExpectedAffectedRows step affectedRows))%go.

(** ** Recording exports *)

(** [varExporter.Record], on an exporter that is not [nil]: the values are
    copied into a fresh map. *)
Definition varExporter_Record (e : varExporter) (stepName : string)
    (values : gmap string string) : varExporter :=
  {| file := file e;
     records := records e ++ [ {| rec_Step := stepName; rec_Vars := values |} ] |}.

(** The map [recordExport] builds: every key of [step.Save] with the value
    the variable store has for it (the empty string when it has none). *)
Fixpoint exportMap (save : StringMap) (vars : gmap string string)
    (m : gmap string string) : gmap string string :=
  match save with
  | [] => m
  | (k, _) :: rest => exportMap rest vars (<[k := var_or_empty vars k]> m)
  end.

(** [FlowRunner.recordExport]. *)
Definition recordExport (step : Step.t) : M unit :=
  fun s =>
    match st_exporter s with
    | Some e =>
        if Step.Export step then
          (Ok tt,
           {| st_vars := st_vars s;
              st_exporter :=
                Some (varExporter_Record e (Step.Name step)
                        (exportMap (Step.Save step) (st_vars s) ∅)) |})
        else (Ok tt, s)
    | None => (Ok tt, s)
    end.

(** The save step shared by the HTTP, document-store and RPC executors:
    [saveValues] runs when a save map is declared and the payload is
    non-empty, valid JSON. *)
Definition saveFromPayload (w : World) (step : Step.t) (payload : string) : M unit :=
  match Step.Save step with
  | [] => ret tt
  | _ :: _ =>
      if negb (is_empty payload) && json_Valid w payload
      then update_vars (saveValues w payload (Step.Save step))
      else ret tt
  end.

(** ** The document-store executor *)

Definition mongoOpFindOne : string := "findone".
Definition mongoOpFind : string := "find".
Definition mongoOpAggregate : string := "aggregate".
Definition mongoOpInsertOne : string := "insertone".
Definition mongoOpUpdateOne : string := "updateone".
Definition mongoOpDeleteOne : string := "deleteone".
Definition mongoOpCommand : string := "command".

Definition one_of (s : string) (l : list string) : bool :=
  existsb (String.eqb s) l.

(** [normalizeMongoOperation]. *)
Definition normalizeMongoOperation (op : string) : string :=
  let o := ToLower (TrimSpace op) in
  if one_of o [EmptyString; "findone"; "find_one"] then mongoOpFindOne
  else if one_of o ["find"; "findmany"; "find_many"] then mongoOpFind
  else if one_of o ["aggregate"] then mongoOpAggregate
  else if one_of o ["insert"; "insertone"; "insert_one"] then mongoOpInsertOne
  else if one_of o ["update"; "updateone"; "update_one"] then mongoOpUpdateOne
  else if one_of o ["delete"; "deleteone"; "delete_one"] then mongoOpDeleteOne
  else if one_of o ["command"] then mongoOpCommand
  else o.

(** [parseBSONDocument]. *)
Definition parseBSONDocument (w : World) (payload : string) : result bsonM :=
  let trimmed := TrimSpace payload in
  if is_empty trimmed then Ok [] else UnmarshalExtJSON_M w trimmed.

(** [parseBSONArray]. *)
Definition parseBSONArray (w : World) (payload : string) : result (list bson) :=
  let trimmed := TrimSpace payload in
  if is_empty trimmed then Err "pipeline is required" else UnmarshalExtJSON_A w trimmed.

(** [bsonToJSON]. *)
Definition bsonToJSON (w : World) (value : bson) : result string :=
  MarshalExtJSON w value.

(** [fmt.Errorf(step %q: what: %w, name, err)]. *)
Definition wrap_in_step (name : string) (what : string) (err : string) : string :=
  "step " +:+ Quote name +:+ ": " +:+ what +:+ ": " +:+ err.

Definition in_step {A} (name : string) (what : string) (r : result A) : result A :=
  match r with
  | Ok a => Ok a
  | Err e => Err (wrap_in_step name what e)
  end.

Definition rbind {A B} (r : result A) (k : A -> result B) : result B :=
  match r with
  | Ok a => k a
  | Err e => Err e
  end.

Notation "x <- c ;; k" := (rbind c (fun x => k))
  (at level 100, c at next level, right associativity) : go_scope.

(** The affected count of an update: the modified count, or the upserted
    count when nothing was modified and something was upserted. *)
Definition updateAffected (res : UpdateResult) : Z :=
  let affected := ModifiedCount res in
  if (affected =? 0) && (0 <? UpsertedCount res) then UpsertedCount res else affected.

(** The result document of an update. *)
Definition updatePayload (res : UpdateResult) : bsonM :=
  [("matched_count", BInt64 (MatchedCount res));
   ("modified_count", BInt64 (ModifiedCount res));
   ("upserted_count", BInt64 (UpsertedCount res))]
  ++ match UpsertedID res with
     | Some id => [("upserted_id", id)]
     | None => []
     end.

(** The [switch op] of [executeMongoStep]: the operation, its affected
    count and its result payload. *)
Definition mongoOperation (w : World) (name : string) (cfg : MongoStep.t)
    (op : string) (db : Database) (collection : Collection)
    (vars : gmap string string) : result (Z * string) :=
  let T := templates w in
  (if String.eqb op mongoOpFindOne then
     filterDoc <- in_step name "parse mongo filter"
                    (parseBSONDocument w (render T (MongoStep.Filter cfg) vars)) ;;
     match FindOne collection filterDoc with
     | ErrNoDocuments => Ok (0, "null")
     | FindOneErr e => Err (wrap_in_step name "mongo findOne failed" e)
     | FindOneDoc doc =>
         resultPayload <- in_step name "encode mongo findOne result"
                            (bsonToJSON w (BDoc doc)) ;;
         Ok (1, resultPayload)
     end
   else if String.eqb op mongoOpFind then
     filterDoc <- in_step name "parse mongo filter"
                    (parseBSONDocument w (render T (MongoStep.Filter cfg) vars)) ;;
     let findOpts := if 0 <? MongoStep.Limit cfg then Some (MongoStep.Limit cfg) else None in
     cursor <- in_step name "mongo find failed" (Find collection filterDoc findOpts) ;;
     docs <- in_step name "read mongo find results" (All cursor) ;;
     resultPayload <- in_step name "encode mongo find results"
                        (bsonToJSON w (BArr (BDoc <$> docs))) ;;
     Ok (Z.of_nat (length docs), resultPayload)
   else if String.eqb op mongoOpAggregate then
     pipeline <- in_step name "parse mongo pipeline"
                   (parseBSONArray w (render T (MongoStep.Pipeline cfg) vars)) ;;
     cursor <- in_step name "mongo aggregate failed" (Aggregate collection pipeline) ;;
     docs <- in_step name "read mongo aggregate results" (All cursor) ;;
     resultPayload <- in_step name "encode mongo aggregate results"
                        (bsonToJSON w (BArr (BDoc <$> docs))) ;;
     Ok (Z.of_nat (length docs), resultPayload)
   else if String.eqb op mongoOpInsertOne then
     document <- in_step name "parse mongo document"
                   (parseBSONDocument w (render T (MongoStep.Document cfg) vars)) ;;
     match document with
     | [] => Err ("step " +:+ Quote name +:+ ": mongo document is required for insertOne")
     | _ :: _ =>
         insertedID <- in_step name "mongo insertOne failed" (InsertOne collection document) ;;
         resultPayload <- in_step name "encode mongo insertOne result"
                            (bsonToJSON w (BDoc [("inserted_id", insertedID)])) ;;
         Ok (1, resultPayload)
     end
   else if String.eqb op mongoOpUpdateOne then
     filterDoc <- in_step name "parse mongo filter"
                    (parseBSONDocument w (render T (MongoStep.Filter cfg) vars)) ;;
     updateDoc <- in_step name "parse mongo update"
                    (parseBSONDocument w (render T (MongoStep.Update cfg) vars)) ;;
     match updateDoc with
     | [] => Err ("step " +:+ Quote name +:+
                  ": mongo update document is required for updateOne")
     | _ :: _ =>
         res <- in_step name "mongo updateOne failed"
                  (UpdateOne collection filterDoc updateDoc) ;;
         resultPayload <- in_step name "encode mongo updateOne result"
                            (bsonToJSON w (BDoc (updatePayload res))) ;;
         Ok (updateAffected res, resultPayload)
     end
   else if String.eqb op mongoOpDeleteOne then
     filterDoc <- in_step name "parse mongo filter"
                    (parseBSONDocument w (render T (MongoStep.Filter cfg) vars)) ;;
     deletedCount <- in_step name "mongo deleteOne failed" (DeleteOne collection filterDoc) ;;
     resultPayload <- in_step name "encode mongo deleteOne result"
                        (bsonToJSON w (BDoc [("deleted_count", BInt64 deletedCount)])) ;;
     Ok (deletedCount, resultPayload)
   else if String.eqb op mongoOpCommand then
     let cmdStr := TrimSpace (render T (MongoStep.Command cfg) vars) in
     if is_empty cmdStr then
       Err ("step " +:+ Quote name +:+ ": mongo command payload is required")
     else
       commandDoc <- in_step name "parse mongo command" (parseBSONDocument w cmdStr) ;;
       result <- in_step name "mongo command failed" (RunCommand db commandDoc) ;;
       resultPayload <- in_step name "encode mongo command result"
                          (bsonToJSON w (BDoc result)) ;;
       Ok (1, resultPayload)
   else
     Err ("step " +:+ Quote name +:+ ": unsupported mongo operation " +:+
          Quote (MongoStep.Operation cfg)))%go.

(** A setting of a document-store step: the rendered field, then the flow
    variable of that name. *)
Definition fieldOrVar (w : World) (field : string) (var : string)
    (vars : gmap string string) : string :=
  let v := TrimSpace (render (templates w) field vars) in
  if is_empty v then TrimSpace (var_or_empty vars var) else v.

(** The connection string of a document-store step: the field, the variable
    [mongo_uri], then the environment. *)
Definition resolveMongoURI (w : World) (cfg : MongoStep.t)
    (vars : gmap string string) : string :=
  let uri := fieldOrVar w (MongoStep.URI cfg) "mongo_uri" vars in
  if is_empty uri then TrimSpace (Getenv w "MONGO_URI") else uri.

(** [FlowRunner.executeMongoStep]. *)
Definition executeMongoStep (w : World) (step : Step.t) : M unit :=
  let name := Step.Name step in
  match Step.Mongo step with
  | None => fail ("step " +:+ Quote name +:+ " missing mongo configuration")
  | Some cfg =>
      (vars <~ get_vars ;;
       let uri := resolveMongoURI w cfg vars in
       if is_empty uri then
         fail ("step " +:+ Quote name +:+
               " requires mongo.uri (field, var mongo_uri, or MONGO_URI env)")
       else
         let dbName := fieldOrVar w (MongoStep.Database cfg) "mongo_database" vars in
         if is_empty dbName then
           fail ("step " +:+ Quote name +:+
                 " requires mongo.database (field or mongo_database var)")
         else
           let op := normalizeMongoOperation (MongoStep.Operation cfg) in
           let useCollection := negb (String.eqb op mongoOpCommand) in
           let collName :=
             if useCollection
             then fieldOrVar w (MongoStep.Collection cfg) "mongo_collection" vars
             else EmptyString in
           if useCollection && is_empty collName then
             fail ("step " +:+ Quote name +:+ " requires mongo.collection for operation " +:+
                   Quote op)
           else
             client <~ lift (wrapped "connect mongo for step" name (mongo_Connect w uri)) ;;
             check (wrap_step "ping mongo for step" name <$> Ping client) ;;;
             let db := GetDatabase client dbName in
             let collection := GetCollection db collName in
             r <~ lift (mongoOperation w name cfg op db collection vars) ;;
             let '(affected, resultPayload) := r in
             check (ensureExpectedAffectedRows step affected) ;;;
             saveFromPayload w step resultPayload ;;;
             recordExport step)%go
  end.

(** ** The RPC executor *)

Definition upper_ascii (a : ascii) : ascii :=
  let n := nat_of_ascii a in
  if (97 <=? n)%nat && (n <=? 122)%nat then ascii_of_nat (n - 32) else a.

(** [strings.ToUpper], on the ASCII letters. *)
Fixpoint ToUpper (s : string) : string :=
  match s with
  | EmptyString => EmptyString
  | String a s' => String (upper_ascii a) (ToUpper s')
  end.

Fixpoint parse_digits (s : string) (acc : Z) : option Z :=
  match s with
  | EmptyString => Some acc
  | String a s' =>
      let n := nat_of_ascii a in
      if (48 <=? n)%nat && (n <=? 57)%nat
      then parse_digits s' (10 * acc + Z.of_nat (n - 48))
      else None
  end.

Definition in_int_range (n : Z) : option Z :=
  if (- 2 ^ 63 <=? n) && (n <? 2 ^ 63) then Some n else None.

(** [strconv.Atoi], [None] for its errors. *)
Definition Atoi (s : string) : option Z :=
  match s with
  | EmptyString => None
  | String a s' =>
      if Ascii.eqb a "-" then
        if is_empty s' then None
        else n ← parse_digits s' 0; in_int_range (- n)
      else if Ascii.eqb a "+" then
        if is_empty s' then None
        else n ← parse_digits s' 0; in_int_range n
      else n ← parse_digits s 0; in_int_range n
  end.

(** [parseGRPCFormat]. *)
Definition parseGRPCFormat (value : string) : result GRPCFormat :=
  let format := ToLower (TrimSpace value) in
  if one_of format [EmptyString; "json"] then Ok FormatJSON
  else if one_of format ["text"; "proto"; "protobuf"] then Ok FormatText
  else Err ("unsupported grpc format " +:+ Quote value).

Definition codes_OK : Z := 0.

(** [grpcCodeLookup]. *)
Definition grpcCodeLookup : list (string * Z) :=
  [("OK", 0); ("CANCELED", 1); ("UNKNOWN", 2); ("INVALID_ARGUMENT", 3);
   ("DEADLINE_EXCEEDED", 4); ("NOT_FOUND", 5); ("ALREADY_EXISTS", 6);
   ("PERMISSION_DENIED", 7); ("RESOURCE_EXHAUSTED", 8); ("FAILED_PRECONDITION", 9);
   ("ABORTED", 10); ("OUT_OF_RANGE", 11); ("UNIMPLEMENTED", 12); ("INTERNAL", 13);
   ("UNAVAILABLE", 14); ("DATA_LOSS", 15); ("UNAUTHENTICATED", 16)].

Fixpoint assoc (key : string) (l : list (string * Z)) : option Z :=
  match l with
  | [] => None
  | (k, v) :: rest => if String.eqb k key then Some v else assoc key rest
  end.

(** [parseGRPCCode]; [codes.Code] is a [uint32]. *)
Definition parseGRPCCode (value : string) : result Z :=
  let v := TrimSpace value in
  if is_empty v then Ok codes_OK
  else
    match assoc (ToUpper v) grpcCodeLookup with
    | Some code => Ok code
    | None =>
        match Atoi v with
        | Some num => Ok (num mod 2 ^ 32)
        | None => Err ("unknown grpc expect_code " +:+ Quote value)
        end
    end.

(** [codes.Code.String]. *)
Definition code_String (c : Z) : string :=
  match nth_error
          ["OK"; "Canceled"; "Unknown"; "InvalidArgument"; "DeadlineExceeded";
           "NotFound"; "AlreadyExists"; "PermissionDenied"; "ResourceExhausted";
           "FailedPrecondition"; "Aborted"; "OutOfRange"; "Unimplemented";
           "Internal"; "Unavailable"; "DataLoss"; "Unauthenticated"]
          (Z.to_nat c) with
  | Some name => if c <? 0 then "Code(" +:+ fmt_d c +:+ ")" else name
  | None => "Code(" +:+ fmt_d c +:+ ")"
  end.

(** [status.Status.String]. *)
Definition Status_String (st : Status) : string :=
  "rpc error: code = " +:+ code_String (status_Code st) +:+ " desc = " +:+
  status_Message st.

(** [grpcCaptureEventHandler], its formatter left to the world. *)
Record grpcCaptureEventHandler : Type := {
  h_responses : list string;
  h_status : option Status;
  h_err : error
}.

(** [grpcCaptureEventHandler.OnReceiveResponse], given what the formatter
    returns for the message. *)
Definition OnReceiveResponse (h : grpcCaptureEventHandler) (formatted : result string)
    : grpcCaptureEventHandler :=
  match h_err h with
  | Some _ => h
  | None =>
      match formatted with
      | Err e => {| h_responses := h_responses h; h_status := h_status h; h_err := Some e |}
      | Ok text =>
          {| h_responses := h_responses h ++ [TrimSpace text];
             h_status := h_status h; h_err := None |}
      end
  end.

(** [grpcCaptureEventHandler.OnReceiveTrailers]. *)
Definition OnReceiveTrailers (h : grpcCaptureEventHandler) (stat : option Status)
    : grpcCaptureEventHandler :=
  {| h_responses := h_responses h; h_status := stat; h_err := h_err h |}.

Fixpoint join_comma (l : list string) : string :=
  match l with
  | [] => EmptyString
  | [x] => TrimSpace x
  | x :: rest => TrimSpace x +:+ "," +:+ join_comma rest
  end.

(** [joinResponses]. *)
Definition joinResponses (responses : list string) : string :=
  "[" +:+ join_comma responses +:+ "]".

(** [grpcCaptureEventHandler.ResponsePayload]; [nil] is the empty string. *)
Definition ResponsePayload (h : grpcCaptureEventHandler) : string :=
  match h_responses h with
  | [] => EmptyString
  | [r] => r
  | _ => joinResponses (h_responses h)
  end.

(** The status check of [executeGRPCStep]. *)
Definition checkGRPCStatus (name : string) (cfg : GRPCStep.t) (respStatus : Status)
    : error :=
  let expectedCode := TrimSpace (GRPCStep.ExpectCode cfg) in
  if negb (is_empty expectedCode) then
    match parseGRPCCode expectedCode with
    | Err e => Some ("step " +:+ Quote name +:+ ": " +:+ e)
    | Ok code =>
        if negb (status_Code respStatus =? code) then
          Some ("step " +:+ Quote name +:+ " failed: expected " +:+ code_String code +:+
                " but got " +:+ code_String (status_Code respStatus) +:+
                " (" +:+ status_Message respStatus +:+ ")")
        else None
    end
  else if negb (status_Code respStatus =? codes_OK) then
    Some ("step " +:+ Quote name +:+ " failed: " +:+ Status_String respStatus)
  else None.

(** [FlowRunner.executeGRPCStep]. *)
Definition executeGRPCStep (w : World) (step : Step.t) : M unit :=
  let name := Step.Name step in
  match Step.GRPC step with
  | None => fail ("step " +:+ Quote name +:+ " missing grpc configuration")
  | Some cfg =>
      (vars <~ get_vars ;;
       let target := TrimSpace (render (templates w) (GRPCStep.Target cfg) vars) in
       if is_empty target then fail ("step " +:+ Quote name +:+ " requires grpc.target")
       else
         let method := TrimSpace (render (templates w) (GRPCStep.Method cfg) vars) in
         if is_empty method then fail ("step " +:+ Quote name +:+ " requires grpc.method")
         else
           match parseGRPCFormat (GRPCStep.Format cfg) with
           | Err e => fail ("step " +:+ Quote name +:+ ": " +:+ e)
           | Ok format =>
               let payload := render (templates w) (GRPCStep.Request cfg) vars in
               match grpc_Call w cfg vars target method format payload with
               | DialFailed e => fail (wrap_step "dial grpc for step" name e)
               | DescriptorSourceFailed e =>
                   fail (wrap_step "prepare descriptor source for step" name e)
               | RequestParserFailed e =>
                   fail (wrap_step "build grpc request parser for step" name e)
               | InvokeFailed e => fail (wrap_step "grpc call for step" name e)
               | Invoked formatted trailers =>
                   let handler :=
                     OnReceiveTrailers
                       (foldl OnReceiveResponse
                          {| h_responses := []; h_status := None; h_err := None |}
                          formatted)
                       trailers in
                   check (wrap_step "process grpc response for step" name <$> h_err handler) ;;;
                   let respStatus :=
                     default {| status_Code := codes_OK; status_Message := EmptyString |}
                             (h_status handler) in
                   check (checkGRPCStatus name cfg respStatus) ;;;
                   saveFromPayload w step (ResponsePayload handler) ;;;
                   recordExport step
               end
           end)%go
  end.

(** ** Steps and flows *)

(** The headers of an HTTP step, each value rendered. *)
Definition renderHeaders (w : World) (headers : StringMap) (vars : gmap string string)
    : list (string * string) :=
  (fun kv => (kv.1, render (templates w) kv.2 vars)) <$> headers.

(** The HTTP request of [FlowRunner.executeStep], from building the request
    on. *)
Definition executeHTTPStep (w : World) (step : Step.t) : M unit :=
  let name := Step.Name step in
  (vars <~ get_vars ;;
   let url := render (templates w) (Step.URL step) vars in
   let bodyStr := render (templates w) (Step.Body step) vars in
   let body := if is_empty bodyStr then None else Some bodyStr in
   let step := applyDefaults step in
   check (wrap_step "build request for step" name <$> http_NewRequest w (Step.Method step) url) ;;;
   let req := {| req_Method := Step.Method step; req_URL := url; req_Body := body;
                 req_Header := renderHeaders w (Step.Headers step) vars |} in
   resp <~ lift (wrapped "send request for step" name (client_Do w req)) ;;
   respBytes <~ lift (wrapped "read response body for step" name (ReadAll resp)) ;;
   if negb (Step.ExpectStatus step =? 0) && negb (StatusCode resp =? Step.ExpectStatus step)
   then fail ("step " +:+ Quote name +:+ " failed: unexpected status " +:+
              fmt_d (StatusCode resp))
   else
     saveFromPayload w step respBytes ;;;
     recordExport step)%go.

(** The [wait] of a step: only the parsing of its duration can fail; the
    sleep itself, cut short by an interrupt, takes time and changes nothing. *)
Definition waitBeforeStep (w : World) (step : Step.t) : M unit :=
  if is_empty (Step.Wait step) then ret tt
  else
    (vars <~ get_vars ;;
     _ <~ lift (wrapped "parse wait duration for step" (Step.Name step)
                       (time_ParseDuration w (render (templates w) (Step.Wait step) vars))) ;;
     ret tt)%go.

(** [FlowRunner.executeStep]. *)
Definition executeStep (w : World) (step : Step.t) : M unit :=
  if Step.Skip step then ret tt
  else
    (waitBeforeStep w step ;;;
     vars <~ get_vars ;;
     let sqlStmt := TrimSpace (render (templates w) (Step.SQL step) vars) in
     if negb (is_empty sqlStmt) then executeSQLStep w (applyDefaults step) sqlStmt
     else
       match Step.Mongo step with
       | Some _ => executeMongoStep w (applyDefaults step)
       | None =>
           match Step.GRPC step with
           | Some _ => executeGRPCStep w (applyDefaults step)
           | None =>
               if is_empty (Step.Method step) || is_empty (Step.URL step) then
                 fail ("step " +:+ Quote (Step.Name step) +:+
                       " requires sql, grpc, or method/url fields")
               else executeHTTPStep w step
           end
       end)%go.

(** [classifyStep]: the label of a step in the run log. *)
Definition classifyStep (step : Step.t) : string :=
  if negb (is_empty (TrimSpace (Step.SQL step))) then "sql"
  else
    match Step.Mongo step with
    | Some _ => "mongo"
    | None =>
        match Step.GRPC step with
        | Some _ => "grpc"
        | None =>
            if negb (is_empty (Step.Method step)) && negb (is_empty (Step.URL step))
            then "http"
            else "step"
        end
    end.

(** [Flow], once the YAML document is decoded. *)
Record Flow : Type := {
  Vars : gmap string string;
  Steps : list Step.t
}.

(** The loop of [RunFlow] over the steps: the first error ends it. *)
Fixpoint runSteps (w : World) (steps : list Step.t) : M unit :=
  match steps with
  | [] => ret tt
  | step :: rest => (executeStep w step ;;; runSteps w rest)%go
  end.

(** The variable store [RunFlow] starts from: the variables of the flow,
    then the overrides copied over them. *)
Definition initialVars (flow : Flow) (overrides : gmap string string)
    : gmap string string :=
  overrides ∪ Vars flow.

(** [FlowRunner.RunFlow], from the decoded flow on; the variable store is
    local to the run, the exporter is the runner's. *)
Definition RunFlow (w : World) (exporter : option varExporter) (flow : Flow)
    (overrides : gmap string string) : error * option varExporter :=
  match runSteps w (Steps flow)
          {| st_vars := initialVars flow overrides; st_exporter := exporter |} with
  | (Ok _, s) => (None, st_exporter s)
  | (Err e, s) => (Some e, st_exporter s)
  end.

(** ** The export file *)

(** The file system as far as the exporter uses it: whether a path can be
    created ([None]) or why not, and the content of the files that exist. *)
Record FS : Type := {
  create_err : string -> error;
  contents : gmap string string
}.

(** [os.Create]: the file is created, or truncated when it exists. *)
Definition os_Create (fs : FS) (path : string) : result File * FS :=
  match create_err fs path with
  | Some e => (Err e, fs)
  | None =>
      (Ok {| file_path := path; file_closed := false |},
       {| create_err := create_err fs;
          contents := <[path := EmptyString]> (contents fs) |})
  end.

(** [File.Write]: the bytes are appended, unless the file was closed. *)
Definition file_Write (fs : FS) (f : File) (data : string) : error * FS :=
  if file_closed f then
    (Some ("write " +:+ file_path f +:+ ": file already closed"), fs)
  else
    (None,
     {| create_err := create_err fs;
        contents :=
          <[file_path f := default EmptyString (contents fs !! file_path f) +:+ data]>
            (contents fs) |}).

(** [File.Close]. *)
Definition file_Close (f : File) : File :=
  {| file_path := file_path f; file_closed := true |}.

(** [newVarExporter]. *)
Definition newVarExporter (fs : FS) (path : string) : result varExporter * FS :=
  match os_Create fs path with
  | (Err e, fs') => (Err ("create exported vars file: " +:+ e), fs')
  | (Ok f, fs') => (Ok {| file := Some f; records := [] |}, fs')
  end.

(** [json.Encoder.Encode] of the records, indented: an empty list is
    written as a pair of brackets and a line feed, a non-empty one as the
    library encodes it. *)
Definition encodeRecords (w : World) (recs : list exportRecord) : result string :=
  match recs with
  | [] => Ok ("[]" +:+ String newline EmptyString)
  | _ :: _ => json_Encode w recs
  end.

(** [varExporter.Close]: the error it returns, the file system and the
    exporter afterwards. *)
Definition varExporter_Close (w : World) (fs : FS) (e : option varExporter)
    : error * FS * option varExporter :=
  match e with
  | None => (None, fs, None)
  | Some e =>
      match file e with
      | None => (None, fs, Some e)
      | Some f =>
          let closed := Some {| file := Some (file_Close f); records := records e |} in
          match encodeRecords w (records e) with
          | Err err => (Some ("write exported vars: " +:+ err), fs, closed)
          | Ok data =>
              match file_Write fs f data with
              | (Some err, fs') => (Some ("write exported vars: " +:+ err), fs', closed)
              | (None, fs') => (None, fs', closed)
              end
          end
      end
  end.

(** [FlowRunner]: the exporter; the HTTP client is part of the world. *)
Record FlowRunner : Type := {
  exporter : option varExporter
}.

(** [newFlowRunner]. *)
Definition newFlowRunner (fs : FS) (exportPath : string) : result FlowRunner * FS :=
  match newVarExporter fs exportPath with
  | (Err e, fs') => (Err e, fs')
  | (Ok e, fs') => (Ok {| exporter := Some e |}, fs')
  end.

(** [FlowRunner.Close], on a runner that is not [nil]. *)
Definition FlowRunner_Close (w : World) (fs : FS) (r : FlowRunner) : error * FS :=
  match exporter r with
  | None => (None, fs)
  | Some e => (varExporter_Close w fs (Some e)).1
  end.

(** The loop of [runFlowsAction] over the flows: the first failing flow
    ends it; the exporter is shared by the flows. *)
Fixpoint runFlows (w : World) (r : FlowRunner) (flows : list Flow)
    (overrides : gmap string string) : error * FlowRunner :=
  match flows with
  | [] => (None, r)
  | flow :: rest =>
      match RunFlow w (exporter r) flow overrides with
      | (Some e, ex) => (Some e, {| exporter := ex |})
      | (None, ex) => runFlows w {| exporter := ex |} rest overrides
      end
  end.

(** [runFlowsAction], from the decoded flows and the parsed overrides on:
    the runner is created, the flows run, and the deferred [Close] runs
    whatever the flows returned; its error is returned when they had none. *)
Definition runFlowsAction (w : World) (fs : FS) (exportFilePath : string)
    (flows : list Flow) (overrides : gmap string string) : error * FS :=
  match flows with
  | [] => (Some "no flow files found", fs)
  | _ :: _ =>
      match newFlowRunner fs exportFilePath with
      | (Err e, fs') => (Some e, fs')
      | (Ok runner, fs') =>
          let '(err, runner') := runFlows w runner flows overrides in
          let '(closeErr, fs'') := FlowRunner_Close w fs' runner' in
          (match err with Some e => Some e | None => closeErr end, fs'')
      end
  end.

(** ** Descriptor sources *)

(** Which of the two sources of a composite a call goes to. *)
Inductive SourceTag : Type :=
| Reflection
| Static.

(** A call a descriptor source receives. *)
Inductive SourceCall : Type :=
| ListServicesOf (src : SourceTag)
| FindSymbolIn (src : SourceTag) (name : string)
| AllExtensionsIn (src : SourceTag) (typeName : string).

(** A result together with the calls made to the underlying sources, in
    order. *)
Definition Traced (A : Type) : Type := A * list SourceCall.

(** [desc.Descriptor]: the symbol it describes and the definition found. *)
Record Descriptor : Type := {
  desc_Name : string;
  desc_Definition : string
}.

(** [*desc.FieldDescriptor] of an extension: [GetNumber] and its name. *)
Record FieldDescriptor : Type := {
  GetNumber : Z;
  ext_Name : string
}.

(** [grpcurl.DescriptorSource]. *)
Record DescriptorSource : Type := {
  ListServices : Traced (result (list string));
  FindSymbol : string -> Traced (result Descriptor);
  AllExtensionsForType : string -> Traced (result (list FieldDescriptor))
}.

(** What a server (by reflection) or a set of descriptor files answers. *)
Record SourceAnswers : Type := {
  ans_Services : result (list string);
  ans_Symbol : string -> result Descriptor;
  ans_Extensions : string -> result (list FieldDescriptor)
}.

(** A source that answers by itself, each call noted under its tag. *)
Definition sourceOf (tag : SourceTag) (a : SourceAnswers) : DescriptorSource :=
  {| ListServices := (ans_Services a, [ListServicesOf tag]);
     FindSymbol := fun name => (ans_Symbol a name, [FindSymbolIn tag name]);
     AllExtensionsForType :=
       fun typeName => (ans_Extensions a typeName, [AllExtensionsIn tag typeName]) |}.

(** The last loop of [compositeDescriptorSource.AllExtensionsForType]. *)
Fixpoint appendUntagged (tags : gset Z) (exts fileExts : list FieldDescriptor)
    : list FieldDescriptor :=
  match fileExts with
  | [] => exts
  | ext :: rest =>
      if bool_decide (GetNumber ext ∈ tags) then appendUntagged tags exts rest
      else appendUntagged tags (exts ++ [ext]) rest
  end.

(** The first loop of [compositeDescriptorSource.AllExtensionsForType]. *)
Fixpoint tagsOf (exts : list FieldDescriptor) (tags : gset Z) : gset Z :=
  match exts with
  | [] => tags
  | ext :: rest => tagsOf rest ({[GetNumber ext]} ∪ tags)
  end.

(** [compositeDescriptorSource] with its three methods. *)
Definition compositeDescriptorSource (reflection file : DescriptorSource)
    : DescriptorSource :=
  {| ListServices := ListServices reflection;
     FindSymbol := fun name =>
       match FindSymbol reflection name with
       | (Ok d, calls) => (Ok d, calls)
       | (Err _, calls) =>
           let '(r, calls') := FindSymbol file name in (r, calls ++ calls')
       end;
     AllExtensionsForType := fun typeName =>
       match AllExtensionsForType reflection typeName with
       | (Err _, calls) =>
           let '(r, calls') := AllExtensionsForType file typeName in (r, calls ++ calls')
       | (Ok exts, calls) =>
           let tags := tagsOf exts ∅ in
           match AllExtensionsForType file typeName with
           | (Err _, calls') => (Ok exts, calls ++ calls')
           | (Ok fileExts, calls') => (Ok (appendUntagged tags exts fileExts), calls ++ calls')
           end
       end |}.

(** [boolValue]. *)
Definition boolValue (value : option bool) (def : bool) : bool :=
  match value with
  | None => def
  | Some b => b
  end.

(** The choice of [buildDescriptorSource] between the reflection source of
    the connection and the file source loaded for the step, if any. *)
Definition buildDescriptorSource (cfg : GRPCStep.t) (reflectionSource : DescriptorSource)
    (fileSource : option DescriptorSource) : result DescriptorSource :=
  if boolValue (GRPCStep.UseReflection cfg) true then
    match fileSource with
    | Some file => Ok (compositeDescriptorSource reflectionSource file)
    | None => Ok reflectionSource
    end
  else
    match fileSource with
    | Some file => Ok file
    | None => Err "grpc step requires reflection (use_reflection) or proto descriptors"
    end.

(** ** A reference template engine *)

(** The fragment of text/template made of literal text and field actions
    [{{.name}}] on a [map[string]string]: enough to run the templates the
    flows of the examples are made of.  An action that is not a field
    reference is outside the fragment and is refused. *)
Module FieldTemplates.

Inductive node : Type :=
| Text (s : string)
| Field (name : string).

Definition is_ident_byte (a : ascii) : bool :=
  let n := nat_of_ascii a in
  ((48 <=? n)%nat && (n <=? 57)%nat) || ((65 <=? n)%nat && (n <=? 90)%nat)
  || ((97 <=? n)%nat && (n <=? 122)%nat) || (n =? 95)%nat.

Fixpoint all_ident (s : string) : bool :=
  match s with
  | EmptyString => true
  | String a s' => is_ident_byte a && all_ident s'
  end.

(** The field an action names, when it is [.name]. *)
Definition field_of (action : string) : option string :=
  match TrimSpace action with
  | String a name =>
      if Ascii.eqb a "." && negb (is_empty name) && all_ident name then Some name else None
  | EmptyString => None
  end.

Definition text_node (acc : string) : list node :=
  if is_empty acc then [] else [Text acc].

Fixpoint parse_from (in_action : bool) (acc : string) (s : string) : option (list node) :=
  match s with
  | EmptyString => if in_action then None else Some (text_node acc)
  | String a s' =>
      if in_action then
        match s' with
        | String b rest =>
            if Ascii.eqb a "}" && Ascii.eqb b "}" then
              match field_of acc with
              | Some name => (fun l => Field name :: l) <$> parse_from false EmptyString rest
              | None => None
              end
            else parse_from true (acc +:+ String a EmptyString) s'
        | EmptyString => None
        end
      else
        match s' with
        | String b rest =>
            if Ascii.eqb a "{" && Ascii.eqb b "{" then
              (fun l => text_node acc ++ l) <$> parse_from true EmptyString rest
            else parse_from false (acc +:+ String a EmptyString) s'
        | EmptyString => Some (text_node (acc +:+ String a EmptyString))
        end
  end.

Definition parse (tmpl : string) : option (list node) :=
  parse_from false EmptyString tmpl.

(** A field of a [map[string]string]: a missing key prints as [<no value>]
    by default, as the zero value of the element type (the empty string)
    under [missingkey=zero], and is an error under [missingkey=error]. *)
Definition field_value (mode : missingkey) (vars : gmap string string) (name : string)
    : option string :=
  match vars !! name with
  | Some v => Some v
  | None =>
      match mode with
      | MissingKeyDefault => Some "<no value>"
      | MissingKeyZero => Some EmptyString
      | MissingKeyError => None
      end
  end.

Fixpoint execute (mode : missingkey) (t : list node) (vars : gmap string string)
    : option string :=
  match t with
  | [] => Some EmptyString
  | Text s :: rest => (fun out => s +:+ out) <$> execute mode rest vars
  | Field name :: rest =>
      v ← field_value mode vars name;
      (fun out => v +:+ out) <$> execute mode rest vars
  end.

Definition engine : TemplateEngine :=
  {| Template := list node; Parse := parse; Execute := execute |}.

End FieldTemplates.

(** ** A sample world *)

(** One world to run the engine in: the reference template engine, a
    database with a table of two users, a document store without a matching
    document, and services that answer every call. *)
Module Sample.

Definition users : Rows :=
  {| Columns := Ok ["ID"; "Name"; "nickname"];
     fetched := [[SqlOther "7"; SqlBytes "Ada"; SqlNull];
                 [SqlOther "8"; SqlBytes "Bob"; SqlBytes "bobby"]];
     rows_Err := None |}.

Definition nobody : Rows :=
  {| Columns := Ok ["id"]; fetched := []; rows_Err := None |}.

Definition db : DB :=
  {| PingContext := None;
     ExecContext := fun _ => Ok {| RowsAffected := Ok 0 |};
     QueryContext := fun stmt =>
       if String.eqb stmt "SELECT * FROM users" then Ok users else Ok nobody |}.

Definition collection : Collection :=
  {| FindOne := fun _ => ErrNoDocuments;
     Find := fun _ _ => Ok {| All := Ok [[("n", BInt64 1)]; [("n", BInt64 2)]] |};
     Aggregate := fun _ => Ok {| All := Ok [[("n", BInt64 1)]] |};
     InsertOne := fun _ => Ok (BOpaque "oid");
     UpdateOne := fun _ _ =>
       Ok {| MatchedCount := 0; ModifiedCount := 0; UpsertedCount := 1;
             UpsertedID := Some (BOpaque "oid") |};
     DeleteOne := fun _ => Ok 1 |}.

Definition client : Client :=
  {| Ping := None;
     GetDatabase := fun _ =>
       {| GetCollection := fun _ => collection;
          RunCommand := fun _ => Ok [("ok", BInt64 1)] |} |}.

Definition world : World :=
  {| templates := FieldTemplates.engine;
     gjson_Get := fun _ path => if String.eqb path "data.id" then "42" else EmptyString;
     json_Valid := fun _ => true;
     Getenv := fun _ => EmptyString;
     sql_Open := fun _ => Ok db;
     mongo_Connect := fun _ => Ok client;
     UnmarshalExtJSON_M := fun _ => Ok [("name", BOpaque "Ada")];
     UnmarshalExtJSON_A := fun _ => Ok [BDoc []];
     MarshalExtJSON := fun _ => Ok "{}";
     grpc_Call := fun _ _ _ _ _ _ => Invoked [Ok "{}"] None;
     http_NewRequest := fun _ _ => None;
     client_Do := fun _ => Ok {| StatusCode := 200; ReadAll := Ok "{}" |};
     time_ParseDuration := fun _ => Ok 0;
     json_Encode := fun _ => Ok "[{}]" |}.

(** A step with every field empty. *)
Definition blank : Step.t :=
  Step.mk EmptyString false false EmptyString 0 EmptyString EmptyString [] EmptyString 0
          [] EmptyString EmptyString 0 None None.

(** A SQL step on the sample database. *)
Definition sqlStep (name sql : string) (save : StringMap) (expect : Z) : Step.t :=
  Step.mk EmptyString false false name 0 EmptyString EmptyString [] EmptyString 0
          save sql "postgres://sample" expect None None.

(** The document-store block of the sample steps. *)
Definition mongoBlock (operation : string) : MongoStep.t :=
  MongoStep.mk "mongodb://sample" "app" "users" operation "{}" EmptyString
               EmptyString EmptyString EmptyString 0.

(** A step on the sample document store. *)
Definition mongoStep (name operation : string) (save : StringMap) (expect : Z) : Step.t :=
  Step.mk EmptyString false false name 0 EmptyString EmptyString [] EmptyString 0
          save EmptyString EmptyString expect (Some (mongoBlock operation)) None.

(** An HTTP step. *)
Definition httpStep (name method url : string) (save : StringMap) : Step.t :=
  Step.mk EmptyString false false name 0 method url [] EmptyString 0
          save EmptyString EmptyString 0 None None.

(** The state a flow starts in when it declares no variable and no export
    file is open. *)
Definition start : RunState := {| st_vars := ∅; st_exporter := None |}.

(** A file system where every path can be created and no file exists. *)
Definition emptyFS : FS := {| create_err := fun _ => None; contents := ∅ |}.

End Sample.

(** ** Vocabulary of the statements *)

(** The result of a step that returns the error [e]. *)
Definition outcome (e : error) : result unit :=
  match e with
  | None => Ok tt
  | Some msg => Err msg
  end.

(** The state [s] with the variable store replaced. *)
Definition with_vars (s : RunState) (vars : gmap string string) : RunState :=
  {| st_vars := vars; st_exporter := st_exporter s |}.

(** A SQL step reaches its statement: a connection string is resolved, the
    database opens and answers the ping. *)
Definition sql_connected (w : World) (step : Step.t) (vars : gmap string string)
    (db : DB) : Prop :=
  resolveDatabaseURL w step vars ≠ EmptyString ∧
  sql_Open w (resolveDatabaseURL w step vars) = Ok db ∧
  PingContext db = None.



(** The operation of a document-store step. *)
Definition mongoOp (cfg : MongoStep.t) : string :=
  normalizeMongoOperation (MongoStep.Operation cfg).

(** The database and the collection a document-store step addresses. *)
Definition mongoDatabaseName (w : World) (cfg : MongoStep.t)
    (vars : gmap string string) : string :=
  fieldOrVar w (MongoStep.Database cfg) "mongo_database" vars.

Definition mongoCollectionName (w : World) (cfg : MongoStep.t)
    (vars : gmap string string) : string :=
  if negb (String.eqb (mongoOp cfg) mongoOpCommand)
  then fieldOrVar w (MongoStep.Collection cfg) "mongo_collection" vars
  else EmptyString.

(** A document-store step reaches its operation: URI, database and (but
    for a command) collection are resolved, the client connects and answers
    the ping. *)
Definition mongo_connected (w : World) (cfg : MongoStep.t) (vars : gmap string string)
    (client : Client) : Prop :=
  resolveMongoURI w cfg vars ≠ EmptyString ∧
  mongoDatabaseName w cfg vars ≠ EmptyString ∧
  (mongoOp cfg ≠ mongoOpCommand → mongoCollectionName w cfg vars ≠ EmptyString) ∧
  mongo_Connect w (resolveMongoURI w cfg vars) = Ok client ∧
  Ping client = None.

(** The operation of a connected document-store step, with its affected
    count and its payload. *)
Definition mongoRun (w : World) (step : Step.t) (cfg : MongoStep.t)
    (vars : gmap string string) (client : Client) : result (Z * string) :=
  let db := GetDatabase client (mongoDatabaseName w cfg vars) in
  mongoOperation w (Step.Name step) cfg (mongoOp cfg) db
    (GetCollection db (mongoCollectionName w cfg vars)) vars.


(** The SQL text of a step as [executeStep] looks at it. *)
Definition renderedSQL (w : World) (step : Step.t) (vars : gmap string string) : string :=
  TrimSpace (render (templates w) (Step.SQL step) vars).

(** The merge of two extension lists in the words of the specification:
    the union of both, deduplicated by field number, the entries of the
    first list taking precedence on a conflict. *)
Definition unionByNumber (exts fileExts : list FieldDescriptor) : list FieldDescriptor :=
  exts ++ filter (λ ext, GetNumber ext ∉ GetNumber <$> exts) fileExts.

(** No call of a trace went to the static source. *)
Definition static_untouched (calls : list SourceCall) : Prop :=
  ∀ c, c ∈ calls →
    match c with
    | ListServicesOf src | FindSymbolIn src _ | AllExtensionsIn src _ => src = Reflection
    end.

(** The handler of an RPC call after its events: one [OnReceiveResponse]
    per message, then [OnReceiveTrailers]. *)
Definition grpcHandler (formatted : list (result string)) (trailers : option Status)
    : grpcCaptureEventHandler :=
  OnReceiveTrailers
    (foldl OnReceiveResponse {| h_responses := []; h_status := None; h_err := None |}
           formatted)
    trailers.

(** The status an RPC step evaluates: that of the trailers, OK without. *)
Definition respStatusOf (h : grpcCaptureEventHandler) : Status :=
  default {| status_Code := codes_OK; status_Message := EmptyString |} (h_status h).

(** An RPC step reaches its call and the call is invoked: target and method
    are set, the format is known, and the libraries deliver the events of
    the call. *)
Definition grpc_invoked (w : World) (cfg : GRPCStep.t) (vars : gmap string string)
    (formatted : list (result string)) (trailers : option Status) : Prop :=
  let target := TrimSpace (render (templates w) (GRPCStep.Target cfg) vars) in
  let method := TrimSpace (render (templates w) (GRPCStep.Method cfg) vars) in
  target ≠ EmptyString ∧ method ≠ EmptyString ∧
  ∃ format,
    parseGRPCFormat (GRPCStep.Format cfg) = Ok format ∧
    grpc_Call w cfg vars target method format
              (render (templates w) (GRPCStep.Request cfg) vars)
      = Invoked formatted trailers.

(** ** More fixtures *)

(** Steps and worlds for the properties of Part III. *)
Module Fixtures.

(** The RPC block of the fixture steps, with an expected code. *)
Definition grpcBlock (expect : string) : GRPCStep.t :=
  GRPCStep.mk "localhost:50051" "users.Users/Get" "{}" EmptyString [] [] false false
              EmptyString EmptyString EmptyString EmptyString [] [] [] None expect.

(** An RPC step. *)
Definition grpcStep (name : string) (save : StringMap) (expect : string) : Step.t :=
  Step.mk EmptyString false false name 0 EmptyString EmptyString [] EmptyString 0
          save EmptyString EmptyString 0 None (Some (grpcBlock expect)).

(** The sample world with another answer to RPC calls. *)
Definition withCall (call : GRPCCall) : World :=
  {| templates := templates Sample.world;
     gjson_Get := gjson_Get Sample.world;
     json_Valid := json_Valid Sample.world;
     Getenv := Getenv Sample.world;
     sql_Open := sql_Open Sample.world;
     mongo_Connect := mongo_Connect Sample.world;
     UnmarshalExtJSON_M := UnmarshalExtJSON_M Sample.world;
     UnmarshalExtJSON_A := UnmarshalExtJSON_A Sample.world;
     MarshalExtJSON := MarshalExtJSON Sample.world;
     grpc_Call := fun _ _ _ _ _ _ => call;
     http_NewRequest := http_NewRequest Sample.world;
     client_Do := client_Do Sample.world;
     time_ParseDuration := time_ParseDuration Sample.world;
     json_Encode := json_Encode Sample.world |}.

(** A service that answers NOT_FOUND. *)
Definition notFound : World :=
  withCall (Invoked [] (Some {| status_Code := 5; status_Message := "no such user" |})).

(** A SQL step that asks for its save to be exported, and a state with an
    exporter that has no file. *)
Definition exportingSQLStep : Step.t :=
  Step.mk EmptyString false true "lookup" 0 EmptyString EmptyString [] EmptyString 0
          [("user_id", "id")] "SELECT * FROM users" "postgres://sample" 0 None None.

(** An HTTP step that exports two variables, one of which the response
    does not have. *)
Definition exportingHTTPStep : Step.t :=
  Step.mk EmptyString false true "create" 0 "POST" "http://sample/users" [] EmptyString 0
          [("user_id", "data.id"); ("missing", "data.none")] EmptyString EmptyString 0
          None None.

Definition exporting : RunState :=
  {| st_vars := ∅; st_exporter := Some {| file := None; records := [] |} |}.

(** The sample world with a service whose responses are not JSON. *)
Definition notJSON : World :=
  {| templates := templates Sample.world;
     gjson_Get := gjson_Get Sample.world;
     json_Valid := fun _ => false;
     Getenv := Getenv Sample.world;
     sql_Open := sql_Open Sample.world;
     mongo_Connect := mongo_Connect Sample.world;
     UnmarshalExtJSON_M := UnmarshalExtJSON_M Sample.world;
     UnmarshalExtJSON_A := UnmarshalExtJSON_A Sample.world;
     MarshalExtJSON := MarshalExtJSON Sample.world;
     grpc_Call := grpc_Call Sample.world;
     http_NewRequest := http_NewRequest Sample.world;
     client_Do := fun _ => Ok {| StatusCode := 200; ReadAll := Ok "<html>" |};
     time_ParseDuration := time_ParseDuration Sample.world;
     json_Encode := json_Encode Sample.world |}.

(** The answers of a server by reflection and of descriptor files. *)
Definition live : SourceAnswers :=
  {| ans_Services := Ok ["users.Users"];
     ans_Symbol := fun name =>
       if String.eqb name "users.Users" then
         Ok {| desc_Name := name; desc_Definition := "live" |}
       else Err "symbol not found";
     ans_Extensions := fun _ => Ok [ {| GetNumber := 5; ext_Name := "live" |} ] |}.

Definition files : SourceAnswers :=
  {| ans_Services := Ok ["users.Users"; "users.Admin"];
     ans_Symbol := fun name => Ok {| desc_Name := name; desc_Definition := "file" |};
     ans_Extensions := fun _ => Ok [ {| GetNumber := 5; ext_Name := "stale" |};
                                     {| GetNumber := 9; ext_Name := "extra" |} ] |}.

End Fixtures.

(** A computation leaves every state related to the state it started in. *)
Definition keeps (R : RunState → RunState → Prop) {A} (m : M A) : Prop :=
  ∀ s, R s (m s).2.

(** The exporter is the same. *)
Definition same_exporter (s s' : RunState) : Prop :=
  st_exporter s' = st_exporter s.

(** The variables outside [keys] are the same. *)
Definition same_vars_outside (keys : list string) (s s' : RunState) : Prop :=
  ∀ k, k ∉ keys → st_vars s' !! k = st_vars s !! k.

(** The variable store is the same. *)
Definition same_vars (s s' : RunState) : Prop :=
  st_vars s' = st_vars s.

(** A computation of a step records at most one export: the exporter is
    left as it was, or the step exports, the computation succeeds and one
    record was added, with the name of the step and the values its save keys
    have in the variable store the computation ends with. *)
Definition exports_once (step : Step.t) (m : M unit) : Prop :=
  ∀ s,
    st_exporter (m s).2 = st_exporter s ∨
    (Step.Export step = true ∧ (m s).1 = Ok tt ∧
     ∃ e, st_exporter s = Some e ∧
          st_exporter (m s).2 =
            Some (varExporter_Record e (Step.Name step)
                    (exportMap (Step.Save step) (st_vars (m s).2) ∅))).

(** ** Helpers of the command line and of the RPC step *)

Definition maxDisplayedStringLen : nat := 120.

(** [s[:n]], for [n] within the string. *)
Fixpoint take_bytes (n : nat) (s : string) : string :=
  match n, s with
  | S n', String a s' => String a (take_bytes n' s')
  | _, _ => EmptyString
  end.

(** [trimLongString]. *)
Definition trimLongString (s : string) : string :=
  if (String.length s <=? maxDisplayedStringLen)%nat then s
  else take_bytes maxDisplayedStringLen s +:+ "...".

(** [strings.SplitN(s, sep, 2)] for a separator of one byte: the text
    before the first separator and the text after it, [None] when the
    separator is not in [s] (the split then has one part). *)
Fixpoint cut (sep : ascii) (s : string) : option (string * string) :=
  match s with
  | EmptyString => None
  | String a s' =>
      if Ascii.eqb a sep then Some (EmptyString, s')
      else
        match cut sep s' with
        | Some (before, after) => Some (String a before, after)
        | None => None
        end
  end.

(** The loop of [parseVarOverrides]. *)
Fixpoint parseVarOverrides_range (pairs : list string) (overrides : gmap string string)
    : result (gmap string string) :=
  match pairs with
  | [] => Ok overrides
  | kv :: rest =>
      if is_empty kv then parseVarOverrides_range rest overrides
      else
        match cut "=" kv with
        | None =>
            Err ("invalid var override " +:+ Quote kv +:+ ", expected key=value")
        | Some (k, v) =>
            let key := TrimSpace k in
            if is_empty key then
              Err ("invalid var override " +:+ Quote kv +:+ ", empty key")
            else parseVarOverrides_range rest (<[key := v]> overrides)
        end
  end.

(** [parseVarOverrides]; the [nil] map it returns without pairs is the
    empty map. *)
Definition parseVarOverrides (pairs : list string) : result (gmap string string) :=
  parseVarOverrides_range pairs ∅.

(** [renderStringSlice]; [nil] is the empty list. *)
Fixpoint renderStringSlice (w : World) (values : list string)
    (vars : gmap string string) : list string :=
  match values with
  | [] => []
  | value :: rest =>
      let trimmed := TrimSpace (render (templates w) value vars) in
      if is_empty trimmed then renderStringSlice w rest vars
      else trimmed :: renderStringSlice w rest vars
  end.

(** The two ways grpcurl loads descriptors from files: from descriptor
    sets, and from proto sources with their import paths. *)
Record DescriptorLoaders : Type := {
  DescriptorSourceFromProtoSets : list string → result DescriptorSource;
  DescriptorSourceFromProtoFiles : list string → list string → result DescriptorSource
}.

(** [loadFileDescriptorSource], on a configuration that is not [nil]; the
    source is [None] when the step names no file. *)
Definition loadFileDescriptorSource (w : World) (L : DescriptorLoaders)
    (cfg : GRPCStep.t) (vars : gmap string string) : result (option DescriptorSource) :=
  let protoSets := renderStringSlice w (GRPCStep.ProtoSets cfg) vars in
  let protoFiles := renderStringSlice w (GRPCStep.ProtoFiles cfg) vars in
  let protoPaths := renderStringSlice w (GRPCStep.ProtoPaths cfg) vars in
  match protoSets, protoFiles with
  | _ :: _, _ :: _ => Err "grpc step cannot set both proto_sets and proto_files"
  | _ :: _, [] =>
      match DescriptorSourceFromProtoSets L protoSets with
      | Ok source => Ok (Some source)
      | Err e => Err e
      end
  | [], _ :: _ =>
      match DescriptorSourceFromProtoFiles L protoPaths protoFiles with
      | Ok source => Ok (Some source)
      | Err e => Err e
      end
  | [], [] => Ok None
  end.

(** The order of [sort.Strings]: byte-wise, as Go compares strings. *)
Definition string_le (a b : string) : Prop := String.leb a b = true.

#[global] Instance string_le_dec (a b : string) : Decision (string_le a b).
Proof. unfold string_le. apply _. Defined.

(** [sort.Strings]: the sorted arrangement of the list (there is one). *)
Definition sort_Strings (l : list string) : list string := merge_sort string_le l.

(** [values[key]] on the entries of a map: the empty string for a key that
    is not there. *)
Fixpoint map_index (values : StringMap) (key : string) : string :=
  match values with
  | [] => EmptyString
  | (k, v) :: rest => if String.eqb k key then v else map_index rest key
  end.

(** The first loop of [buildGRPCHeaders]: the trimmed keys that are not
    blank. *)
Fixpoint headerKeys (values : StringMap) : list string :=
  match values with
  | [] => []
  | (key, _) :: rest =>
      let trimmed := TrimSpace key in
      if is_empty trimmed then headerKeys rest else trimmed :: headerKeys rest
  end.

(** [fmt.Sprintf(%s: %s, key, value)]. *)
Definition header_line (key value : string) : string := key +:+ ": " +:+ value.

(** [buildGRPCHeaders]. *)
Definition buildGRPCHeaders (w : World) (values : StringMap)
    (vars : gmap string string) : list string :=
  match values with
  | [] => []
  | _ :: _ =>
      (λ key, header_line key (render (templates w) (map_index values key) vars))
        <$> sort_Strings (headerKeys values)
  end.

(** [strings.HasPrefix]. *)
Fixpoint HasPrefix (s prefix : string) : bool :=
  match prefix, s with
  | EmptyString, _ => true
  | String p prefix', String a s' => Ascii.eqb a p && HasPrefix s' prefix'
  | String _ _, EmptyString => false
  end.

(** [strings.ReplaceAll] for a non-empty [old]: the occurrences of [old]
    are replaced from left to right, without overlap; [skip] counts the
    bytes of the occurrence that is being replaced. *)
Fixpoint ReplaceAll_from (skip : nat) (s old new : string) : string :=
  match s with
  | EmptyString => EmptyString
  | String a s' =>
      match skip with
      | S k => ReplaceAll_from k s' old new
      | O =>
          if HasPrefix s old
          then new +:+ ReplaceAll_from (String.length old - 1) s' old new
          else String a (ReplaceAll_from 0 s' old new)
      end
  end.

Definition ReplaceAll (s old new : string) : string := ReplaceAll_from 0 s old new.

Definition script_end : string := "</script>".
Definition script_end_escaped : string := "<\/script>".

(** [sanitizeJSONForHTML]. *)
Definition sanitizeJSONForHTML (data : string) : string :=
  ReplaceAll (TrimSpace data) script_end script_end_escaped.

(** [strings.Contains]. *)
Fixpoint Contains (s substr : string) : bool :=
  HasPrefix s substr ||
  match s with
  | EmptyString => false
  | String _ s' => Contains s' substr
  end.

(** ** Transport credentials *)

Definition VersionTLS12 : Z := 771.

(** [tls.Config] as far as the engine sets it: the pool of root
    certificates is the PEM text it was filled from, a certificate is what
    [tls.LoadX509KeyPair] returned. *)
Record tlsConfig : Type := {
  MinVersion : Z;
  InsecureSkipVerify : bool;
  tls_ServerName : string;
  RootCAs : option string;
  Certificates : list string
}.

(** [credentials.TransportCredentials]. *)
Inductive TransportCredentials : Type :=
| insecure_NewCredentials
| credentials_NewTLS (c : tlsConfig).

(** The files and the certificate parsers a TLS configuration is built
    from. *)
Record CertificateFiles : Type := {
  os_ReadFile : string → result string;
  AppendCertsFromPEM : string → bool;
  LoadX509KeyPair : string → string → result string
}.

(** [transportCredentialsForStep], on a configuration that is not [nil]. *)
Definition transportCredentialsForStep (w : World) (F : CertificateFiles)
    (cfg : GRPCStep.t) (vars : gmap string string) : result TransportCredentials :=
  if negb (GRPCStep.UseTLS cfg) then Ok insecure_NewCredentials
  else
    let serverName := TrimSpace (render (templates w) (GRPCStep.ServerName cfg) vars) in
    let caPath := TrimSpace (render (templates w) (GRPCStep.CACert cfg) vars) in
    (rootCAs <-
       (if is_empty caPath then Ok None
        else
          match os_ReadFile F caPath with
          | Err e => Err ("read grpc ca_cert " +:+ Quote caPath +:+ ": " +:+ e)
          | Ok caBytes =>
              if AppendCertsFromPEM F caBytes then Ok (Some caBytes)
              else Err ("grpc ca_cert " +:+ Quote caPath +:+
                        " contains no valid certificates")
          end) ;;
     let clientCertPath :=
       TrimSpace (render (templates w) (GRPCStep.ClientCert cfg) vars) in
     let clientKeyPath :=
       TrimSpace (render (templates w) (GRPCStep.ClientKey cfg) vars) in
     certificates <-
       (if negb (is_empty clientCertPath) || negb (is_empty clientKeyPath) then
          if is_empty clientCertPath || is_empty clientKeyPath then
            Err "grpc client_cert and client_key must both be provided"
          else
            match LoadX509KeyPair F clientCertPath clientKeyPath with
            | Err e => Err ("load grpc client certificate: " +:+ e)
            | Ok cert => Ok [cert]
            end
        else Ok []) ;;
     Ok (credentials_NewTLS
           {| MinVersion := VersionTLS12;
              InsecureSkipVerify := GRPCStep.SkipTLSVerify cfg;
              tls_ServerName := serverName;
              RootCAs := rootCAs;
              Certificates := certificates |}))%go.

(** The byte [sep] occurs in [s]. *)
Fixpoint contains_byte (sep : ascii) (s : string) : bool :=
  match s with
  | EmptyString => false
  | String a s' => Ascii.eqb a sep || contains_byte sep s'
  end.

(** A string that is not empty and has no white space around it. *)
Definition clean_entry (x : string) : Prop := x ≠ EmptyString ∧ TrimSpace x = x.

(** The template [value] renders to nothing but white space. *)
Definition rendersBlank (w : World) (vars : gmap string string) (value : string) : Prop :=
  TrimSpace (render (templates w) value vars) = EmptyString.

(** ** Flow files *)

Module FlowFile.
Record t : Type := mk { Name : string; Path : string }.
End FlowFile.

(** [s[n:]], for [n] within the string. *)
Fixpoint drop_bytes (n : nat) (s : string) : string :=
  match n, s with
  | S n', String _ s' => drop_bytes n' s'
  | _, _ => s
  end.

(** [strings.HasSuffix] and [strings.TrimSuffix]. *)
Definition HasSuffix (s suffix : string) : bool :=
  (String.length suffix <=? String.length s)%nat &&
  String.eqb (drop_bytes (String.length s - String.length suffix) s) suffix.

Definition TrimSuffix (s suffix : string) : string :=
  if HasSuffix s suffix
  then take_bytes (String.length s - String.length suffix) s
  else s.

(** [filepath.Ext] where the separator is the slash: the text from the last
    dot of the last element of the path, empty when that element has no
    dot. *)
Fixpoint Ext (path : string) : string :=
  match path with
  | EmptyString => EmptyString
  | String a rest =>
      if contains_byte "/" rest then Ext rest
      else if negb (is_empty (Ext rest)) then Ext rest
      else if Ascii.eqb a "." then path
      else EmptyString
  end.

(** [filepath.Base] where the separator is the slash and there are no
    volume names: the last element of the path, trailing slashes apart. *)
Fixpoint trim_right_slashes (s : string) : string :=
  match s with
  | EmptyString => EmptyString
  | String a rest =>
      let r := trim_right_slashes rest in
      if is_empty r && Ascii.eqb a "/" then EmptyString else String a r
  end.

Fixpoint last_element (s : string) : string :=
  match s with
  | EmptyString => EmptyString
  | String a rest =>
      if contains_byte "/" rest then last_element rest
      else if Ascii.eqb a "/" then rest
      else s
  end.

Definition Base (path : string) : string :=
  if is_empty path then "."
  else
    let element := last_element (trim_right_slashes path) in
    if is_empty element then "/" else element.

(** An entry of a directory, as far as [listFlows] asks. *)
Record DirEntry : Type := { entry_Name : string; entry_IsDir : bool }.

(** The file system under the flows: [os.Stat] (whether the path is a
    directory), [os.ReadDir], [filepath.Join], and [sort.Slice] on flow
    files with the order of [listFlows], which is free in the order it gives
    to flows of the same name. *)
Record Disk : Type := {
  os_Stat : string → result bool;
  os_ReadDir : string → result (list DirEntry);
  filepath_Join : string → string → string;
  sort_Slice : list FlowFile.t → list FlowFile.t
}.

(** No flow comes after a flow of a greater name. *)
Definition by_Name (a b : FlowFile.t) : Prop :=
  string_le (FlowFile.Name a) (FlowFile.Name b).

#[global] Instance by_Name_dec (a b : FlowFile.t) : Decision (by_Name a b).
Proof. unfold by_Name. apply _. Defined.

(** What [sort.Slice] promises. *)
Definition sorts_by_Name (D : Disk) : Prop :=
  ∀ flows, Sorted by_Name (sort_Slice D flows) ∧ sort_Slice D flows ≡ₚ flows.

Definition is_flow_ext (ext : string) : bool :=
  String.eqb ext ".yaml" || String.eqb ext ".yml".

(** The loop of [listFlows]. *)
Fixpoint listFlows_range (D : Disk) (dir : string) (entries : list DirEntry)
    : list FlowFile.t :=
  match entries with
  | [] => []
  | entry :: rest =>
      if entry_IsDir entry then listFlows_range D dir rest
      else
        let name := entry_Name entry in
        let ext := Ext name in
        if negb (is_flow_ext ext) then listFlows_range D dir rest
        else
          FlowFile.mk (TrimSuffix name ext) (filepath_Join D dir name)
            :: listFlows_range D dir rest
  end.

(** [listFlows]. *)
Definition listFlows (D : Disk) (dir : string) : result (list FlowFile.t) :=
  match os_ReadDir D dir with
  | Err e => Err ("read flow directory: " +:+ e)
  | Ok entries => Ok (sort_Slice D (listFlows_range D dir entries))
  end.

(** The last loop of [resolveFlowTargets]: the first flow of that name. *)
Fixpoint find_flow (flows : list FlowFile.t) (name : string) : option FlowFile.t :=
  match flows with
  | [] => None
  | f :: rest =>
      if String.eqb (FlowFile.Name f) name then Some f else find_flow rest name
  end.

(** The name [resolveFlowTargets] looks for: the flow asked for, without
    its extension. *)
Definition normalizedFlow (flow : string) : string :=
  let ext := Ext flow in
  if negb (is_empty ext) then TrimSuffix flow ext else flow.

(** [resolveFlowTargets]. *)
Definition resolveFlowTargets (D : Disk) (filePath dir flow : string)
    : result (list FlowFile.t) :=
  if negb (is_empty filePath) then
    match os_Stat D filePath with
    | Err e => Err ("flow file " +:+ Quote filePath +:+ " not accessible: " +:+ e)
    | Ok isDir =>
        if isDir then Err ("flow file " +:+ Quote filePath +:+ " is a directory")
        else Ok [FlowFile.mk (TrimSuffix (Base filePath) (Ext filePath)) filePath]
    end
  else
    let dir := if is_empty dir then "." else dir in
    (flows <- listFlows D dir ;;
     if is_empty flow then
       match flows with
       | [] => Err ("no flow files found in " +:+ Quote dir)
       | _ :: _ => Ok flows
       end
     else
       match find_flow flows (normalizedFlow flow) with
       | Some f => Ok [f]
       | None => Err ("flow " +:+ Quote flow +:+ " not found in " +:+ Quote dir)
       end)%go.

(** ** A sample directory of flows *)

Module SampleDisk.
(** A directory of flows: two flows, a flow with a dot in its name, a text
    file and a directory. *)
Definition flowEntries : list DirEntry :=
  [ {| entry_Name := "001_beta.yml"; entry_IsDir := false |};
    {| entry_Name := "002_alpha.yaml"; entry_IsDir := false |};
    {| entry_Name := "archive.yaml"; entry_IsDir := true |};
    {| entry_Name := "notes.txt"; entry_IsDir := false |};
    {| entry_Name := "v1.2.yaml"; entry_IsDir := false |} ].

Definition disk : Disk :=
  {| os_Stat := λ path,
       if String.eqb path "flows" then Ok true
       else if String.eqb path "flows/002_alpha.yaml" then Ok false
       else Err "no such file or directory";
     os_ReadDir := λ dir,
       if String.eqb dir "flows" then Ok flowEntries
       else Err "no such file or directory";
     filepath_Join := λ dir name, dir +:+ "/" +:+ name;
     sort_Slice := merge_sort by_Name |}.

End SampleDisk.

(* ===================================================================== *)
(** * Part II: properties *)
(* ===================================================================== *)

(** ** Strings *)

Lemma is_empty_true (s : string) : is_empty s = true ↔ s = EmptyString.
Proof. destruct s; simpl; split; congruence. Qed.

Lemma is_empty_false (s : string) : is_empty s = false ↔ s ≠ EmptyString.
Proof. destruct s; simpl; split; congruence. Qed.

Lemma append_nil_l (s : string) : EmptyString +:+ s = s.
Proof. reflexivity. Qed.

Lemma append_cons a (s t : string) : String a s +:+ t = String a (s +:+ t).
Proof. reflexivity. Qed.

Lemma append_empty_r (s : string) : s +:+ EmptyString = s.
Proof. induction s as [|a s IH]; [done |]. rewrite append_cons. by f_equal. Qed.


Lemma trim_right_idempotent (s : string) : trim_right (trim_right s) = trim_right s.
Proof.
  induction s as [|a s IH]; simpl; [done |].
  destruct (trim_right s) as [|b t] eqn:Ht.
  - destruct (is_space a) eqn:Ha; simpl; [done | by rewrite Ha].
  - simpl in *. by rewrite IH.
Qed.

(** A string that is empty or starts with a byte that is no space. *)
Definition starts_clean (s : string) : Prop :=
  match s with
  | EmptyString => True
  | String a _ => is_space a = false
  end.

Lemma trim_left_clean (s : string) : starts_clean (trim_left s).
Proof.
  induction s as [|a s IH]; simpl; [done |].
  destruct (is_space a) eqn:Ha; simpl; done.
Qed.

Lemma trim_left_of_clean (s : string) : starts_clean s → trim_left s = s.
Proof. destruct s as [|a s]; simpl; [done |]. by intros ->. Qed.

Lemma trim_right_clean (s : string) : starts_clean s → starts_clean (trim_right s).
Proof.
  destruct s as [|a s]; simpl; [done |]. intros Ha.
  destruct (trim_right s); rewrite ?Ha; simpl; done.
Qed.

Lemma TrimSpace_idempotent (s : string) : TrimSpace (TrimSpace s) = TrimSpace s.
Proof.
  unfold TrimSpace.
  rewrite (trim_left_of_clean (trim_right (trim_left s))).
  - apply trim_right_idempotent.
  - apply trim_right_clean, trim_left_clean.
Qed.

Lemma TrimSpace_empty : TrimSpace EmptyString = EmptyString.
Proof. reflexivity. Qed.




(** ** The template renderer *)

Lemma render_empty (T : TemplateEngine) (vars : gmap string string) :
  render T EmptyString vars = EmptyString.
Proof. reflexivity. Qed.



Lemma render_success (T : TemplateEngine) tmpl t buf (vars : gmap string string) :
  tmpl ≠ EmptyString →
  Parse T tmpl = Some t → Execute T MissingKeyZero t vars = Some buf →
  render T tmpl vars = TrimSpace buf.
Proof.
  intros Hne Hp He. unfold render. destruct tmpl; simpl; [done |].
  simpl in Hp. by rewrite Hp, He.
Qed.


Module FieldTemplatesFacts.
Import FieldTemplates.









End FieldTemplatesFacts.


(** The test of the repository: text around the actions is kept, the output
    is trimmed. *)
Example render_trims :
  render FieldTemplates.engine " Hello {{.name}} {{.count}} "
         (<["name" := "codex"]> (<["count" := "5"]> ∅)) = "Hello codex 5".
Proof. reflexivity. Qed.

(** A template with an action that is never closed comes back as it is. *)
Example render_malformed :
  render FieldTemplates.engine "  {{.name " (<["name" := "codex"]> ∅) = "  {{.name ".
Proof. reflexivity. Qed.

(** Without [missingkey=zero] a missing variable would not render as the
    empty string. *)
Example missingkey_default_differs :
  (t ← Parse FieldTemplates.engine "{{.missing}}";
   Execute FieldTemplates.engine MissingKeyDefault t ∅) = Some "<no value>".
Proof. reflexivity. Qed.

(** ** The state of a run *)

Lemma with_vars_same (s : RunState) : with_vars s (st_vars s) = s.
Proof. by destruct s. Qed.

Lemma outcome_ok (e : error) : outcome e = Ok tt ↔ e = None.
Proof. destruct e; simpl; split; congruence. Qed.

(** ** Affected rows *)

Lemma ensureExpectedAffectedRows_skip (step : Step.t) (actual : Z) :
  Step.ExpectAffectedRows step = 0 → ensureExpectedAffectedRows step actual = None.
Proof. intros H. unfold ensureExpectedAffectedRows. by rewrite H. Qed.

Lemma ensureExpectedAffectedRows_match (step : Step.t) (actual : Z) :
  Step.ExpectAffectedRows step ≠ 0 →
  ensureExpectedAffectedRows step actual ≠ None ↔ actual ≠ Step.ExpectAffectedRows step.
Proof.
  intros H. unfold ensureExpectedAffectedRows.
  destruct (Z.eqb_spec (Step.ExpectAffectedRows step) 0); [done |].
  destruct (Z.eqb_spec actual (Step.ExpectAffectedRows step)); simpl; split; congruence.
Qed.

(** ** The SQL executor *)

Lemma executeSQLStep_connected (w : World) (step : Step.t) (sqlStmt : string)
    (s : RunState) (db : DB) :
  sql_connected w step (st_vars s) db →
  executeSQLStep w step sqlStmt s =
    match executeSQLAndMaybeSave db step sqlStmt (st_vars s) with
    | (Err e, vars') => (Err e, with_vars s vars')
    | (Ok n, vars') => (outcome (ensureExpectedAffectedRows step n), with_vars s vars')
    end.
Proof.
  intros (Hurl & Hopen & Hping). apply is_empty_false in Hurl.
  unfold executeSQLStep, bind, get_vars, lift, check, update_vars_err, fail, wrapped.
  rewrite Hurl, Hopen, Hping. simpl.
  destruct (executeSQLAndMaybeSave db step sqlStmt (st_vars s)) as [[n|e] vars']; [| done].
  unfold with_vars. by destruct (ensureExpectedAffectedRows step n).
Qed.

(** C6. With a non-zero [expect_affected_rows] the check fails exactly when
    the computed count differs from it, and so does the step; with zero the
    check passes whatever the count. *)
Theorem expect_affected_rows_contract (step : Step.t) (actual : Z) :
  (Step.ExpectAffectedRows step ≠ 0 →
     (ensureExpectedAffectedRows step actual ≠ None ↔
      actual ≠ Step.ExpectAffectedRows step)) ∧
  (Step.ExpectAffectedRows step = 0 → ensureExpectedAffectedRows step actual = None) ∧
  (∀ w sqlStmt s db vars',
     sql_connected w step (st_vars s) db →
     executeSQLAndMaybeSave db step sqlStmt (st_vars s) = (Ok actual, vars') →
     (executeSQLStep w step sqlStmt s).1 =
       outcome (ensureExpectedAffectedRows step actual)).
Proof.
  split; [apply ensureExpectedAffectedRows_match |].
  split; [apply ensureExpectedAffectedRows_skip |].
  intros w sqlStmt s db vars' Hconn Hrun.
  by rewrite (executeSQLStep_connected _ _ _ _ _ Hconn), Hrun.
Qed.

(** The cases of the test of the repository. *)
Example expect_two_got_two :
  ensureExpectedAffectedRows (Sample.sqlStep "users" "UPDATE users" [] 2) 2 = None.
Proof. reflexivity. Qed.

Example expect_two_got_one :
  ensureExpectedAffectedRows (Sample.sqlStep "users" "UPDATE users" [] 2) 1 =
    Some ("step " +:+ Quote "users" +:+ " failed: unexpected affected rows 1").
Proof. reflexivity. Qed.

Example expect_zero_got_five :
  ensureExpectedAffectedRows (Sample.sqlStep "users" "UPDATE users" [] 0) 5 = None.
Proof. reflexivity. Qed.

(** A step on the sample database: two rows come back where three are
    expected. *)
Example expect_three_got_two :
  (executeSQLStep Sample.world (Sample.sqlStep "users" "SELECT * FROM users" [("id", "ID")] 3)
     "SELECT * FROM users" Sample.start).1 =
    Err ("step " +:+ Quote "users" +:+ " failed: unexpected affected rows 2").
Proof. reflexivity. Qed.

(** *** The column index *)







(** *** Saving from the first row *)


(** A variable that is not a key of the save map is left as it was, also
    when the loop ends on an error. *)
Lemma saveRowValues_range_frame (name : string) (save : StringMap)
    (row : list sqlval) (idx : gmap string nat) (vars : gmap string string) (k : string) :
  k ∉ save.*1 →
  (saveRowValues_range name save row idx vars).2 !! k = vars !! k.
Proof.
  revert vars. induction save as [|[v col] rest IH]; intros vars Hk; simpl; [done |].
  apply not_elem_of_cons in Hk as [Hne Hk]. simpl in Hne.
  destruct (idx !! ToLower (saveTarget v col)) as [i|]; [| done].
  destruct (row !! i) as [[| |]|]; simpl; rewrite ?IH by done;
    rewrite ?lookup_insert_ne by done; done.
Qed.




(** *** Counting the rows *)




(** [runSQLAndSave] on a result set without rows. *)
Lemma runSQLAndSave_no_rows (db : DB) (step : Step.t) (sqlStmt : string)
    (vars : gmap string string) (rows : Rows) (columns : list string) :
  QueryContext db sqlStmt = Ok rows →
  Columns rows = Ok columns →
  fetched rows = [] →
  rows_Err rows = None →
  runSQLAndSave db step sqlStmt vars =
    (Err (wrap_step "execute sql for step" (Step.Name step) "no rows returned to save"),
     vars).
Proof.
  intros Hq Hc Hf He. unfold runSQLAndSave. rewrite Hq, Hc, Hf. simpl. by rewrite He.
Qed.

(** C5. A SQL step that declares [save] and whose query returns no row
    fails with the error [no rows returned to save]; a SQL step without
    [save] whose statement reports 0 affected rows, with no expectation set,
    succeeds. *)
Theorem sql_save_without_rows (w : World) (step : Step.t) (sqlStmt : string)
    (s : RunState) (db : DB) :
  sql_connected w step (st_vars s) db →
  (∀ rows columns,
     Step.Save step ≠ [] →
     QueryContext db sqlStmt = Ok rows → Columns rows = Ok columns →
     fetched rows = [] → rows_Err rows = None →
     executeSQLStep w step sqlStmt s =
       (Err ("execute sql for step " +:+ Quote (Step.Name step) +:+
             ": no rows returned to save"), s)) ∧
  (∀ res,
     Step.Save step = [] →
     ExecContext db sqlStmt = Ok res → RowsAffected res = Ok 0 →
     Step.ExpectAffectedRows step = 0 →
     executeSQLStep w step sqlStmt s = (Ok tt, s)).
Proof.
  intros Hconn. split.
  - intros rows columns Hsave Hq Hc Hf He.
    rewrite (executeSQLStep_connected _ _ _ _ _ Hconn).
    unfold executeSQLAndMaybeSave. destruct (Step.Save step) as [|entry rest]; [done |].
    rewrite (runSQLAndSave_no_rows _ _ _ _ _ _ Hq Hc Hf He).
    by rewrite with_vars_same.
  - intros res Hsave Hx Hn Hexpect.
    rewrite (executeSQLStep_connected _ _ _ _ _ Hconn).
    unfold executeSQLAndMaybeSave, runSQLWithoutSave. rewrite Hsave, Hx, Hn.
    rewrite (ensureExpectedAffectedRows_skip _ _ Hexpect). simpl.
    by rewrite with_vars_same.
Qed.

(** On the sample database: a lookup that finds nobody fails, a statement
    that touches no row succeeds. *)
Lemma sql_save_without_rows_witness :
  executeSQLStep Sample.world
      (Sample.sqlStep "lookup" "SELECT * FROM nobody" [("id", "id")] 0)
      "SELECT * FROM nobody" Sample.start =
    (Err ("execute sql for step " +:+ Quote "lookup" +:+ ": no rows returned to save"),
     Sample.start) ∧
  executeSQLStep Sample.world
      (Sample.sqlStep "cleanup" "DELETE FROM nobody" [] 0)
      "DELETE FROM nobody" Sample.start = (Ok tt, Sample.start).
Proof.
  split.
  - refine (proj1 (sql_save_without_rows Sample.world
                     (Sample.sqlStep "lookup" "SELECT * FROM nobody" [("id", "id")] 0)
                     "SELECT * FROM nobody" Sample.start Sample.db _)
                  Sample.nobody ["id"] _ _ _ _ _);
      first [reflexivity | discriminate | idtac].
    repeat split; vm_compute; congruence.
  - refine (proj2 (sql_save_without_rows Sample.world
                     (Sample.sqlStep "cleanup" "DELETE FROM nobody" [] 0)
                     "DELETE FROM nobody" Sample.start Sample.db _)
                  {| RowsAffected := Ok 0 |} _ _ _ _);
      first [reflexivity | idtac].
    repeat split; vm_compute; congruence.
Defined.



(** ** Saving from a JSON payload *)

Lemma saveValues_range_frame (w : World) (resp : string) (save : StringMap)
    (vars : gmap string string) (k : string) :
  k ∉ save.*1 → saveValues_range w resp save vars !! k = vars !! k.
Proof.
  revert vars. induction save as [|[v path] rest IH]; intros vars Hk; simpl; [done |].
  apply not_elem_of_cons in Hk as [Hne Hk]. simpl in Hne.
  destruct (is_empty (gjson_Get w resp path)); rewrite IH by done;
    rewrite ?lookup_insert_ne by done; done.
Qed.


Lemma saveFromPayload_ok (w : World) (step : Step.t) (payload : string) (s : RunState) :
  (saveFromPayload w step payload s).1 = Ok tt.
Proof.
  unfold saveFromPayload. destruct (Step.Save step); [done |].
  by destruct (negb (is_empty payload) && json_Valid w payload).
Qed.

Lemma recordExport_ok (step : Step.t) (s : RunState) :
  (recordExport step s).1 = Ok tt.
Proof.
  unfold recordExport. destruct (st_exporter s); [| done].
  by destruct (Step.Export step).
Qed.

(** The end of the HTTP, document-store and RPC executors, saving and
    recording the export, returns no error. *)
Lemma save_and_export_ok (w : World) (step : Step.t) (payload : string) (s : RunState) :
  (bind (saveFromPayload w step payload) (λ _, recordExport step) s).1 = Ok tt.
Proof.
  unfold bind. pose proof (saveFromPayload_ok w step payload s) as H.
  destruct (saveFromPayload w step payload s) as [[[]|e] s']; simpl in H; [| done].
  apply recordExport_ok.
Qed.




(** ** The document-store executor *)

Lemma executeMongoStep_connected (w : World) (step : Step.t) (cfg : MongoStep.t)
    (s : RunState) (client : Client) :
  Step.Mongo step = Some cfg →
  mongo_connected w cfg (st_vars s) client →
  executeMongoStep w step s =
    match mongoRun w step cfg (st_vars s) client with
    | Err e => (Err e, s)
    | Ok (affected, payload) =>
        match ensureExpectedAffectedRows step affected with
        | Some e => (Err e, s)
        | None => bind (saveFromPayload w step payload) (λ _, recordExport step) s
        end
    end.
Proof.
  intros Hcfg (Huri & Hdb & Hcoll & Hconn & Hping).
  apply is_empty_false in Huri, Hdb.
  unfold executeMongoStep. rewrite Hcfg.
  unfold bind at 1. unfold get_vars at 1. cbv beta iota.
  rewrite Huri. unfold mongoDatabaseName in Hdb. rewrite Hdb.
  fold (mongoOp cfg).
  assert ((negb (String.eqb (mongoOp cfg) mongoOpCommand) &&
           is_empty (if negb (String.eqb (mongoOp cfg) mongoOpCommand)
                     then fieldOrVar w (MongoStep.Collection cfg) "mongo_collection" (st_vars s)
                     else EmptyString)) = false) as ->.
  { destruct (String.eqb_spec (mongoOp cfg) mongoOpCommand) as [|Hne]; [done |].
    simpl. apply is_empty_false. specialize (Hcoll Hne).
    unfold mongoCollectionName in Hcoll.
    destruct (String.eqb_spec (mongoOp cfg) mongoOpCommand); done. }
  unfold bind at 1, lift at 1, wrapped. rewrite Hconn.
  unfold bind at 1, check at 1. rewrite Hping. cbn [fmap option_fmap option_map].
  unfold bind at 1, lift at 1.
  unfold mongoRun, mongoDatabaseName, mongoCollectionName.
  destruct (mongoOperation w (Step.Name step) cfg (mongoOp cfg) _ _ _)
    as [[affected payload]|e]; [| done].
  unfold bind at 1, check at 1.
  by destruct (ensureExpectedAffectedRows step affected).
Qed.

(** *** The affected count of each operation *)

Ltac run_mongo_operation :=
  unfold mongoOperation, in_step, rbind, bsonToJSON;
  cbn [String.eqb Ascii.eqb Bool.eqb mongoOpFindOne mongoOpFind mongoOpAggregate
       mongoOpInsertOne mongoOpUpdateOne mongoOpDeleteOne mongoOpCommand];
  repeat match goal with
         | H : _ = _ |- _ => rewrite H
         end;
  try done.

Section MongoOperations.
Variable w : World.
Variable name : string.
Variable cfg : MongoStep.t.
Variable db : Database.
Variable collection : Collection.
Variable vars : gmap string string.

Lemma mongoOperation_findOne_none (filterDoc : bsonM) :
  parseBSONDocument w (render (templates w) (MongoStep.Filter cfg) vars) = Ok filterDoc →
  FindOne collection filterDoc = ErrNoDocuments →
  mongoOperation w name cfg mongoOpFindOne db collection vars = Ok (0, "null").
Proof. intros Hp Hf. run_mongo_operation. Qed.

Lemma mongoOperation_findOne_found (filterDoc doc : bsonM) (payload : string) :
  parseBSONDocument w (render (templates w) (MongoStep.Filter cfg) vars) = Ok filterDoc →
  FindOne collection filterDoc = FindOneDoc doc →
  MarshalExtJSON w (BDoc doc) = Ok payload →
  mongoOperation w name cfg mongoOpFindOne db collection vars = Ok (1, payload).
Proof. intros Hp Hf Hm. run_mongo_operation. Qed.







End MongoOperations.

(** The update count: what was modified, else what was upserted. *)
Lemma updateAffected_cases (res : UpdateResult) :
  (ModifiedCount res ≠ 0 → updateAffected res = ModifiedCount res) ∧
  (ModifiedCount res = 0 → 0 < UpsertedCount res → updateAffected res = UpsertedCount res) ∧
  (ModifiedCount res = 0 → UpsertedCount res ≤ 0 → updateAffected res = 0).
Proof.
  unfold updateAffected. repeat split.
  - intros H. by destruct (Z.eqb_spec (ModifiedCount res) 0).
  - intros -> H. simpl. by destruct (Z.ltb_spec 0 (UpsertedCount res)); [| lia].
  - intros -> H. simpl. by destruct (Z.ltb_spec 0 (UpsertedCount res)); [lia |].
Qed.

(** After the affected-row check, saving and exporting add no error. *)
Lemma checked_then_saved (w : World) (step : Step.t) (payload : string)
    (s : RunState) (e : error) :
  (match e with
   | Some msg => (Err msg, s)
   | None => bind (saveFromPayload w step payload) (λ _, recordExport step) s
   end).1 = outcome e.
Proof. destruct e; [done | apply save_and_export_ok]. Qed.

(** C9, as the code has it.  A [findOne] whose filter matches no document
    is no error of the operation: the affected count is 0 and the payload is
    the JSON null; the step then returns what the affected-row check returns
    for 0, so it succeeds when no expectation is set.  When a document is
    found the affected count is 1. *)
Theorem findOne_without_match (w : World) (step : Step.t) (cfg : MongoStep.t)
    (s : RunState) (client : Client) (filterDoc : bsonM) :
  Step.Mongo step = Some cfg →
  mongoOp cfg = mongoOpFindOne →
  mongo_connected w cfg (st_vars s) client →
  parseBSONDocument w (render (templates w) (MongoStep.Filter cfg) (st_vars s))
    = Ok filterDoc →
  let collection :=
    GetCollection (GetDatabase client (mongoDatabaseName w cfg (st_vars s)))
                  (mongoCollectionName w cfg (st_vars s)) in
  (FindOne collection filterDoc = ErrNoDocuments →
     mongoRun w step cfg (st_vars s) client = Ok (0, "null") ∧
     (executeMongoStep w step s).1 = outcome (ensureExpectedAffectedRows step 0) ∧
     (Step.ExpectAffectedRows step = 0 → (executeMongoStep w step s).1 = Ok tt)) ∧
  (∀ doc payload,
     FindOne collection filterDoc = FindOneDoc doc →
     MarshalExtJSON w (BDoc doc) = Ok payload →
     mongoRun w step cfg (st_vars s) client = Ok (1, payload) ∧
     (executeMongoStep w step s).1 = outcome (ensureExpectedAffectedRows step 1)).
Proof.
  intros Hcfg Hop Hconn Hfilter collection. split.
  - intros Hnone.
    assert (mongoRun w step cfg (st_vars s) client = Ok (0, "null")) as Hrun.
    { unfold mongoRun. rewrite Hop. by eapply mongoOperation_findOne_none. }
    split; [done |].
    rewrite (executeMongoStep_connected _ _ _ _ _ Hcfg Hconn), Hrun.
    rewrite checked_then_saved. split; [done |].
    intros Hexp. by rewrite ensureExpectedAffectedRows_skip.
  - intros doc payload Hfound Hm.
    assert (mongoRun w step cfg (st_vars s) client = Ok (1, payload)) as Hrun.
    { unfold mongoRun. rewrite Hop. by eapply mongoOperation_findOne_found. }
    split; [done |].
    rewrite (executeMongoStep_connected _ _ _ _ _ Hcfg Hconn), Hrun.
    apply checked_then_saved.
Qed.

(** On the sample document store, where no document matches: a [findOne]
    step without expectation succeeds. *)
Lemma findOne_without_match_witness :
  mongoRun Sample.world (Sample.mongoStep "find" "findOne" [] 0)
           (Sample.mongoBlock "findOne") ∅ Sample.client = Ok (0, "null") ∧
  (executeMongoStep Sample.world (Sample.mongoStep "find" "findOne" [] 0) Sample.start).1
    = Ok tt.
Proof.
  destruct (findOne_without_match Sample.world (Sample.mongoStep "find" "findOne" [] 0)
              (Sample.mongoBlock "findOne") Sample.start Sample.client
              [("name", BOpaque "Ada")]) as [Hnone _];
    [reflexivity | reflexivity | | reflexivity |].
  - repeat split; vm_compute; congruence.
  - destruct (Hnone eq_refl) as (Hrun & _ & Hok). split; [exact Hrun | exact (Hok eq_refl)].
Defined.

(** C9 as the specification states it does not hold for every step: on the
    sample document store no document matches, and a [findOne] step that
    expects one affected row fails. *)
Lemma findOne_without_match_can_fail :
  FindOne Sample.collection [("name", BOpaque "Ada")] = ErrNoDocuments ∧
  executeMongoStep Sample.world (Sample.mongoStep "find" "findOne" [] 1) Sample.start =
    (Err ("step " +:+ Quote "find" +:+ " failed: unexpected affected rows 0"),
     Sample.start).
Proof. split; reflexivity. Qed.



(** ** The classification of a step *)

Lemma waitBeforeStep_state (w : World) (step : Step.t) (s : RunState) :
  (waitBeforeStep w step s).2 = s.
Proof.
  unfold waitBeforeStep. destruct (is_empty (Step.Wait step)); [done |].
  unfold bind, get_vars, lift, wrapped, ret.
  by destruct (time_ParseDuration w _).
Qed.





(** The label of the run log follows the same order, on the SQL text as
    written, and has a label of its own where the executor fails. *)
Lemma classifyStep_order (step : Step.t) :
  (TrimSpace (Step.SQL step) ≠ EmptyString → classifyStep step = "sql") ∧
  (TrimSpace (Step.SQL step) = EmptyString → Step.Mongo step ≠ None →
     classifyStep step = "mongo") ∧
  (TrimSpace (Step.SQL step) = EmptyString → Step.Mongo step = None →
     Step.GRPC step ≠ None → classifyStep step = "grpc") ∧
  (TrimSpace (Step.SQL step) = EmptyString → Step.Mongo step = None →
     Step.GRPC step = None → Step.Method step ≠ EmptyString →
     Step.URL step ≠ EmptyString → classifyStep step = "http") ∧
  (TrimSpace (Step.SQL step) = EmptyString → Step.Mongo step = None →
     Step.GRPC step = None →
     Step.Method step = EmptyString ∨ Step.URL step = EmptyString →
     classifyStep step = "step").
Proof.
  unfold classifyStep. split.
  { intros H%is_empty_false. by rewrite H. }
  split.
  { intros -> Hm. simpl. by destruct (Step.Mongo step). }
  split.
  { intros -> -> Hg. simpl. by destruct (Step.GRPC step). }
  split.
  { intros -> -> -> Hm%is_empty_false Hu%is_empty_false. simpl. by rewrite Hm, Hu. }
  intros -> -> -> [-> | ->]; simpl; [done |]. by rewrite andb_false_r.
Qed.

(** ** The composite descriptor source *)

Lemma tagsOf_elem (exts : list FieldDescriptor) (tags : gset Z) (n : Z) :
  n ∈ tagsOf exts tags ↔ n ∈ GetNumber <$> exts ∨ n ∈ tags.
Proof.
  revert tags. induction exts as [|ext rest IH]; intros tags; simpl.
  - split; [by right | intros [H%elem_of_nil|H]; done].
  - rewrite IH, elem_of_cons, elem_of_union, elem_of_singleton. tauto.
Qed.

Lemma appendUntagged_filter (tags : gset Z) (exts fileExts : list FieldDescriptor) :
  appendUntagged tags exts fileExts =
    exts ++ filter (λ ext, GetNumber ext ∉ tags) fileExts.
Proof.
  revert exts. induction fileExts as [|ext rest IH]; intros exts; simpl.
  - by rewrite app_nil_r.
  - rewrite filter_cons. case_bool_decide as Hin.
    + rewrite IH. by destruct (decide (GetNumber ext ∉ tags)).
    + rewrite IH. destruct (decide (GetNumber ext ∉ tags)); [| done].
      by rewrite <- app_assoc.
Qed.

(** The two loops of the code compute the merge of the specification. *)
Lemma appendUntagged_union (exts fileExts : list FieldDescriptor) :
  appendUntagged (tagsOf exts ∅) exts fileExts = unionByNumber exts fileExts.
Proof.
  rewrite appendUntagged_filter. unfold unionByNumber. f_equal.
  induction fileExts as [|ext rest IH]; [done |].
  rewrite !filter_cons, IH.
  destruct (decide (GetNumber ext ∉ tagsOf exts ∅)) as [H1|H1];
    destruct (decide (GetNumber ext ∉ GetNumber <$> exts)) as [H2|H2]; try done;
    exfalso; rewrite tagsOf_elem in H1.
  - apply H2. intros Hin. apply H1. by left.
  - apply H1. intros [Hin|Hin]; [done | by apply elem_of_empty in Hin].
Qed.

Lemma unionByNumber_elem (exts fileExts : list FieldDescriptor) (ext : FieldDescriptor) :
  ext ∈ unionByNumber exts fileExts ↔
    ext ∈ exts ∨ (ext ∈ fileExts ∧ GetNumber ext ∉ GetNumber <$> exts).
Proof.
  unfold unionByNumber. rewrite elem_of_app, list_elem_of_filter. tauto.
Qed.

(** Every field number of either list is a field number of the merge. *)
Lemma unionByNumber_numbers (exts fileExts : list FieldDescriptor) (n : Z) :
  n ∈ GetNumber <$> unionByNumber exts fileExts ↔
    n ∈ GetNumber <$> exts ∨ n ∈ GetNumber <$> fileExts.
Proof.
  rewrite !list_elem_of_fmap. split.
  - intros (ext & -> & Hin). apply unionByNumber_elem in Hin as [Hin|[Hin _]]; eauto.
  - intros [(ext & -> & Hin)|(ext & -> & Hin)].
    + exists ext. split; [done |]. apply unionByNumber_elem. by left.
    + destruct (decide (GetNumber ext ∈ GetNumber <$> exts)) as [Hn|Hn].
      * apply list_elem_of_fmap in Hn as (ext' & Heq & Hin').
        exists ext'. split; [done |]. apply unionByNumber_elem. by left.
      * exists ext. split; [done |]. apply unionByNumber_elem. by right.
Qed.

(** When neither list repeats a field number, the merge repeats none. *)
Lemma unionByNumber_NoDup (exts fileExts : list FieldDescriptor) :
  NoDup (GetNumber <$> exts) → NoDup (GetNumber <$> fileExts) →
  NoDup (GetNumber <$> unionByNumber exts fileExts).
Proof.
  intros H1 H2. unfold unionByNumber. rewrite fmap_app. apply NoDup_app.
  split; [done |]. split.
  - intros n Hn (ext & -> & Hin)%list_elem_of_fmap.
    apply list_elem_of_filter in Hin as [Hout _]. done.
  - eapply sublist_NoDup; [exact H2 |]. apply fmap_sublist, sublist_filter.
Qed.

(** C7. In the composite source, [FindSymbol] returns what reflection
    resolves without any call to the static source, and asks the static
    source exactly when reflection fails; [AllExtensionsForType] returns the
    union of the two lists deduplicated by field number, the reflection
    entries first and kept on a conflict (the list of one source alone when
    the other fails). *)
Theorem composite_source_contract (ra fa : SourceAnswers) :
  let cs := compositeDescriptorSource (sourceOf Reflection ra) (sourceOf Static fa) in
  (∀ name d,
     ans_Symbol ra name = Ok d →
     FindSymbol cs name = (Ok d, [FindSymbolIn Reflection name]) ∧
     static_untouched (FindSymbol cs name).2) ∧
  (∀ name e,
     ans_Symbol ra name = Err e →
     FindSymbol cs name =
       (ans_Symbol fa name, [FindSymbolIn Reflection name; FindSymbolIn Static name])) ∧
  (∀ name, FindSymbolIn Static name ∈ (FindSymbol cs name).2 ↔
           is_ok (ans_Symbol ra name) = false) ∧
  (∀ typeName exts fileExts,
     ans_Extensions ra typeName = Ok exts →
     ans_Extensions fa typeName = Ok fileExts →
     (AllExtensionsForType cs typeName).1 = Ok (unionByNumber exts fileExts) ∧
     (∀ n, n ∈ GetNumber <$> unionByNumber exts fileExts ↔
           n ∈ GetNumber <$> exts ∨ n ∈ GetNumber <$> fileExts) ∧
     (∀ ext, ext ∈ unionByNumber exts fileExts →
             GetNumber ext ∈ GetNumber <$> exts → ext ∈ exts) ∧
     (∀ ext, ext ∈ exts → ext ∈ unionByNumber exts fileExts) ∧
     (NoDup (GetNumber <$> exts) → NoDup (GetNumber <$> fileExts) →
      NoDup (GetNumber <$> unionByNumber exts fileExts))) ∧
  (∀ typeName exts e,
     ans_Extensions ra typeName = Ok exts →
     ans_Extensions fa typeName = Err e →
     (AllExtensionsForType cs typeName).1 = Ok exts) ∧
  (∀ typeName e,
     ans_Extensions ra typeName = Err e →
     (AllExtensionsForType cs typeName).1 = ans_Extensions fa typeName).
Proof.
  intros cs. subst cs. simpl. split.
  { intros name d ->. split; [done |].
    intros c Hc%list_elem_of_singleton. by subst c. }
  split; [by intros name e -> |].
  split.
  { intros name. destruct (ans_Symbol ra name); simpl.
    - split; [| done]. intros Hc%list_elem_of_singleton. done.
    - split; [done |]. intros _. set_solver. }
  split.
  { intros typeName exts fileExts -> ->. simpl. rewrite appendUntagged_union.
    split; [done |]. split; [apply unionByNumber_numbers |].
    split.
    { intros ext [Hin|[_ Hout]]%unionByNumber_elem Hn; done. }
    split; [intros ext Hin; apply unionByNumber_elem; by left |].
    apply unionByNumber_NoDup. }
  split; [by intros typeName exts e -> -> |].
  by intros typeName e ->.
Qed.

(** Two sources that declare extension 5 differently, and only the file
    declares extension 9: the merge keeps the reflection entry for 5. *)
Example composite_extensions :
  let reflection := {| ans_Services := Ok ["svc"];
                       ans_Symbol := λ _, Err "not found";
                       ans_Extensions := λ _, Ok [ {| GetNumber := 5; ext_Name := "live" |} ] |} in
  let files := {| ans_Services := Ok [];
                  ans_Symbol := λ name, Ok {| desc_Name := name; desc_Definition := "file" |};
                  ans_Extensions := λ _, Ok [ {| GetNumber := 5; ext_Name := "stale" |};
                                              {| GetNumber := 9; ext_Name := "extra" |} ] |} in
  let cs := compositeDescriptorSource (sourceOf Reflection reflection) (sourceOf Static files) in
  (AllExtensionsForType cs "pkg.Message").1 =
    Ok [ {| GetNumber := 5; ext_Name := "live" |}; {| GetNumber := 9; ext_Name := "extra" |} ] ∧
  FindSymbol cs "pkg.Message" =
    (Ok {| desc_Name := "pkg.Message"; desc_Definition := "file" |},
     [FindSymbolIn Reflection "pkg.Message"; FindSymbolIn Static "pkg.Message"]).
Proof. split; reflexivity. Qed.

(** ** The export file *)

(** [Close] on a fresh exporter writes the encoding of its records to the
    file, once. *)
Lemma varExporter_Close_open (w : World) (fs : FS) (path : string)
    (recs : list exportRecord) (data : string) :
  encodeRecords w recs = Ok data →
  varExporter_Close w fs
      (Some {| file := Some {| file_path := path; file_closed := false |};
               records := recs |}) =
    (None,
     {| create_err := create_err fs;
        contents := <[path := default EmptyString (contents fs !! path) +:+ data]>
                      (contents fs) |},
     Some {| file := Some {| file_path := path; file_closed := true |};
             records := recs |}).
Proof. intros H. unfold varExporter_Close. simpl. by rewrite H. Qed.

(** A second [Close] writes nothing: the file is closed. *)
Lemma varExporter_Close_closed (w : World) (fs : FS) (path : string)
    (recs : list exportRecord) :
  (varExporter_Close w fs
      (Some {| file := Some {| file_path := path; file_closed := true |};
               records := recs |})).1.2 = fs.
Proof. unfold varExporter_Close. simpl. by destruct (encodeRecords w recs). Qed.

(** C2, where the code departs from it.  An exporter that was created and
    closed without any record has created its file and written the empty
    list to it, where the claim (and the test of the repository) has
    nothing written. *)
Theorem exporter_close_without_records (w : World) (fs : FS) (path : string) :
  create_err fs path = None →
  ∃ e fs1 fs2 e',
    newVarExporter fs path = (Ok e, fs1) ∧
    records e = [] ∧
    contents fs1 !! path = Some EmptyString ∧
    varExporter_Close w fs1 (Some e) = (None, fs2, e') ∧
    contents fs2 !! path = Some ("[]" +:+ String newline EmptyString).
Proof.
  intros Hcreate. unfold newVarExporter, os_Create. rewrite Hcreate.
  eexists _, _, _, _. split; [reflexivity |]. split; [reflexivity |].
  split; [simpl; apply lookup_insert_eq |].
  split; [by apply varExporter_Close_open |].
  simpl. rewrite lookup_insert_eq. by rewrite lookup_insert_eq.
Qed.

(** A run of one flow whose only step exports nothing, on an empty file
    system: the export file exists afterwards and holds the empty list. *)
Lemma exporter_close_without_records_witness :
  ∃ fs,
    runFlowsAction Sample.world Sample.emptyFS "exported_vars.json"
      [ {| Vars := ∅; Steps := [Sample.httpStep "get" "GET" "http://sample" []] |} ] ∅
      = (None, fs) ∧
    contents fs !! "exported_vars.json" = Some ("[]" +:+ String newline EmptyString).
Proof.
  destruct (exporter_close_without_records Sample.world Sample.emptyFS
              "exported_vars.json" eq_refl) as (e & fs1 & fs2 & e' & Hnew & Hrecs & _ & Hclose & Hcontents).
  exists fs2. split; [| exact Hcontents].
  unfold runFlowsAction, newFlowRunner. rewrite Hnew.
  simpl in Hnew. injection Hnew as <- <-.
  simpl in Hclose. injection Hclose as <- <-.
  reflexivity.
Defined.

(** ** The HTTP executor *)

(** An HTTP step whose request is built and answered, with the expected
    status when one is declared, saves from the response body and returns no
    error. *)
Lemma executeHTTPStep_answered (w : World) (step : Step.t) (s : RunState)
    (resp : Response) (respBytes : string) :
  let url := render (templates w) (Step.URL step) (st_vars s) in
  let bodyStr := render (templates w) (Step.Body step) (st_vars s) in
  http_NewRequest w (Step.Method step) url = None →
  client_Do w {| req_Method := Step.Method step; req_URL := url;
                 req_Body := if is_empty bodyStr then None else Some bodyStr;
                 req_Header := renderHeaders w (Step.Headers step) (st_vars s) |}
    = Ok resp →
  ReadAll resp = Ok respBytes →
  Step.ExpectStatus step = 0 ∨ StatusCode resp = Step.ExpectStatus step →
  executeHTTPStep w step s =
    bind (saveFromPayload w step respBytes) (λ _, recordExport step) s ∧
  (executeHTTPStep w step s).1 = Ok tt.
Proof.
  intros url bodyStr Hreq Hdo Hread Hstatus.
  assert (executeHTTPStep w step s =
          bind (saveFromPayload w step respBytes) (λ _, recordExport step) s) as Hrun.
  { unfold executeHTTPStep. unfold bind at 1, get_vars at 1. cbv beta iota zeta.
    assert (∀ s0 : Step.t, Step.Method (applyDefaults s0) = Step.Method s0) as Hm.
    { intros s0. unfold applyDefaults. by destruct (Step.TimeoutSeconds s0 =? 0). }
    assert (∀ s0 : Step.t, Step.Headers (applyDefaults s0) = Step.Headers s0) as Hh.
    { intros s0. unfold applyDefaults. by destruct (Step.TimeoutSeconds s0 =? 0). }
    assert (∀ s0 : Step.t, Step.ExpectStatus (applyDefaults s0) = Step.ExpectStatus s0) as He.
    { intros s0. unfold applyDefaults. by destruct (Step.TimeoutSeconds s0 =? 0). }
    rewrite Hm, Hh, He. fold url bodyStr.
    unfold bind at 1, check at 1. rewrite Hreq. cbn [fmap option_fmap option_map].
    unfold bind at 1, lift at 1, wrapped. rewrite Hdo.
    unfold bind at 1, lift at 1, wrapped. rewrite Hread.
    assert ((negb (Step.ExpectStatus step =? 0) &&
             negb (StatusCode resp =? Step.ExpectStatus step)) = false) as ->.
    { destruct Hstatus as [-> | ->]; [done |]. rewrite Z.eqb_refl. simpl.
      apply andb_false_r. }
    assert (∀ (payload : string) (s0 : Step.t) (st : RunState),
              bind (saveFromPayload w (applyDefaults s0) payload)
                   (λ _, recordExport (applyDefaults s0)) st =
              bind (saveFromPayload w s0 payload) (λ _, recordExport s0) st) as Htail.
    { intros payload s0 st. unfold applyDefaults.
      by destruct (Step.TimeoutSeconds s0 =? 0). }
    apply Htail. }
  split; [done |]. rewrite Hrun. apply save_and_export_ok.
Qed.

(** The first end-to-end property of the flows: a value saved by one step
    is in the variable store the next step renders its URL from. *)
Example saved_value_reaches_next_step :
  let first := Sample.httpStep "create" "POST" "http://sample/users" [("user_id", "data.id")] in
  let '(r, s) := executeStep Sample.world first Sample.start in
  r = Ok tt ∧
  render (templates Sample.world) "http://sample/users/{{.user_id}}" (st_vars s)
    = "http://sample/users/42".
Proof. split; reflexivity. Qed.

(* ===================================================================== *)
(** * Part III: further properties of the engine *)
(* ===================================================================== *)

(** ** The RPC executor *)

Lemma executeGRPCStep_invoked (w : World) (step : Step.t) (cfg : GRPCStep.t)
    (s : RunState) (formatted : list (result string)) (trailers : option Status) :
  Step.GRPC step = Some cfg →
  grpc_invoked w cfg (st_vars s) formatted trailers →
  executeGRPCStep w step s =
    let handler := grpcHandler formatted trailers in
    match h_err handler with
    | Some e => (Err (wrap_step "process grpc response for step" (Step.Name step) e), s)
    | None =>
        match checkGRPCStatus (Step.Name step) cfg (respStatusOf handler) with
        | Some e => (Err e, s)
        | None =>
            bind (saveFromPayload w step (ResponsePayload handler))
                 (λ _, recordExport step) s
        end
    end.
Proof.
  intros Hcfg (Htarget & Hmethod & format & Hformat & Hcall).
  apply is_empty_false in Htarget, Hmethod.
  unfold executeGRPCStep. rewrite Hcfg.
  unfold bind at 1, get_vars at 1. cbv beta iota zeta.
  rewrite Htarget, Hmethod, Hformat, Hcall.
  fold (grpcHandler formatted trailers). cbv zeta.
  unfold bind at 1, check at 1.
  destruct (h_err (grpcHandler formatted trailers)) as [e|]; [done |].
  cbn [fmap option_fmap option_map].
  unfold bind at 1, check at 1. fold (respStatusOf (grpcHandler formatted trailers)).
  by destruct (checkGRPCStatus _ _ _).
Qed.

Lemma checkGRPCStatus_default (name : string) (cfg : GRPCStep.t) (st : Status) :
  TrimSpace (GRPCStep.ExpectCode cfg) = EmptyString →
  checkGRPCStatus name cfg st =
    if status_Code st =? codes_OK then None
    else Some ("step " +:+ Quote name +:+ " failed: " +:+ Status_String st).
Proof. intros H. unfold checkGRPCStatus. rewrite H. simpl. by destruct (_ =? _). Qed.

Lemma checkGRPCStatus_expected (name : string) (cfg : GRPCStep.t) (st : Status) (code : Z) :
  TrimSpace (GRPCStep.ExpectCode cfg) ≠ EmptyString →
  parseGRPCCode (TrimSpace (GRPCStep.ExpectCode cfg)) = Ok code →
  checkGRPCStatus name cfg st =
    if status_Code st =? code then None
    else Some ("step " +:+ Quote name +:+ " failed: expected " +:+ code_String code +:+
               " but got " +:+ code_String (status_Code st) +:+
               " (" +:+ status_Message st +:+ ")").
Proof.
  intros Hne%is_empty_false Hp. unfold checkGRPCStatus. rewrite Hne, Hp. simpl.
  by destruct (_ =? _).
Qed.

(** X1. The status of an RPC call against [expect_code]: without an
    expectation the step fails exactly when the code is not OK; with one it
    fails exactly when the code differs from the expected one, and the error
    names both codes; an expectation that does not parse fails the step
    whatever the call returned. *)
Theorem grpc_status_evaluation (w : World) (step : Step.t) (cfg : GRPCStep.t)
    (s : RunState) (formatted : list (result string)) (trailers : option Status) :
  Step.GRPC step = Some cfg →
  grpc_invoked w cfg (st_vars s) formatted trailers →
  h_err (grpcHandler formatted trailers) = None →
  let st := respStatusOf (grpcHandler formatted trailers) in
  let expected := TrimSpace (GRPCStep.ExpectCode cfg) in
  (executeGRPCStep w step s).1 = outcome (checkGRPCStatus (Step.Name step) cfg st) ∧
  (expected = EmptyString →
     ((executeGRPCStep w step s).1 ≠ Ok tt ↔ status_Code st ≠ codes_OK)) ∧
  (∀ code, expected ≠ EmptyString → parseGRPCCode expected = Ok code →
     ((executeGRPCStep w step s).1 ≠ Ok tt ↔ status_Code st ≠ code) ∧
     (status_Code st ≠ code →
      executeGRPCStep w step s =
        (Err ("step " +:+ Quote (Step.Name step) +:+ " failed: expected " +:+
              code_String code +:+ " but got " +:+ code_String (status_Code st) +:+
              " (" +:+ status_Message st +:+ ")"), s))) ∧
  (∀ e, expected ≠ EmptyString → parseGRPCCode expected = Err e →
     executeGRPCStep w step s = (Err ("step " +:+ Quote (Step.Name step) +:+ ": " +:+ e), s)).
Proof.
  intros Hcfg Hinv Herr st expected. subst st expected.
  pose proof (executeGRPCStep_invoked _ _ _ _ _ _ Hcfg Hinv) as Hrun.
  cbv zeta in Hrun. rewrite Herr in Hrun.
  assert ((executeGRPCStep w step s).1 =
          outcome (checkGRPCStatus (Step.Name step) cfg
                     (respStatusOf (grpcHandler formatted trailers)))) as Hout.
  { rewrite Hrun. apply checked_then_saved. }
  split; [done |]. split.
  { intros Hexp. rewrite Hout, outcome_ok, (checkGRPCStatus_default _ _ _ Hexp).
    destruct (Z.eqb_spec (status_Code (respStatusOf (grpcHandler formatted trailers)))
                         codes_OK); split; congruence. }
  split.
  { intros code Hexp Hparse.
    rewrite Hout, outcome_ok, Hrun, (checkGRPCStatus_expected _ _ _ _ Hexp Hparse).
    destruct (Z.eqb_spec (status_Code (respStatusOf (grpcHandler formatted trailers))) code);
      split; try (split; congruence); done. }
  intros e Hexp%is_empty_false Hparse. rewrite Hrun.
  unfold checkGRPCStatus. rewrite Hexp. simpl. by rewrite Hparse.
Qed.

(** A step that expects NOT_FOUND succeeds against a service that answers
    NOT_FOUND and fails against one that answers OK, the error naming both
    codes. *)
Lemma grpc_status_evaluation_witness :
  (executeGRPCStep Fixtures.notFound (Fixtures.grpcStep "get" [] "NOT_FOUND")
     Sample.start).1 = Ok tt ∧
  executeGRPCStep Sample.world (Fixtures.grpcStep "get" [] "NOT_FOUND") Sample.start =
    (Err ("step " +:+ Quote "get" +:+ " failed: expected NotFound but got OK ()"),
     Sample.start).
Proof.
  split.
  - refine (eq_trans
              (proj1 (grpc_status_evaluation Fixtures.notFound
                        (Fixtures.grpcStep "get" [] "NOT_FOUND")
                        (Fixtures.grpcBlock "NOT_FOUND") Sample.start []
                        (Some {| status_Code := 5; status_Message := "no such user" |})
                        eq_refl _ eq_refl)) eq_refl).
    split; [vm_compute; congruence |]. split; [vm_compute; congruence |].
    exists FormatJSON. split; reflexivity.
  - refine (proj2 (proj1 (proj2 (proj2
              (grpc_status_evaluation Sample.world
                 (Fixtures.grpcStep "get" [] "NOT_FOUND")
                 (Fixtures.grpcBlock "NOT_FOUND") Sample.start [Ok "{}"] None
                 eq_refl _ eq_refl))) 5 _ eq_refl) _).
    + split; [vm_compute; congruence |]. split; [vm_compute; congruence |].
      exists FormatJSON. split; reflexivity.
    + vm_compute; congruence.
    + vm_compute; congruence.
Defined.

(** *** Status codes *)







(** The cases of the test of the repository, and a negative number. *)
Example parseGRPCCode_cases :
  parseGRPCCode EmptyString = Ok 0 ∧
  parseGRPCCode "canceled" = Ok 1 ∧
  parseGRPCCode " Not_Found " = Ok 5 ∧
  parseGRPCCode "5" = Ok 5 ∧
  parseGRPCCode "-1" = Ok 4294967295 ∧
  parseGRPCCode "definitely-bad" =
    Err ("unknown grpc expect_code " +:+ Quote "definitely-bad").
Proof. repeat split. Qed.

(** *** Capturing the responses *)

Lemma OnReceiveResponse_failed (h : grpcCaptureEventHandler)
    (formatted : list (result string)) (e : string) :
  h_err h = Some e → foldl OnReceiveResponse h formatted = h.
Proof.
  intros He. induction formatted as [|f rest IH]; simpl; [done |].
  unfold OnReceiveResponse at 2. by rewrite He.
Qed.

Lemma OnReceiveResponse_all (h : grpcCaptureEventHandler) (texts : list string) :
  h_err h = None →
  foldl OnReceiveResponse h (Ok <$> texts) =
    {| h_responses := h_responses h ++ (TrimSpace <$> texts);
       h_status := h_status h; h_err := None |}.
Proof.
  revert h. induction texts as [|t rest IH]; intros h He; simpl.
  - rewrite app_nil_r. destruct h; simpl in *. by subst.
  - unfold OnReceiveResponse at 2. rewrite He, IH by done. simpl.
    by rewrite <- app_assoc.
Qed.

Lemma join_comma_concat (l : list string) :
  join_comma l = String.concat "," (TrimSpace <$> l).
Proof.
  induction l as [|x [|y rest] IH]; [done | done |].
  change (join_comma (x :: y :: rest)) with (TrimSpace x +:+ "," +:+ join_comma (y :: rest)).
  by rewrite IH.
Qed.

Lemma fmap_TrimSpace_idempotent (l : list string) :
  TrimSpace <$> (TrimSpace <$> l) = TrimSpace <$> l.
Proof.
  induction l as [|x rest IH]; [done |].
  by rewrite !fmap_cons, TrimSpace_idempotent, IH.
Qed.

(** X3. What an RPC call leaves in its handler: every response message the
    formatter prints is kept, trimmed, in order; the first message the
    formatter fails on sets the error, and nothing is kept from then on.  The
    payload is empty without a response, the response itself when there is
    one, and for two or more the responses between brackets, comma
    separated. *)
Theorem grpc_response_capture (texts : list string) (trailers : option Status) :
  grpcHandler (Ok <$> texts) trailers =
    {| h_responses := TrimSpace <$> texts; h_status := trailers; h_err := None |} ∧
  (∀ e rest,
     grpcHandler ((Ok <$> texts) ++ Err e :: rest) trailers =
       {| h_responses := TrimSpace <$> texts; h_status := trailers; h_err := Some e |}) ∧
  ResponsePayload (grpcHandler (Ok <$> texts) trailers) =
    match texts with
    | [] => EmptyString
    | [t] => TrimSpace t
    | _ => "[" +:+ String.concat "," (TrimSpace <$> texts) +:+ "]"
    end.
Proof.
  assert (grpcHandler (Ok <$> texts) trailers =
          {| h_responses := TrimSpace <$> texts; h_status := trailers; h_err := None |})
    as Hall.
  { unfold grpcHandler. by rewrite OnReceiveResponse_all. }
  split; [done |]. split.
  - intros e rest. unfold grpcHandler. rewrite foldl_app, OnReceiveResponse_all by done.
    simpl. unfold OnReceiveResponse at 2. simpl.
    by rewrite (OnReceiveResponse_failed _ _ e).
  - rewrite Hall. unfold ResponsePayload. simpl.
    destruct texts as [|t [|t' rest]]; [done | done |].
    unfold joinResponses.
    by rewrite join_comma_concat, fmap_TrimSpace_idempotent.
Qed.

(** A stream of two messages. *)
Example grpc_stream_payload :
  ResponsePayload (grpcHandler [Ok " {} "; Ok ("{}" +:+ String newline EmptyString)] None)
    = "[{},{}]".
Proof. reflexivity. Qed.

(** ** Document-store operations *)










(** The spellings of one operation, and an operation that is none. *)
Example normalizeMongoOperation_spellings :
  normalizeMongoOperation " Find_One " = "findone" ∧
  normalizeMongoOperation EmptyString = "findone" ∧
  normalizeMongoOperation "UPDATE" = "updateone" ∧
  normalizeMongoOperation " Count " = "count".
Proof. repeat split. Qed.

(** X5. Every operation but [command] needs a collection: when the URI
    and the database are resolved and no collection is, the step fails with
    a configuration error naming the normalized operation, and the state is
    untouched; a [command] step in the same situation connects and runs. *)
Theorem mongo_collection_requirement (w : World) (step : Step.t) (cfg : MongoStep.t)
    (s : RunState) :
  Step.Mongo step = Some cfg →
  resolveMongoURI w cfg (st_vars s) ≠ EmptyString →
  mongoDatabaseName w cfg (st_vars s) ≠ EmptyString →
  fieldOrVar w (MongoStep.Collection cfg) "mongo_collection" (st_vars s) = EmptyString →
  (mongoOp cfg ≠ mongoOpCommand →
     executeMongoStep w step s =
       (Err ("step " +:+ Quote (Step.Name step) +:+
             " requires mongo.collection for operation " +:+ Quote (mongoOp cfg)), s)) ∧
  (mongoOp cfg = mongoOpCommand →
     ∀ client,
       mongo_Connect w (resolveMongoURI w cfg (st_vars s)) = Ok client →
       Ping client = None →
       (executeMongoStep w step s).1 =
         match mongoRun w step cfg (st_vars s) client with
         | Err e => Err e
         | Ok (affected, _) => outcome (ensureExpectedAffectedRows step affected)
         end).
Proof.
  intros Hcfg Huri Hdb Hcoll. split.
  - intros Hop. apply is_empty_false in Huri, Hdb.
    unfold executeMongoStep. rewrite Hcfg.
    unfold bind at 1, get_vars at 1. cbv beta iota zeta.
    unfold mongoDatabaseName in Hdb. rewrite Huri, Hdb. fold (mongoOp cfg).
    destruct (String.eqb_spec (mongoOp cfg) mongoOpCommand) as [|_]; [done |].
    cbn [negb andb]. by rewrite Hcoll.
  - intros Hop client Hconn Hping.
    rewrite (executeMongoStep_connected w step cfg s client Hcfg).
    + destruct (mongoRun w step cfg (st_vars s) client) as [[affected payload]|e]; [| done].
      apply checked_then_saved.
    + repeat split; done.
Qed.

(** On the sample document store: a [find] without collection is refused,
    a [command] without collection runs. *)
Lemma mongo_collection_requirement_witness :
  let block op :=
    MongoStep.mk "mongodb://sample" "app" EmptyString op EmptyString EmptyString
                 EmptyString EmptyString "{}" 0 in
  let step op :=
    Step.mk EmptyString false false "admin" 0 EmptyString EmptyString [] EmptyString 0
            [] EmptyString EmptyString 0 (Some (block op)) None in
  executeMongoStep Sample.world (step "find") Sample.start =
    (Err ("step " +:+ Quote "admin" +:+ " requires mongo.collection for operation " +:+
          Quote "find"), Sample.start) ∧
  (executeMongoStep Sample.world (step "command") Sample.start).1 = Ok tt.
Proof.
  intros block step. split.
  - refine (proj1 (mongo_collection_requirement Sample.world (step "find") (block "find")
                     Sample.start eq_refl _ _ eq_refl) _); vm_compute; congruence.
  - refine (eq_trans
              (proj2 (mongo_collection_requirement Sample.world (step "command")
                        (block "command") Sample.start eq_refl _ _ eq_refl)
                     eq_refl Sample.client eq_refl eq_refl) eq_refl);
      vm_compute; congruence.
Defined.


(** ** What a step may change *)

Section Keeps.
Context (R : RunState → RunState → Prop) `{!PreOrder R}.

Lemma keeps_ret {A} (a : A) : keeps R (ret a).
Proof using Type*. intros s. reflexivity. Qed.

Lemma keeps_fail {A} (msg : string) : keeps R (@fail A msg).
Proof using Type*. intros s. reflexivity. Qed.

Lemma keeps_lift {A} (r : result A) : keeps R (lift r).
Proof using Type*. intros s. reflexivity. Qed.

Lemma keeps_check (e : error) : keeps R (check e).
Proof using Type*. intros s. unfold check. destruct e; reflexivity. Qed.

Lemma keeps_get_vars : keeps R get_vars.
Proof using Type*. intros s. reflexivity. Qed.

Lemma keeps_bind {A B} (m : M A) (k : A → M B) :
  keeps R m → (∀ a, keeps R (k a)) → keeps R (bind m k).
Proof using Type*.
  intros Hm Hk s. unfold bind. specialize (Hm s).
  destruct (m s) as [[a|e] s1]; simpl in *; [| done].
  etrans; [exact Hm | apply Hk].
Qed.

End Keeps.

Ltac keeps_steps :=
  repeat match goal with
         | |- keeps ?R (ret _) => apply (keeps_ret R)
         | |- keeps ?R (fail _) => apply (keeps_fail R)
         | |- keeps ?R (lift _) => apply (keeps_lift R)
         | |- keeps ?R (check _) => apply (keeps_check R)
         | |- keeps ?R get_vars => apply (keeps_get_vars R)
         | |- keeps ?R (bind _ _) => apply (keeps_bind R); [| intros ?]
         | |- keeps _ (if ?b then _ else _) => destruct b
         | |- keeps _ (match ?x with _ => _ end) => destruct x
         end.

#[local] Instance same_exporter_preorder : PreOrder same_exporter.
Proof.
  split; [done |]. intros s1 s2 s3. unfold same_exporter. congruence.
Qed.

#[local] Instance same_vars_outside_preorder (keys : list string) :
  PreOrder (same_vars_outside keys).
Proof.
  split; [done |]. intros s1 s2 s3 H1 H2 k Hk. by rewrite H2, H1.
Qed.

#[local] Instance same_vars_preorder : PreOrder same_vars.
Proof.
  split; [done |]. intros s1 s2 s3. unfold same_vars. congruence.
Qed.

Lemma Save_applyDefaults (step : Step.t) :
  Step.Save (applyDefaults step) = Step.Save step ∧
  Step.Name (applyDefaults step) = Step.Name step ∧
  Step.Export (applyDefaults step) = Step.Export step.
Proof. unfold applyDefaults. by destruct (Step.TimeoutSeconds step =? 0). Qed.

(** *** The exporter *)

Lemma update_vars_same_exporter (f : gmap string string → gmap string string) :
  keeps same_exporter (update_vars f).
Proof. by intros s. Qed.

Lemma update_vars_err_same_exporter {A}
    (f : gmap string string → result A * gmap string string) :
  keeps same_exporter (update_vars_err f).
Proof. intros s. unfold update_vars_err. by destruct (f (st_vars s)). Qed.

Lemma saveFromPayload_same_exporter (w : World) (step : Step.t) (payload : string) :
  keeps same_exporter (saveFromPayload w step payload).
Proof.
  unfold saveFromPayload. keeps_steps. apply update_vars_same_exporter.
Qed.

Lemma waitBeforeStep_same_exporter (w : World) (step : Step.t) :
  keeps same_exporter (waitBeforeStep w step).
Proof. intros s. by rewrite waitBeforeStep_state. Qed.

(** A SQL step leaves the exporter alone. *)
Lemma executeSQLStep_same_exporter (w : World) (step : Step.t) (sqlStmt : string) :
  keeps same_exporter (executeSQLStep w step sqlStmt).
Proof.
  unfold executeSQLStep. keeps_steps. apply update_vars_err_same_exporter.
Qed.

Lemma exports_once_kept (step : Step.t) (m : M unit) :
  keeps same_exporter m → exports_once step m.
Proof. intros H s. left. apply H. Qed.

Lemma exports_once_bind {A} (step : Step.t) (m : M A) (k : A → M unit) :
  keeps same_exporter m → (∀ a, exports_once step (k a)) →
  exports_once step (bind m k).
Proof.
  intros Hm Hk s. unfold bind. specialize (Hm s). unfold same_exporter in Hm.
  destruct (m s) as [[a|e] s1]; simpl in *; [| by left].
  destruct (Hk a s1) as [Hsame|(Hexp & Hok & e & He & Hrec)].
  - left. congruence.
  - right. split; [done |]. split; [done |]. exists e. split; [congruence | done].
Qed.

Lemma recordExport_exports_once (step : Step.t) : exports_once step (recordExport step).
Proof.
  intros s. unfold recordExport.
  destruct (st_exporter s) as [e|] eqn:He; [| by left].
  destruct (Step.Export step) eqn:Hexp; [| by left].
  right. split; [done |]. split; [done |]. exists e. by split.
Qed.

Lemma exports_once_defaults (step : Step.t) (m : M unit) :
  exports_once (applyDefaults step) m → exports_once step m.
Proof.
  intros H s. destruct (Save_applyDefaults step) as (Hsave & Hname & Hexp).
  destruct (H s) as [Hsame|Hrec]; [by left | right].
  by rewrite Hsave, Hname, Hexp in Hrec.
Qed.

Ltac exports_steps :=
  repeat match goal with
         | |- exports_once _ (bind (saveFromPayload _ _ _) _) =>
             apply exports_once_bind;
             [apply saveFromPayload_same_exporter | intros ?; apply recordExport_exports_once]
         | |- exports_once _ (bind _ _) =>
             apply exports_once_bind; [keeps_steps | intros ?]
         | |- exports_once _ (fail _) => apply exports_once_kept; keeps_steps
         | |- exports_once _ (ret _) => apply exports_once_kept; keeps_steps
         | |- exports_once _ (if ?b then _ else _) => destruct b
         | |- exports_once _ (match ?x with _ => _ end) => destruct x
         end.

Lemma executeMongoStep_exports_once (w : World) (step : Step.t) :
  exports_once step (executeMongoStep w step).
Proof. unfold executeMongoStep. exports_steps. Qed.

Lemma executeGRPCStep_exports_once (w : World) (step : Step.t) :
  exports_once step (executeGRPCStep w step).
Proof. unfold executeGRPCStep. exports_steps. Qed.

Lemma executeHTTPStep_exports_once (w : World) (step : Step.t) :
  exports_once step (executeHTTPStep w step).
Proof.
  apply exports_once_defaults. unfold executeHTTPStep. cbv zeta. exports_steps.
Qed.

Lemma executeStep_exports_once (w : World) (step : Step.t) :
  exports_once step (executeStep w step).
Proof.
  unfold executeStep.
  destruct (Step.Skip step); [apply exports_once_kept; keeps_steps |].
  apply exports_once_bind; [apply waitBeforeStep_same_exporter | intros _].
  apply exports_once_bind; [keeps_steps | intros vars].
  destruct (negb (is_empty _)).
  { apply exports_once_kept, executeSQLStep_same_exporter. }
  destruct (Step.Mongo step).
  { apply exports_once_defaults, executeMongoStep_exports_once. }
  destruct (Step.GRPC step).
  { apply exports_once_defaults, executeGRPCStep_exports_once. }
  destruct (is_empty (Step.Method step) || is_empty (Step.URL step)).
  { apply exports_once_kept. keeps_steps. }
  apply executeHTTPStep_exports_once.
Qed.

(** X7. A step records at most one export: after [executeStep] the
    exporter is as it was, unless the step has [export] set and succeeded, in
    which case exactly one record was added after the earlier ones, under
    the name of the step, with the values its save keys have once the step
    is over.  A step that fails, or does not export, records nothing. *)
Theorem step_exports_once (w : World) (step : Step.t) (s : RunState) :
  (st_exporter (executeStep w step s).2 = st_exporter s ∨
   (Step.Export step = true ∧ (executeStep w step s).1 = Ok tt ∧
    ∃ e, st_exporter s = Some e ∧
         st_exporter (executeStep w step s).2 =
           Some {| file := file e;
                   records := records e ++
                     [ {| rec_Step := Step.Name step;
                          rec_Vars := exportMap (Step.Save step)
                                        (st_vars (executeStep w step s).2) ∅ |} ] |})) ∧
  (Step.Export step = false → st_exporter (executeStep w step s).2 = st_exporter s) ∧
  ((executeStep w step s).1 ≠ Ok tt →
   st_exporter (executeStep w step s).2 = st_exporter s).
Proof.
  pose proof (executeStep_exports_once w step s) as H.
  split; [exact H |]. split.
  - intros Hexp. destruct H as [H|(Hexp' & _)]; [done | congruence].
  - intros Hfail. destruct H as [H|(_ & Hok & _)]; [done | congruence].
Qed.

(** X8. A SQL step never records an export, also when it has [export] set
    and succeeds. *)
Theorem sql_step_never_exports (w : World) (step : Step.t) (s : RunState) :
  renderedSQL w step (st_vars s) ≠ EmptyString →
  st_exporter (executeStep w step s).2 = st_exporter s.
Proof.
  intros Hsql%is_empty_false. unfold executeStep.
  destruct (Step.Skip step); [done |].
  unfold bind at 1. pose proof (waitBeforeStep_state w step s) as Hwait.
  destruct (waitBeforeStep w step s) as [[[]|e] s1]; simpl in Hwait; subst s1; [| done].
  unfold bind at 1, get_vars at 1. cbv beta iota zeta.
  fold (renderedSQL w step (st_vars s)). rewrite Hsql. simpl.
  apply executeSQLStep_same_exporter.
Qed.

(** On the sample database: the exporting lookup succeeds, saves the
    identifier, and the exporter has no record. *)
Lemma sql_step_never_exports_witness :
  (executeStep Sample.world Fixtures.exportingSQLStep Fixtures.exporting).1 = Ok tt ∧
  st_vars (executeStep Sample.world Fixtures.exportingSQLStep Fixtures.exporting).2
    !! "user_id" = Some "7" ∧
  st_exporter (executeStep Sample.world Fixtures.exportingSQLStep Fixtures.exporting).2
    = Some {| file := None; records := [] |}.
Proof.
  split; [reflexivity |]. split; [reflexivity |].
  refine (sql_step_never_exports Sample.world Fixtures.exportingSQLStep
            Fixtures.exporting _).
  vm_compute. congruence.
Defined.

(** *** The record of an export *)

Lemma exportMap_lookup (save : StringMap) (vars m : gmap string string) (k : string) :
  exportMap save vars m !! k =
    if decide (k ∈ save.*1) then Some (var_or_empty vars k) else m !! k.
Proof.
  revert m. induction save as [|[k0 p0] rest IH]; intros m.
  { cbn [exportMap]. rewrite fmap_nil, decide_False; [done | apply not_elem_of_nil]. }
  cbn [exportMap]. rewrite IH, fmap_cons. cbn [fst].
  destruct (decide (k ∈ rest.*1)) as [Hin|Hout].
  - rewrite decide_True; [done | by right].
  - destruct (decide (k = k0)) as [->|Hne].
    + rewrite lookup_insert_eq, decide_True; [done | by left].
    + rewrite lookup_insert_ne, decide_False; [done | | done].
      by intros [|]%elem_of_cons.
Qed.

(** X9. The record of an exporting step holds exactly the keys of its save
    map, whatever their paths resolved to: a key has the value of its
    variable, and the empty string when the variable is not set. *)
Theorem export_record_content (step : Step.t) (s : RunState) (e : varExporter) :
  st_exporter s = Some e →
  Step.Export step = true →
  ∃ rec,
    st_exporter (recordExport step s).2 =
      Some {| file := file e; records := records e ++ [rec] |} ∧
    st_vars (recordExport step s).2 = st_vars s ∧
    rec_Step rec = Step.Name step ∧
    (∀ k path, (k, path) ∈ Step.Save step →
       rec_Vars rec !! k = Some (default EmptyString (st_vars s !! k))) ∧
    (∀ k, k ∉ (Step.Save step).*1 → rec_Vars rec !! k = None).
Proof.
  intros He Hexp. unfold recordExport. rewrite He, Hexp.
  eexists. split; [reflexivity |]. split; [done |]. split; [done |]. split.
  - intros k path Hin. simpl. rewrite exportMap_lookup.
    destruct (decide (k ∈ (Step.Save step).*1)) as [|Hn]; [done |].
    exfalso. apply Hn. apply list_elem_of_fmap. by exists (k, path).
  - intros k Hk. simpl. rewrite exportMap_lookup.
    by destruct (decide (k ∈ (Step.Save step).*1)).
Qed.

(** After the exporting HTTP step of the fixtures, whose response has no
    [data.none]: the record has the identifier and an empty [missing]. *)
Lemma export_record_content_witness :
  let s := (executeStep Sample.world Fixtures.exportingHTTPStep Fixtures.exporting).2 in
  st_vars s !! "missing" = None ∧
  ∃ rec, records <$> st_exporter s = Some [rec] ∧
         rec_Vars rec !! "user_id" = Some "42" ∧
         rec_Vars rec !! "missing" = Some EmptyString.
Proof.
  intros s. split; [reflexivity |].
  destruct (export_record_content Fixtures.exportingHTTPStep
              {| st_vars := <["user_id" := "42"]> ∅;
                 st_exporter := Some {| file := None; records := [] |} |}
              {| file := None; records := [] |} eq_refl eq_refl)
    as (rec & Hrec & _ & _ & Hin & _).
  exists rec. split.
  - transitivity (records <$>
      st_exporter (recordExport Fixtures.exportingHTTPStep
                     {| st_vars := <["user_id" := "42"]> ∅;
                        st_exporter := Some {| file := None; records := [] |} |}).2).
    + reflexivity.
    + by rewrite Hrec.
  - split.
    + exact (Hin "user_id" "data.id" ltac:(apply (bool_decide_unpack _); vm_compute; exact I)).
    + exact (Hin "missing" "data.none" ltac:(apply (bool_decide_unpack _); vm_compute; exact I)).
Defined.

(** *** The variable store *)

Lemma update_vars_frame (keys : list string)
    (f : gmap string string → gmap string string) :
  (∀ vars k, k ∉ keys → f vars !! k = vars !! k) →
  keeps (same_vars_outside keys) (update_vars f).
Proof. intros Hf s k Hk. by apply Hf. Qed.

Lemma update_vars_err_frame {A} (keys : list string)
    (f : gmap string string → result A * gmap string string) :
  (∀ vars k, k ∉ keys → (f vars).2 !! k = vars !! k) →
  keeps (same_vars_outside keys) (update_vars_err f).
Proof.
  intros Hf s k Hk. unfold update_vars_err. specialize (Hf (st_vars s) k Hk).
  by destruct (f (st_vars s)).
Qed.

Lemma recordExport_frame (keys : list string) (step : Step.t) :
  keeps (same_vars_outside keys) (recordExport step).
Proof.
  intros s k Hk. unfold recordExport.
  destruct (st_exporter s); [| done]. by destruct (Step.Export step).
Qed.

Lemma saveFromPayload_frame (w : World) (step : Step.t) (payload : string) :
  keeps (same_vars_outside (Step.Save step).*1) (saveFromPayload w step payload).
Proof.
  unfold saveFromPayload.
  destruct (Step.Save step) as [|entry rest] eqn:Hsave; [keeps_steps |].
  destruct (negb (is_empty payload) && json_Valid w payload); [| keeps_steps].
  apply update_vars_frame. intros vars k Hk. by apply saveValues_range_frame.
Qed.

Lemma scanRows_frame (step : Step.t) (ncols : nat) (idx : gmap string nat)
    (rows : list (list sqlval)) (saved : bool) (n : Z) (vars : gmap string string)
    (k : string) :
  k ∉ (Step.Save step).*1 →
  (scanRows step ncols idx rows saved n vars).2 !! k = vars !! k.
Proof.
  intros Hk. revert saved n vars.
  induction rows as [|row rest IH]; intros saved n vars; simpl; [done |].
  destruct (Scan ncols row) as [values|e]; [| done].
  destruct saved; [apply IH |].
  pose proof (saveRowValues_range_frame (Step.Name step) (Step.Save step) values idx
                vars k Hk) as Hframe.
  unfold saveRowValues.
  destruct (saveRowValues_range _ _ _ _ _) as [[e|] vars']; simpl in *; [done |].
  by rewrite IH.
Qed.

Lemma executeSQLAndMaybeSave_frame (db : DB) (step : Step.t) (sqlStmt : string)
    (vars : gmap string string) (k : string) :
  k ∉ (Step.Save step).*1 →
  (executeSQLAndMaybeSave db step sqlStmt vars).2 !! k = vars !! k.
Proof.
  intros Hk. unfold executeSQLAndMaybeSave.
  destruct (Step.Save step) as [|entry rest] eqn:Hsave; [done |].
  unfold runSQLAndSave.
  destruct (QueryContext db sqlStmt) as [rows|e]; [| done].
  destruct (Columns rows) as [columns|e]; [| done].
  pose proof (scanRows_frame step (length columns) (buildColumnIndex 0 columns ∅)
                (fetched rows) false 0 vars k) as Hframe.
  rewrite Hsave in Hframe. specialize (Hframe Hk).
  destruct (scanRows _ _ _ _ _ _ _) as [[n|e] vars']; simpl in *; [| done].
  destruct (rows_Err rows); [done |]. by destruct (n =? 0).
Qed.

Ltac frame_steps :=
  repeat match goal with
         | |- keeps _ (saveFromPayload _ _ _) => apply saveFromPayload_frame
         | |- keeps _ (recordExport _) => apply recordExport_frame
         | |- keeps ?R (ret _) => apply (keeps_ret R)
         | |- keeps ?R (fail _) => apply (keeps_fail R)
         | |- keeps ?R (lift _) => apply (keeps_lift R)
         | |- keeps ?R (check _) => apply (keeps_check R)
         | |- keeps ?R get_vars => apply (keeps_get_vars R)
         | |- keeps ?R (bind _ _) => apply (keeps_bind R); [| intros ?]
         | |- keeps _ (if ?b then _ else _) => destruct b
         | |- keeps _ (match ?x with _ => _ end) => destruct x
         end.

Lemma executeSQLStep_frame (w : World) (step : Step.t) (sqlStmt : string) :
  keeps (same_vars_outside (Step.Save step).*1) (executeSQLStep w step sqlStmt).
Proof.
  unfold executeSQLStep. frame_steps.
  apply update_vars_err_frame. intros vars k Hk. by apply executeSQLAndMaybeSave_frame.
Qed.

Lemma executeMongoStep_frame (w : World) (step : Step.t) :
  keeps (same_vars_outside (Step.Save step).*1) (executeMongoStep w step).
Proof. unfold executeMongoStep. frame_steps. Qed.

Lemma executeGRPCStep_frame (w : World) (step : Step.t) :
  keeps (same_vars_outside (Step.Save step).*1) (executeGRPCStep w step).
Proof. unfold executeGRPCStep. frame_steps. Qed.

Lemma executeHTTPStep_frame (w : World) (step : Step.t) :
  keeps (same_vars_outside (Step.Save step).*1) (executeHTTPStep w step).
Proof.
  destruct (Save_applyDefaults step) as (Hsave & _). rewrite <- Hsave.
  unfold executeHTTPStep. cbv zeta. frame_steps.
Qed.

Lemma waitBeforeStep_frame (keys : list string) (w : World) (step : Step.t) :
  keeps (same_vars_outside keys) (waitBeforeStep w step).
Proof. intros s. by rewrite waitBeforeStep_state. Qed.

Lemma executeStep_frame (w : World) (step : Step.t) :
  keeps (same_vars_outside (Step.Save step).*1) (executeStep w step).
Proof.
  destruct (Save_applyDefaults step) as (Hsave & _).
  unfold executeStep.
  destruct (Step.Skip step); [frame_steps |].
  apply (keeps_bind _); [apply waitBeforeStep_frame | intros _].
  apply (keeps_bind _); [frame_steps | intros vars].
  destruct (negb (is_empty _)).
  { rewrite <- Hsave. apply executeSQLStep_frame. }
  destruct (Step.Mongo step).
  { rewrite <- Hsave. apply executeMongoStep_frame. }
  destruct (Step.GRPC step).
  { rewrite <- Hsave. apply executeGRPCStep_frame. }
  destruct (is_empty (Step.Method step) || is_empty (Step.URL step)); [frame_steps |].
  apply executeHTTPStep_frame.
Qed.

Lemma runSteps_frame (w : World) (steps : list Step.t) (s : RunState) (k : string) :
  Forall (λ step, k ∉ (Step.Save step).*1) steps →
  st_vars (runSteps w steps s).2 !! k = st_vars s !! k.
Proof.
  intros Hsteps. revert s. induction Hsteps as [|step rest Hk _ IH]; intros s; [done |].
  cbn [runSteps]. unfold bind.
  pose proof (executeStep_frame w step s k Hk) as Hstep.
  destruct (executeStep w step s) as [[[]|e] s1]; simpl in *; [| done].
  by rewrite IH.
Qed.

(** X10. A flow changes no variable but those its steps name in their save
    maps: a variable that is a save key of none of the steps has, after the
    steps ran or the first of them failed, the value it had before. *)
Theorem flow_changes_only_saved_variables (w : World) (steps : list Step.t)
    (s : RunState) (k : string) :
  Forall (λ step, k ∉ (Step.Save step).*1) steps →
  st_vars (runSteps w steps s).2 !! k = st_vars s !! k.
Proof. apply runSteps_frame. Qed.

(** Two steps on the sample services save the identifier; the base URL of
    the flow is still what it was. *)
Lemma flow_changes_only_saved_variables_witness :
  st_vars (runSteps Sample.world
             [Fixtures.exportingHTTPStep; Fixtures.exportingSQLStep]
             {| st_vars := <["base" := "http://sample"]> ∅; st_exporter := None |}).2
    !! "base" = Some "http://sample".
Proof.
  refine (eq_trans
            (flow_changes_only_saved_variables Sample.world
               [Fixtures.exportingHTTPStep; Fixtures.exportingSQLStep]
               {| st_vars := <["base" := "http://sample"]> ∅; st_exporter := None |}
               "base" _) eq_refl).
  repeat constructor; apply (bool_decide_unpack _); vm_compute; exact I.
Defined.

(** ** Flows *)




Lemma initialVars_lookup (flow : Flow) (overrides : gmap string string) (k : string) :
  initialVars flow overrides !! k =
    match overrides !! k with
    | Some v => Some v
    | None => Vars flow !! k
    end.
Proof.
  unfold initialVars. rewrite lookup_union.
  destruct (overrides !! k), (Vars flow !! k); done.
Qed.

(** X12. An override wins over the variable of the same name the flow
    declares, and it is the value every step of the flow finds, as long as
    no step before it saves under that name; a variable the flow declares
    and nothing overrides is found in the same way. *)
Theorem override_precedence (w : World) (flow : Flow) (overrides : gmap string string)
    (exporter : option varExporter) (before : list Step.t) (k : string) :
  Forall (λ step, k ∉ (Step.Save step).*1) before →
  let s := {| st_vars := initialVars flow overrides; st_exporter := exporter |} in
  (∀ v, overrides !! k = Some v → st_vars (runSteps w before s).2 !! k = Some v) ∧
  (overrides !! k = None → st_vars (runSteps w before s).2 !! k = Vars flow !! k).
Proof.
  intros Hsteps s. subst s.
  split.
  - intros v Hv. rewrite runSteps_frame by done. cbn [st_vars].
    by rewrite initialVars_lookup, Hv.
  - intros Hv. rewrite runSteps_frame by done. cbn [st_vars].
    by rewrite initialVars_lookup, Hv.
Qed.

(** The test of the repository for overrides: the flow declares a base URL
    and a payload, both are overridden, and after a step that saves an
    identifier the overrides are what the store has. *)
Lemma override_precedence_witness :
  let flow := {| Vars := <["base_url" := "http://example.invalid"]> ∅;
                 Steps := [Fixtures.exportingHTTPStep] |} in
  let overrides := <["base_url" := "http://override.test"]> ∅ in
  st_vars (runSteps Sample.world (Steps flow)
             {| st_vars := initialVars flow overrides; st_exporter := None |}).2
    !! "base_url" = Some "http://override.test".
Proof.
  intros flow overrides.
  refine (proj1 (override_precedence Sample.world flow overrides None (Steps flow)
                   "base_url" _) "http://override.test" eq_refl).
  repeat constructor; apply (bool_decide_unpack _); vm_compute; exact I.
Defined.

(** ** Connection strings *)

(** X13. The connection string of a SQL step is the first that is not
    blank of the rendered step field, the variable [database_url] and the
    environment variable [DATABASE_URL]; when all three are blank the step
    fails with a configuration error and nothing is opened or changed; when
    one is found and the database does not open, the error of the step wraps
    that of the driver. *)
Theorem sql_connection_resolution (w : World) (step : Step.t) (s : RunState)
    (sqlStmt : string) :
  let field := TrimSpace (render (templates w) (Step.DatabaseURL step) (st_vars s)) in
  let var := TrimSpace (var_or_empty (st_vars s) "database_url") in
  let env := TrimSpace (Getenv w "DATABASE_URL") in
  let dbURL := resolveDatabaseURL w step (st_vars s) in
  (field ≠ EmptyString → dbURL = field) ∧
  (field = EmptyString → var ≠ EmptyString → dbURL = var) ∧
  (field = EmptyString → var = EmptyString → dbURL = env) ∧
  (field = EmptyString → var = EmptyString → env = EmptyString →
     executeSQLStep w step sqlStmt s =
       (Err ("step " +:+ Quote (Step.Name step) +:+
             " requires database_url (var, step override, or DATABASE_URL env)"), s)) ∧
  (∀ e, dbURL ≠ EmptyString → sql_Open w dbURL = Err e →
     executeSQLStep w step sqlStmt s =
       (Err ("open database for step " +:+ Quote (Step.Name step) +:+ ": " +:+ e), s)).
Proof.
  intros field var env dbURL. subst field var env dbURL.
  split.
  { intros H%is_empty_false. unfold resolveDatabaseURL. cbv zeta.
    rewrite H. cbn [is_empty]. by rewrite H. }
  split.
  { intros Hf H%is_empty_false. unfold resolveDatabaseURL. cbv zeta.
    rewrite Hf. cbn [is_empty]. by rewrite H. }
  split.
  { intros Hf Hv. unfold resolveDatabaseURL. cbv zeta.
    rewrite Hf. cbn [is_empty]. by rewrite Hv. }
  split.
  { intros H1 H2 H3.
    assert (resolveDatabaseURL w step (st_vars s) = EmptyString) as Hres.
    { unfold resolveDatabaseURL. cbv zeta. rewrite H1. cbn [is_empty].
      rewrite H2. cbn [is_empty]. done. }
    unfold executeSQLStep, bind, get_vars. by rewrite Hres. }
  intros e Hne%is_empty_false Hopen.
  unfold executeSQLStep, bind, get_vars, lift, wrapped.
  by rewrite Hne, Hopen.
Qed.

(** ** The HTTP executor, continued *)

Lemma applyDefaults_fields (step : Step.t) :
  Step.Method (applyDefaults step) = Step.Method step ∧
  Step.Headers (applyDefaults step) = Step.Headers step ∧
  Step.ExpectStatus (applyDefaults step) = Step.ExpectStatus step.
Proof. unfold applyDefaults. by destruct (Step.TimeoutSeconds step =? 0). Qed.

Lemma save_and_export_defaults (w : World) (step : Step.t) (payload : string)
    (s : RunState) :
  bind (saveFromPayload w (applyDefaults step) payload)
       (λ _, recordExport (applyDefaults step)) s =
  bind (saveFromPayload w step payload) (λ _, recordExport step) s.
Proof. unfold applyDefaults. by destruct (Step.TimeoutSeconds step =? 0). Qed.

(** An HTTP step whose request is built and answered. *)
Lemma executeHTTPStep_response (w : World) (step : Step.t) (s : RunState)
    (resp : Response) (respBytes : string) :
  let url := render (templates w) (Step.URL step) (st_vars s) in
  let bodyStr := render (templates w) (Step.Body step) (st_vars s) in
  http_NewRequest w (Step.Method step) url = None →
  client_Do w {| req_Method := Step.Method step; req_URL := url;
                 req_Body := if is_empty bodyStr then None else Some bodyStr;
                 req_Header := renderHeaders w (Step.Headers step) (st_vars s) |}
    = Ok resp →
  ReadAll resp = Ok respBytes →
  executeHTTPStep w step s =
    if negb (Step.ExpectStatus step =? 0) &&
       negb (StatusCode resp =? Step.ExpectStatus step)
    then (Err ("step " +:+ Quote (Step.Name step) +:+ " failed: unexpected status " +:+
               fmt_d (StatusCode resp)), s)
    else bind (saveFromPayload w step respBytes) (λ _, recordExport step) s.
Proof.
  intros url bodyStr Hreq Hdo Hread.
  destruct (applyDefaults_fields step) as (Hm & Hh & He).
  unfold executeHTTPStep. unfold bind at 1, get_vars at 1. cbv beta iota zeta.
  rewrite Hm, Hh, He. fold url bodyStr.
  unfold bind at 1, check at 1. rewrite Hreq. cbn [fmap option_fmap option_map].
  unfold bind at 1, lift at 1, wrapped. rewrite Hdo.
  unfold bind at 1, lift at 1, wrapped. rewrite Hread.
  destruct (negb (Step.ExpectStatus step =? 0) &&
            negb (StatusCode resp =? Step.ExpectStatus step)); [done |].
  apply save_and_export_defaults.
Qed.

(** X14. The status of an HTTP response against [expect_status]: with a
    non-zero expectation the step fails exactly when the status differs, the
    error carries the status received, and nothing is saved or exported;
    with a zero expectation every status passes. *)
Theorem http_status_expectation (w : World) (step : Step.t) (s : RunState)
    (resp : Response) (respBytes : string) :
  http_NewRequest w (Step.Method step)
                  (render (templates w) (Step.URL step) (st_vars s)) = None →
  client_Do w
    {| req_Method := Step.Method step;
       req_URL := render (templates w) (Step.URL step) (st_vars s);
       req_Body := if is_empty (render (templates w) (Step.Body step) (st_vars s))
                   then None
                   else Some (render (templates w) (Step.Body step) (st_vars s));
       req_Header := renderHeaders w (Step.Headers step) (st_vars s) |} = Ok resp →
  ReadAll resp = Ok respBytes →
  (Step.ExpectStatus step ≠ 0 →
     ((executeHTTPStep w step s).1 ≠ Ok tt ↔ StatusCode resp ≠ Step.ExpectStatus step)) ∧
  (Step.ExpectStatus step ≠ 0 → StatusCode resp ≠ Step.ExpectStatus step →
     executeHTTPStep w step s =
       (Err ("step " +:+ Quote (Step.Name step) +:+ " failed: unexpected status " +:+
             fmt_d (StatusCode resp)), s)) ∧
  (Step.ExpectStatus step = 0 → (executeHTTPStep w step s).1 = Ok tt).
Proof.
  intros Hreq Hdo Hread.
  rewrite (executeHTTPStep_response w step s resp respBytes Hreq Hdo Hread).
  split.
  { intros Hexp.
    destruct (Z.eqb_spec (Step.ExpectStatus step) 0) as [|_]; [done |].
    destruct (Z.eqb_spec (StatusCode resp) (Step.ExpectStatus step)) as [Heq|Hne]; simpl.
    - rewrite save_and_export_ok. split; congruence.
    - split; congruence. }
  split.
  { intros Hexp Hne.
    destruct (Z.eqb_spec (Step.ExpectStatus step) 0) as [|_]; [done |].
    by destruct (Z.eqb_spec (StatusCode resp) (Step.ExpectStatus step)). }
  intros ->. simpl. apply save_and_export_ok.
Qed.

(** The sample service answers 200: a step that expects 201 fails. *)
Lemma http_status_expectation_witness :
  let step :=
    Step.mk EmptyString false false "create" 0 "POST" "http://sample/users" [] EmptyString
            201 [("user_id", "data.id")] EmptyString EmptyString 0 None None in
  executeHTTPStep Sample.world step Sample.start =
    (Err ("step " +:+ Quote "create" +:+ " failed: unexpected status 200"), Sample.start).
Proof.
  intros step.
  refine (proj1 (proj2 (http_status_expectation Sample.world step Sample.start
                          {| StatusCode := 200; ReadAll := Ok "{}" |} "{}"
                          eq_refl eq_refl eq_refl)) _ _); vm_compute; congruence.
Defined.

(** X15. A response body that is empty or is not valid JSON is not an
    error for a step that declares [save]: the step succeeds, the variable
    store is left as it was, and the export of the step (if any) is recorded
    with the values the variables had. *)
Theorem http_body_without_json (w : World) (step : Step.t) (s : RunState)
    (resp : Response) (respBytes : string) :
  http_NewRequest w (Step.Method step)
                  (render (templates w) (Step.URL step) (st_vars s)) = None →
  client_Do w
    {| req_Method := Step.Method step;
       req_URL := render (templates w) (Step.URL step) (st_vars s);
       req_Body := if is_empty (render (templates w) (Step.Body step) (st_vars s))
                   then None
                   else Some (render (templates w) (Step.Body step) (st_vars s));
       req_Header := renderHeaders w (Step.Headers step) (st_vars s) |} = Ok resp →
  ReadAll resp = Ok respBytes →
  Step.ExpectStatus step = 0 ∨ StatusCode resp = Step.ExpectStatus step →
  respBytes = EmptyString ∨ json_Valid w respBytes = false →
  executeHTTPStep w step s = recordExport step s ∧
  (executeHTTPStep w step s).1 = Ok tt ∧
  st_vars (executeHTTPStep w step s).2 = st_vars s.
Proof.
  intros Hreq Hdo Hread Hstatus Hbody.
  assert (executeHTTPStep w step s = recordExport step s) as Hrun.
  { rewrite (executeHTTPStep_response w step s resp respBytes Hreq Hdo Hread).
    assert ((negb (Step.ExpectStatus step =? 0) &&
             negb (StatusCode resp =? Step.ExpectStatus step)) = false) as ->.
    { destruct Hstatus as [-> | ->]; [done |]. rewrite Z.eqb_refl. apply andb_false_r. }
    unfold bind, saveFromPayload. destruct (Step.Save step); [done |].
    destruct Hbody as [-> | ->]; [done |]. by rewrite andb_false_r. }
  split; [done |]. rewrite Hrun. split; [apply recordExport_ok |].
  unfold recordExport. destruct (st_exporter s); [| done].
  by destruct (Step.Export step).
Qed.

(** A service that answers with a page of HTML: the exporting step
    succeeds and saves nothing. *)
Lemma http_body_without_json_witness :
  (executeHTTPStep Fixtures.notJSON Fixtures.exportingHTTPStep Fixtures.exporting).1
    = Ok tt ∧
  st_vars (executeHTTPStep Fixtures.notJSON Fixtures.exportingHTTPStep
             Fixtures.exporting).2 = ∅.
Proof.
  exact (proj2 (http_body_without_json Fixtures.notJSON Fixtures.exportingHTTPStep
                  Fixtures.exporting {| StatusCode := 200; ReadAll := Ok "<html>" |}
                  "<html>" eq_refl eq_refl eq_refl (or_introl eq_refl)
                  (or_intror eq_refl))).
Defined.

(** ** The export file, continued *)

(** X16. [Close] on an exporter whose file is open appends the encoding of
    its records to the file, touches no other file and returns no error; a
    second [Close] finds the file closed: it returns an error and writes
    nothing. *)
Theorem exporter_close_once (w : World) (fs : FS) (path : string)
    (recs : list exportRecord) (data : string) :
  encodeRecords w recs = Ok data →
  let e := {| file := Some {| file_path := path; file_closed := false |};
              records := recs |} in
  ∃ fs1 e1,
    varExporter_Close w fs (Some e) = (None, fs1, e1) ∧
    contents fs1 !! path = Some (default EmptyString (contents fs !! path) +:+ data) ∧
    (∀ p, p ≠ path → contents fs1 !! p = contents fs !! p) ∧
    varExporter_Close w fs1 e1 =
      (Some ("write exported vars: write " +:+ path +:+ ": file already closed"),
       fs1, e1).
Proof.
  intros Henc e. subst e. eexists _, _.
  split; [by apply varExporter_Close_open |].
  split; [simpl; apply lookup_insert_eq |].
  split; [intros p Hp; simpl; by rewrite lookup_insert_ne |].
  unfold varExporter_Close. simpl. by rewrite Henc.
Qed.

(** An exporter with one record, in the sample world. *)
Lemma exporter_close_once_witness :
  let e := {| file := Some {| file_path := "vars.json"; file_closed := false |};
              records := [ {| rec_Step := "create"; rec_Vars := ∅ |} ] |} in
  ∃ fs1 e1,
    varExporter_Close Sample.world Sample.emptyFS (Some e) = (None, fs1, e1) ∧
    contents fs1 !! "vars.json" = Some "[{}]" ∧
    (varExporter_Close Sample.world fs1 e1).1.2 = fs1.
Proof.
  intros e.
  destruct (exporter_close_once Sample.world Sample.emptyFS "vars.json"
              [ {| rec_Step := "create"; rec_Vars := ∅ |} ] "[{}]" eq_refl)
    as (fs1 & e1 & Hclose & Hfile & _ & Hagain).
  exists fs1, e1. split; [exact Hclose |]. split; [exact Hfile |]. by rewrite Hagain.
Defined.

(** ** Descriptor sources, continued *)

(** X17. The descriptor source of an RPC step: reflection is used unless
    [use_reflection] is set to false; with reflection and descriptor files
    the source is the composite of both, whose list of services is the one
    of reflection alone; without reflection the files are the source, and
    no call goes to the server; without either the step has no source. *)
Theorem descriptor_source_choice (cfg : GRPCStep.t) (ra fa : SourceAnswers) :
  let reflection := sourceOf Reflection ra in
  let file := sourceOf Static fa in
  (is_ok (buildDescriptorSource cfg reflection None) = false ↔
     GRPCStep.UseReflection cfg = Some false) ∧
  (GRPCStep.UseReflection cfg ≠ Some false →
     buildDescriptorSource cfg reflection None = Ok reflection ∧
     buildDescriptorSource cfg reflection (Some file) =
       Ok (compositeDescriptorSource reflection file)) ∧
  ListServices (compositeDescriptorSource reflection file) =
    (ans_Services ra, [ListServicesOf Reflection]) ∧
  (GRPCStep.UseReflection cfg = Some false →
     ∃ source,
       buildDescriptorSource cfg reflection (Some file) = Ok source ∧
       (∀ name, FindSymbol source name = (ans_Symbol fa name, [FindSymbolIn Static name])) ∧
       (∀ typeName, AllExtensionsForType source typeName =
                      (ans_Extensions fa typeName, [AllExtensionsIn Static typeName])) ∧
       ListServices source = (ans_Services fa, [ListServicesOf Static])).
Proof.
  intros reflection file. unfold buildDescriptorSource, boolValue.
  split.
  { destruct (GRPCStep.UseReflection cfg) as [[|]|]; simpl; split; congruence. }
  split.
  { intros H. destruct (GRPCStep.UseReflection cfg) as [[|]|]; simpl; done. }
  split; [done |].
  intros ->. simpl. eexists. split; [reflexivity |]. done.
Qed.

(** ** Display *)

Lemma length_append (s t : string) :
  String.length (s +:+ t) = (String.length s + String.length t)%nat.
Proof.
  induction s as [|a s IH]; [done |]. rewrite append_cons. simpl. by rewrite IH.
Qed.

Lemma length_take_bytes (n : nat) (s : string) :
  String.length (take_bytes n s) = (n `min` String.length s)%nat.
Proof.
  revert s. induction n as [|n IH]; intros [|a s]; simpl; [done | done | done |].
  by rewrite IH.
Qed.

Lemma take_bytes_append (n : nat) (s t : string) :
  (n ≤ String.length s)%nat → take_bytes n (s +:+ t) = take_bytes n s.
Proof.
  revert s. induction n as [|n IH]; intros [|a s] Hn.
  - by destruct t.
  - done.
  - simpl in Hn. lia.
  - rewrite append_cons. simpl in *. rewrite IH; [done | lia].
Qed.

Lemma take_bytes_idempotent (n : nat) (s : string) :
  take_bytes n (take_bytes n s) = take_bytes n s.
Proof.
  revert s. induction n as [|n IH]; intros [|a s]; simpl; [done | done | done |].
  by rewrite IH.
Qed.

(** X18. [trimLongString] keeps a string of at most 120 bytes, and cuts a
    longer one to its first 120 bytes followed by three dots: the result is
    never longer than 123 bytes, its first 120 bytes are those of the string,
    and trimming twice is trimming once. *)
Theorem trimLongString_contract (s : string) :
  ((String.length s ≤ 120)%nat → trimLongString s = s) ∧
  ((120 < String.length s)%nat →
     trimLongString s = take_bytes 120 s +:+ "..." ∧
     String.length (trimLongString s) = 123%nat) ∧
  (String.length (trimLongString s) ≤ 123)%nat ∧
  take_bytes 120 (trimLongString s) = take_bytes 120 s ∧
  trimLongString (trimLongString s) = trimLongString s.
Proof.
  unfold trimLongString, maxDisplayedStringLen.
  destruct (Nat.leb_spec (String.length s) 120) as [Hle|Hgt].
  - split; [done |]. split; [lia |]. split; [lia |]. split; [done |].
    by rewrite (proj2 (Nat.leb_le _ _) Hle).
  - assert (String.length (take_bytes 120 s +:+ "...") = 123%nat) as Hlen.
    { rewrite length_append, length_take_bytes.
      change (String.length "...") with 3%nat. lia. }
    split; [lia |]. split; [done |]. split; [lia |].
    assert (take_bytes 120 (take_bytes 120 s +:+ "...") = take_bytes 120 s) as Htake.
    { rewrite take_bytes_append.
      - apply take_bytes_idempotent.
      - rewrite length_take_bytes. lia. }
    split; [done |]. rewrite Hlen.
    change (123 <=? 120)%nat with false. cbv iota. by rewrite Htake.
Qed.

(** ** Overrides of the command line *)







(** The pairs of the test of the repository, and a value with an equal
    sign in it. *)
Example parseVarOverrides_cases :
  parseVarOverrides ["foo=bar"; " spaced = value "; "foo=a=b"] =
    Ok (<["foo" := "a=b"]> (<["spaced" := " value "]> ∅)) ∧
  parseVarOverrides ["invalid"] =
    Err ("invalid var override " +:+ Quote "invalid" +:+ ", expected key=value").
Proof. split; reflexivity. Qed.

(** ** Descriptor files of a gRPC step *)

Lemma renderStringSlice_elem (w : World) (values : list string)
    (vars : gmap string string) (x : string) :
  x ∈ renderStringSlice w values vars ↔
  x ≠ EmptyString ∧ ∃ v, v ∈ values ∧ x = TrimSpace (render (templates w) v vars).
Proof.
  induction values as [|value rest IH]; cbn [renderStringSlice].
  { split; [by intros ?%elem_of_nil | intros (_ & v & ?%elem_of_nil & _); done]. }
  cbv zeta.
  destruct (is_empty (TrimSpace (render (templates w) value vars))) eqn:Hempty.
  - rewrite IH. split.
    + intros (Hx & v & Hv & ->). split; [done |]. exists v. split; [by right | done].
    + intros (Hx & v & Hv & ->). split; [done |].
      apply elem_of_cons in Hv as [->|Hv]; [| by exists v].
      by destruct (TrimSpace (render (templates w) value vars)).
  - rewrite elem_of_cons, IH. split.
    + intros [->|(Hx & v & Hv & ->)].
      * split; [by apply is_empty_false |]. exists value. split; [by left | done].
      * split; [done |]. exists v. split; [by right | done].
    + intros (Hx & v & Hv & ->). apply elem_of_cons in Hv as [->|Hv]; [by left |].
      right. split; [done |]. by exists v.
Qed.

Lemma renderStringSlice_filter (w : World) (values : list string)
    (vars : gmap string string) :
  renderStringSlice w values vars =
    filter (λ x, x ≠ EmptyString)
      ((λ v, TrimSpace (render (templates w) v vars)) <$> values).
Proof.
  induction values as [|value rest IH]; [done |].
  cbn [renderStringSlice]. cbv zeta. rewrite fmap_cons, filter_cons, <- IH.
  destruct (TrimSpace (render (templates w) value vars)) eqn:Hvalue; cbn [is_empty].
  - by rewrite decide_False by (by intros H).
  - by rewrite decide_True.
Qed.

Lemma renderStringSlice_clean (w : World) (values : list string)
    (vars : gmap string string) :
  Forall clean_entry (renderStringSlice w values vars).
Proof.
  apply Forall_forall. intros x (Hx & v & _ & ->)%renderStringSlice_elem.
  split; [done | apply TrimSpace_idempotent].
Qed.

Lemma renderStringSlice_nil (w : World) (values : list string)
    (vars : gmap string string) :
  renderStringSlice w values vars = [] ↔ Forall (rendersBlank w vars) values.
Proof.
  unfold rendersBlank. induction values as [|value rest IH]; cbn [renderStringSlice].
  { split; [by constructor | done]. }
  cbv zeta. rewrite Forall_cons.
  destruct (TrimSpace (render (templates w) value vars)) eqn:Hvalue; cbn [is_empty].
  - rewrite IH. split; [by intros H | by intros [_ H]].
  - split; [done | by intros [? _]].
Qed.

(** X20. The descriptor files of a gRPC step are judged after rendering:
    [renderStringSlice] keeps, in order, the rendered and trimmed entries
    that are not blank, so the lists handed to the loaders hold only clean
    entries.  A step whose descriptor sets and proto files all render blank
    has no file source, and no loader is asked; descriptor sets and proto
    files that both have an entry left are refused; otherwise the one kind
    that has entries is loaded, and the answer of its loader is the answer. *)
Theorem file_descriptor_inputs (w : World) (L : DescriptorLoaders)
    (cfg : GRPCStep.t) (vars : gmap string string) :
  let protoSets := renderStringSlice w (GRPCStep.ProtoSets cfg) vars in
  let protoFiles := renderStringSlice w (GRPCStep.ProtoFiles cfg) vars in
  let protoPaths := renderStringSlice w (GRPCStep.ProtoPaths cfg) vars in
  let blank := rendersBlank w vars in
  let loaded (answer : result DescriptorSource) :=
    match answer with Ok source => Ok (Some source) | Err e => Err e end in
  (∀ values,
     renderStringSlice w values vars =
       filter (λ x, x ≠ EmptyString)
         ((λ v, TrimSpace (render (templates w) v vars)) <$> values)) ∧
  (∀ values x,
     x ∈ renderStringSlice w values vars ↔
     x ≠ EmptyString ∧ ∃ v, v ∈ values ∧ x = TrimSpace (render (templates w) v vars)) ∧
  Forall clean_entry protoSets ∧ Forall clean_entry protoFiles ∧
  Forall clean_entry protoPaths ∧
  (Forall blank (GRPCStep.ProtoSets cfg) → Forall blank (GRPCStep.ProtoFiles cfg) →
   loadFileDescriptorSource w L cfg vars = Ok None) ∧
  (¬ Forall blank (GRPCStep.ProtoSets cfg) → ¬ Forall blank (GRPCStep.ProtoFiles cfg) →
   loadFileDescriptorSource w L cfg vars =
     Err "grpc step cannot set both proto_sets and proto_files") ∧
  (¬ Forall blank (GRPCStep.ProtoSets cfg) → Forall blank (GRPCStep.ProtoFiles cfg) →
   loadFileDescriptorSource w L cfg vars =
     loaded (DescriptorSourceFromProtoSets L protoSets)) ∧
  (Forall blank (GRPCStep.ProtoSets cfg) → ¬ Forall blank (GRPCStep.ProtoFiles cfg) →
   loadFileDescriptorSource w L cfg vars =
     loaded (DescriptorSourceFromProtoFiles L protoPaths protoFiles)).
Proof.
  intros protoSets protoFiles protoPaths blank loaded.
  split; [intros values; apply renderStringSlice_filter |].
  split; [intros values x; apply renderStringSlice_elem |].
  split; [apply renderStringSlice_clean |].
  split; [apply renderStringSlice_clean |].
  split; [apply renderStringSlice_clean |].
  unfold loadFileDescriptorSource. fold protoSets protoFiles protoPaths.
  unfold blank. rewrite <- !renderStringSlice_nil. fold protoSets protoFiles.
  destruct protoSets, protoFiles; repeat split; intros; done.
Qed.

(** A list of proto files with a blank entry, and one whose only entry is
    a template of a variable that is not set. *)
Example renderStringSlice_cases :
  renderStringSlice Sample.world [" api.proto "; "   "; "{{.dir}}/b.proto"]
    (<["dir" := "protos"]> ∅) = ["api.proto"; "protos/b.proto"] ∧
  renderStringSlice Sample.world ["{{.unset}}"] ∅ = [].
Proof. split; reflexivity. Qed.

(** ** Headers of a gRPC call *)

Lemma string_le_cases (a b : string) :
  string_le a b ↔ OrderedTypeEx.String_as_OT.lt a b ∨ a = b.
Proof.
  unfold string_le, String.leb.
  rewrite <- OrderedTypeEx.String_as_OT.cmp_lt, <- OrderedTypeEx.String_as_OT.cmp_eq.
  change OrderedTypeEx.String_as_OT.cmp with String.compare.
  destruct (String.compare a b); split; intros H; auto; try discriminate H;
    destruct H as [H|H]; discriminate H.
Qed.

#[local] Instance string_le_total : Total string_le.
Proof. intros a b. apply String.leb_total. Qed.

#[local] Instance string_le_antisym : AntiSymm eq string_le.
Proof. intros a b. apply String.leb_antisym. Qed.

#[local] Instance string_le_trans : Transitive string_le.
Proof.
  intros a b c. rewrite !string_le_cases. intros [Hab| ->] [Hbc| ->]; auto.
  left. by apply (OrderedTypeEx.String_as_OT.lt_trans a b c).
Qed.

Lemma sort_Strings_sorted (l : list string) : Sorted string_le (sort_Strings l).
Proof. apply (Sorted_merge_sort string_le). Qed.

Lemma sort_Strings_Permutation (l : list string) : sort_Strings l ≡ₚ l.
Proof. apply merge_sort_Permutation. Qed.

Lemma sort_Strings_unique (l1 l2 : list string) :
  l1 ≡ₚ l2 → sort_Strings l1 = sort_Strings l2.
Proof.
  intros Hperm. apply (Sorted_unique string_le); [apply sort_Strings_sorted .. |].
  by rewrite !sort_Strings_Permutation.
Qed.

Lemma headerKeys_Permutation (values values' : StringMap) :
  values ≡ₚ values' → headerKeys values ≡ₚ headerKeys values'.
Proof.
  induction 1 as [|[k v] l l' _ IH|[k1 v1] [k2 v2] l|l1 l2 l3 _ IH1 _ IH2];
    cbn [headerKeys]; cbv zeta.
  - done.
  - destruct (is_empty (TrimSpace k)); [done | by constructor].
  - destruct (is_empty (TrimSpace k1)), (is_empty (TrimSpace k2)); try done.
    apply perm_swap.
  - by etrans.
Qed.

Lemma headerKeys_elem (values : StringMap) (k : string) :
  k ∈ headerKeys values ↔
  k ≠ EmptyString ∧ ∃ key, key ∈ values.*1 ∧ k = TrimSpace key.
Proof.
  induction values as [|[key v] rest IH]; cbn [headerKeys].
  { split; [by intros ?%elem_of_nil | intros (_ & ? & ?%elem_of_nil & _); done]. }
  cbv zeta. rewrite fmap_cons. cbn [fst].
  destruct (is_empty (TrimSpace key)) eqn:Hempty.
  - rewrite IH. split.
    + intros (Hk & key' & Hin & ->). split; [done |]. exists key'. split; [by right | done].
    + intros (Hk & key' & Hin & ->). split; [done |].
      apply elem_of_cons in Hin as [->|Hin]; [| by exists key'].
      by apply is_empty_true in Hempty.
  - rewrite elem_of_cons, IH. split.
    + intros [->|(Hk & key' & Hin & ->)].
      * split; [by apply is_empty_false |]. exists key. split; [by left | done].
      * split; [done |]. exists key'. split; [by right | done].
    + intros (Hk & key' & Hin & ->). apply elem_of_cons in Hin as [->|Hin]; [by left |].
      right. split; [done |]. by exists key'.
Qed.

Lemma map_index_elem (values : StringMap) (k v : string) :
  NoDup values.*1 → (k, v) ∈ values → map_index values k = v.
Proof.
  induction values as [|[k' v'] rest IH]; intros Hnd Hin.
  { by apply elem_of_nil in Hin. }
  rewrite fmap_cons in Hnd. apply NoDup_cons in Hnd as [Hk' Hnd]. cbn [map_index].
  apply elem_of_cons in Hin as [[= -> ->]|Hin]; [by rewrite String.eqb_refl |].
  destruct (String.eqb_spec k' k) as [->|Hne]; [| by apply IH].
  exfalso. apply Hk'. apply list_elem_of_fmap. by exists (k, v).
Qed.

Lemma map_index_absent (values : StringMap) (k : string) :
  k ∉ values.*1 → map_index values k = EmptyString.
Proof.
  induction values as [|[k' v'] rest IH]; intros Hout; [done |].
  rewrite fmap_cons in Hout. apply not_elem_of_cons in Hout as [Hne Hout].
  cbn [map_index]. destruct (String.eqb_spec k' k) as [->|_]; [done | by apply IH].
Qed.

Lemma map_index_Permutation (values values' : StringMap) (key : string) :
  NoDup values.*1 → values ≡ₚ values' → map_index values key = map_index values' key.
Proof.
  intros Hnd Hperm.
  assert (NoDup values'.*1) as Hnd' by (by rewrite <- Hperm).
  destruct (decide (key ∈ values.*1)) as [Hin|Hout].
  - apply list_elem_of_fmap in Hin as ([k v] & -> & Hin). cbn [fst].
    rewrite (map_index_elem values k v Hnd Hin).
    symmetry. apply map_index_elem; [done | by rewrite <- Hperm].
  - rewrite !map_index_absent; [done | by rewrite <- Hperm | done].
Qed.

Lemma buildGRPCHeaders_keys (w : World) (values : StringMap) (vars : gmap string string) :
  buildGRPCHeaders w values vars =
    (λ key, header_line key (render (templates w) (map_index values key) vars))
      <$> sort_Strings (headerKeys values).
Proof. by destruct values. Qed.

(** X21. [buildGRPCHeaders] gives one header for each key of the map that
    is not blank, under the trimmed key, in the byte order of the trimmed
    keys: the headers do not depend on the order in which the map is
    ranged over.  A key without white space around it carries its rendered
    value; a key with white space around it, whose trimmed form is not a key
    of the map, carries the rendering of the empty template, since the value
    is looked up under the trimmed key. *)
Theorem grpc_headers_contract (w : World) (values : StringMap)
    (vars : gmap string string) :
  NoDup values.*1 →
  let headers := buildGRPCHeaders w values vars in
  let keys := sort_Strings (headerKeys values) in
  headers =
    (λ key, header_line key (render (templates w) (map_index values key) vars)) <$> keys ∧
  Sorted string_le keys ∧
  (∀ k, k ∈ keys ↔ k ≠ EmptyString ∧ ∃ key, key ∈ values.*1 ∧ k = TrimSpace key) ∧
  length headers = length (headerKeys values) ∧
  (∀ values', values' ≡ₚ values → buildGRPCHeaders w values' vars = headers) ∧
  (∀ key value,
     (key, value) ∈ values → clean_entry key →
     header_line key (render (templates w) value vars) ∈ headers) ∧
  (∀ key,
     key ∈ values.*1 → TrimSpace key ≠ EmptyString → TrimSpace key ∉ values.*1 →
     header_line (TrimSpace key) (render (templates w) EmptyString vars) ∈ headers).
Proof.
  intros Hnd headers keys. unfold headers, keys. clear headers keys.
  assert (∀ k, k ∈ sort_Strings (headerKeys values) ↔ k ∈ headerKeys values) as Hkeys.
  { intros k. by rewrite sort_Strings_Permutation. }
  split; [apply buildGRPCHeaders_keys |].
  split; [apply sort_Strings_sorted |].
  split; [intros k; rewrite Hkeys; apply headerKeys_elem |].
  split.
  { by rewrite buildGRPCHeaders_keys, length_fmap, sort_Strings_Permutation. }
  split.
  { intros values' Hperm. rewrite !buildGRPCHeaders_keys.
    rewrite (sort_Strings_unique _ _ (headerKeys_Permutation _ _ Hperm)).
    apply list_fmap_ext. intros _ key _.
    by rewrite (map_index_Permutation values values' key Hnd). }
  split.
  - intros key value Hin [Hne Htrim]. rewrite buildGRPCHeaders_keys.
    apply list_elem_of_fmap. exists key.
    rewrite (map_index_elem values key value Hnd Hin). split; [done |].
    apply Hkeys, headerKeys_elem. split; [done |]. exists key. split; [| done].
    apply list_elem_of_fmap. by exists (key, value).
  - intros key Hin Hne Hout. rewrite buildGRPCHeaders_keys.
    apply list_elem_of_fmap. exists (TrimSpace key).
    rewrite (map_index_absent values _ Hout). split; [done |].
    apply Hkeys, headerKeys_elem. split; [done |]. by exists key.
Qed.

(** Two headers, ranged over in either order. *)
Lemma grpc_headers_contract_witness :
  buildGRPCHeaders Sample.world
    [("authorization", "Bearer {{.token}}"); ("x-trace", "{{.id}}")]
    (<["token" := "t0"]> (<["id" := "7"]> ∅)) =
  buildGRPCHeaders Sample.world
    [("x-trace", "{{.id}}"); ("authorization", "Bearer {{.token}}")]
    (<["token" := "t0"]> (<["id" := "7"]> ∅)).
Proof.
  refine (proj1 (proj2 (proj2 (proj2 (proj2
            (grpc_headers_contract Sample.world
               [("x-trace", "{{.id}}"); ("authorization", "Bearer {{.token}}")]
               (<["token" := "t0"]> (<["id" := "7"]> ∅)) _))))) _ _).
  - apply (bool_decide_unpack _). vm_compute. exact I.
  - apply perm_swap.
Defined.

(** The two headers as they are sent, and a key written with white space around
    it: the header is there, and its value is lost. *)
Example buildGRPCHeaders_cases :
  buildGRPCHeaders Sample.world
    [("x-trace", "{{.id}}"); ("authorization", "Bearer {{.token}}")]
    (<["token" := "t0"]> (<["id" := "7"]> ∅)) =
    ["authorization: Bearer t0"; "x-trace: 7"] ∧
  buildGRPCHeaders Sample.world [(" x-trace ", "7"); ("  ", "dropped")] ∅ = ["x-trace: "].
Proof. split; reflexivity. Qed.

(** ** The run log inside its HTML page *)

Lemma HasPrefix_nil (s : string) : HasPrefix s EmptyString = true.
Proof. by destruct s. Qed.

(** Without an occurrence there is nothing to replace. *)
Lemma ReplaceAll_absent (s old new : string) :
  Contains s old = false → ReplaceAll s old new = s.
Proof.
  unfold ReplaceAll. induction s as [|a s IH]; intros H; [done |].
  cbn [Contains] in H. apply orb_false_elim in H as [Hpre Hrest].
  cbn [ReplaceAll_from]. rewrite Hpre. f_equal. by apply IH.
Qed.

(** What follows an opening angle bracket in the output followed it in the
    input, as long as it has no opening angle bracket itself. *)
Lemma HasPrefix_replaced (u s : string) :
  contains_byte "<" u = false →
  HasPrefix (ReplaceAll_from 0 s script_end script_end_escaped) u = true →
  HasPrefix s u = true.
Proof.
  revert s. induction u as [|p u IH]; intros s Hu H; [apply HasPrefix_nil |].
  cbn [contains_byte] in Hu. apply orb_false_elim in Hu as [Hp Hu].
  destruct s as [|a s]; [done |].
  cbn [ReplaceAll_from] in H.
  destruct (HasPrefix (String a s) script_end).
  - unfold script_end_escaped in H. rewrite append_cons in H. cbn [HasPrefix] in H.
    apply andb_prop in H as [Heq%Ascii.eqb_eq _]. subst p. done.
  - cbn [HasPrefix] in H |- *. apply andb_prop in H as [-> H].
    by rewrite (IH s Hu H).
Qed.

Lemma Contains_replacement (t : string) :
  Contains t script_end = false →
  Contains (script_end_escaped +:+ t) script_end = false.
Proof.
  intros H. unfold script_end_escaped. rewrite !append_cons, append_nil_l.
  cbn [Contains]. rewrite H. by destruct t.
Qed.

Lemma ReplaceAll_from_clean (s : string) (skip : nat) :
  Contains (ReplaceAll_from skip s script_end script_end_escaped) script_end = false.
Proof.
  revert skip. induction s as [|a s IH]; intros skip; [by destruct skip |].
  destruct skip as [|skip]; cbn [ReplaceAll_from]; [| apply IH].
  destruct (HasPrefix (String a s) script_end) eqn:Hpre.
  { apply Contains_replacement, IH. }
  cbn [Contains]. rewrite IH, orb_false_r.
  destruct (HasPrefix (String a (ReplaceAll_from 0 s script_end script_end_escaped))
              script_end) eqn:H; [| done].
  exfalso. unfold script_end at 2 in H. unfold script_end in Hpre.
  cbn [HasPrefix] in H, Hpre. apply andb_prop in H as [Ha H].
  apply HasPrefix_replaced in H; [| reflexivity].
  rewrite Ha in Hpre. cbn [andb] in Hpre. unfold script_end in H.
  cbn [HasPrefix] in H. congruence.
Qed.

(** X22. The run log that [sanitizeJSONForHTML] returns never contains
    the closing script tag, whatever the data: every occurrence is replaced
    by the escaped tag and the replacement creates no new one.  Data whose
    trimmed text has no closing script tag is returned trimmed and otherwise
    as it is. *)
Theorem sanitizeJSONForHTML_contract (data : string) :
  Contains (sanitizeJSONForHTML data) script_end = false ∧
  (Contains (TrimSpace data) script_end = false →
   sanitizeJSONForHTML data = TrimSpace data).
Proof. split; [apply ReplaceAll_from_clean | apply ReplaceAll_absent]. Qed.

(** A log entry that holds the closing tag twice, once after an opening
    angle bracket; the tag in capitals is not the byte sequence that is
    replaced. *)
Example sanitizeJSONForHTML_cases :
  sanitizeJSONForHTML " [<</script></script>] " = "[<<\/script><\/script>]" ∧
  sanitizeJSONForHTML "</SCRIPT>" = "</SCRIPT>".
Proof. split; reflexivity. Qed.

(** ** Transport credentials of a gRPC step *)

(** X23. [transportCredentialsForStep]: a step without [use_tls] gets
    insecure credentials, whatever else it sets, and no other step does.  A
    TLS configuration always has TLS 1.2 as its minimum version, skips
    verification exactly when the step says so, carries the rendered server
    name, has a root pool exactly when a CA path is rendered (the file was
    read and held a certificate), and has a client certificate exactly when
    both the certificate and the key path are rendered (the pair that was
    loaded from them).  With one of the two paths and not the other the step
    gets no credentials. *)
Theorem transport_credentials_contract (w : World) (F : CertificateFiles)
    (cfg : GRPCStep.t) (vars : gmap string string) :
  let answer := transportCredentialsForStep w F cfg vars in
  let caPath := TrimSpace (render (templates w) (GRPCStep.CACert cfg) vars) in
  let certPath := TrimSpace (render (templates w) (GRPCStep.ClientCert cfg) vars) in
  let keyPath := TrimSpace (render (templates w) (GRPCStep.ClientKey cfg) vars) in
  (answer = Ok insecure_NewCredentials ↔ GRPCStep.UseTLS cfg = false) ∧
  (∀ c, answer = Ok (credentials_NewTLS c) →
     GRPCStep.UseTLS cfg = true ∧
     MinVersion c = VersionTLS12 ∧
     InsecureSkipVerify c = GRPCStep.SkipTLSVerify cfg ∧
     tls_ServerName c = TrimSpace (render (templates w) (GRPCStep.ServerName cfg) vars) ∧
     (RootCAs c = None ↔ caPath = EmptyString) ∧
     (∀ pem, RootCAs c = Some pem →
        os_ReadFile F caPath = Ok pem ∧ AppendCertsFromPEM F pem = true) ∧
     (Certificates c = [] ↔ certPath = EmptyString ∧ keyPath = EmptyString) ∧
     (∀ cert, cert ∈ Certificates c →
        Certificates c = [cert] ∧ LoadX509KeyPair F certPath keyPath = Ok cert)) ∧
  (GRPCStep.UseTLS cfg = true →
   (certPath = EmptyString ∧ keyPath ≠ EmptyString) ∨
   (certPath ≠ EmptyString ∧ keyPath = EmptyString) →
   ¬ is_ok answer ∧
   (caPath = EmptyString →
    answer = Err "grpc client_cert and client_key must both be provided")).
Proof.
  intros answer caPath certPath keyPath. unfold answer, transportCredentialsForStep.
  cbv zeta. fold caPath certPath keyPath.
  destruct (GRPCStep.UseTLS cfg); cbn [negb].
  2:{ split; [done |]. split; [done |]. done. }
  split; [split; intros H; [| done] |].
  { destruct (is_empty caPath); cbn [rbind] in H.
    - destruct (negb (is_empty certPath) || negb (is_empty keyPath));
        [destruct (is_empty certPath || is_empty keyPath);
           [| destruct (LoadX509KeyPair F certPath keyPath)] |];
        cbn [rbind] in H; done.
    - destruct (os_ReadFile F caPath) as [pem|e]; [| done].
      destruct (AppendCertsFromPEM F pem); cbn [rbind] in H; [| done].
      destruct (negb (is_empty certPath) || negb (is_empty keyPath));
        [destruct (is_empty certPath || is_empty keyPath);
           [| destruct (LoadX509KeyPair F certPath keyPath)] |];
        cbn [rbind] in H; done. }
  split.
  - intros c H. split; [done |].
    assert (∃ roots certs,
      (if is_empty caPath then Ok None
       else match os_ReadFile F caPath with
            | Err e => Err ("read grpc ca_cert " +:+ Quote caPath +:+ ": " +:+ e)
            | Ok caBytes =>
                if AppendCertsFromPEM F caBytes then Ok (Some caBytes)
                else Err ("grpc ca_cert " +:+ Quote caPath +:+
                          " contains no valid certificates")
            end) = Ok roots ∧
      (if negb (is_empty certPath) || negb (is_empty keyPath) then
         if is_empty certPath || is_empty keyPath then
           Err "grpc client_cert and client_key must both be provided"
         else match LoadX509KeyPair F certPath keyPath with
              | Err e => Err ("load grpc client certificate: " +:+ e)
              | Ok cert => Ok [cert]
              end
       else Ok []) = Ok certs ∧
      c = {| MinVersion := VersionTLS12;
             InsecureSkipVerify := GRPCStep.SkipTLSVerify cfg;
             tls_ServerName :=
               TrimSpace (render (templates w) (GRPCStep.ServerName cfg) vars);
             RootCAs := roots; Certificates := certs |})
      as (roots & certs & Hroots & Hcerts & ->).
    { match type of H with rbind ?a _ = _ => destruct a as [roots|e] end;
        cbn [rbind] in H; [| done].
      match type of H with rbind ?a _ = _ => destruct a as [certs|e] end;
        cbn [rbind] in H; [| done].
      injection H as <-. by exists roots, certs. }
    cbn [MinVersion InsecureSkipVerify tls_ServerName RootCAs Certificates].
    split; [done |]. split; [done |]. split; [done |].
    split; [| split; [| split]].
    + destruct (is_empty caPath) eqn:Hca.
      * apply is_empty_true in Hca. injection Hroots as <-. done.
      * apply is_empty_false in Hca.
        destruct (os_ReadFile F caPath) as [pem|e]; [| done].
        destruct (AppendCertsFromPEM F pem); [| done].
        injection Hroots as <-. done.
    + intros pem ->. destruct (is_empty caPath); [done |].
      destruct (os_ReadFile F caPath) as [pem'|e]; [| done].
      destruct (AppendCertsFromPEM F pem') eqn:Hpem; [| done].
      by injection Hroots as ->.
    + destruct (is_empty certPath) eqn:Hc, (is_empty keyPath) eqn:Hk;
        cbn [negb orb] in Hcerts; try done.
      * apply is_empty_true in Hc, Hk. injection Hcerts as <-. done.
      * apply is_empty_false in Hc, Hk.
        destruct (LoadX509KeyPair F certPath keyPath) as [cert|e]; [| done].
        injection Hcerts as <-. split; [done | by intros [? _]].
    + intros cert Hin.
      destruct (is_empty certPath) eqn:Hc, (is_empty keyPath) eqn:Hk;
        cbn [negb orb] in Hcerts; try done.
      * injection Hcerts as <-. by apply elem_of_nil in Hin.
      * destruct (LoadX509KeyPair F certPath keyPath) as [cert'|e]; [| done].
        injection Hcerts as <-. apply list_elem_of_singleton in Hin as ->. done.
  - intros _ Hone.
    assert ((if negb (is_empty certPath) || negb (is_empty keyPath) then
               if is_empty certPath || is_empty keyPath then
                 Err "grpc client_cert and client_key must both be provided"
               else match LoadX509KeyPair F certPath keyPath with
                    | Err e => Err ("load grpc client certificate: " +:+ e)
                    | Ok cert => Ok [cert]
                    end
             else Ok []) = Err "grpc client_cert and client_key must both be provided")
      as ->.
    { destruct Hone as [[-> Hk%is_empty_false]|[Hc%is_empty_false ->]].
      - cbn [is_empty negb orb]. by rewrite Hk.
      - rewrite Hc. cbn [is_empty negb orb]. done. }
    split.
    + destruct (is_empty caPath);
        [| destruct (os_ReadFile F caPath) as [pem|e];
           [destruct (AppendCertsFromPEM F pem) |]];
        cbn [rbind is_ok Is_true]; tauto.
    + intros ->. cbn [is_empty rbind]. done.
Qed.

(** ** The flows of a directory *)

Lemma take_bytes_all (s : string) : take_bytes (String.length s) s = s.
Proof. induction s as [|a s IH]; [done |]. simpl. by rewrite IH. Qed.

Lemma drop_bytes_append (s t : string) : drop_bytes (String.length s) (s +:+ t) = t.
Proof.
  induction s as [|a s IH]; [by destruct t |]. rewrite append_cons. simpl. apply IH.
Qed.

Lemma TrimSuffix_append (stem suffix : string) : TrimSuffix (stem +:+ suffix) suffix = stem.
Proof.
  unfold TrimSuffix, HasSuffix. rewrite length_append.
  replace (String.length stem + String.length suffix - String.length suffix)%nat
    with (String.length stem) by lia.
  rewrite drop_bytes_append, String.eqb_refl, andb_true_r.
  rewrite (proj2 (Nat.leb_le _ _)) by lia.
  rewrite take_bytes_append by done. apply take_bytes_all.
Qed.

(** The extension is the end of the path. *)
Lemma Ext_suffix (path : string) : ∃ stem, path = stem +:+ Ext path.
Proof.
  induction path as [|a rest [stem IH]]; [by exists EmptyString |].
  cbn [Ext].
  destruct (contains_byte "/" rest).
  { exists (String a stem). rewrite append_cons. by f_equal. }
  destruct (is_empty (Ext rest)); cbn [negb].
  2:{ exists (String a stem). rewrite append_cons. by f_equal. }
  destruct (Ascii.eqb a "."); [by exists EmptyString |].
  exists (String a rest). by rewrite append_empty_r.
Qed.

Lemma TrimSuffix_Ext (path : string) : TrimSuffix path (Ext path) +:+ Ext path = path.
Proof.
  destruct (Ext_suffix path) as [stem Hstem].
  rewrite Hstem at 1. by rewrite TrimSuffix_append.
Qed.

Lemma TrimSuffix_Ext_shorter (path : string) :
  Ext path ≠ EmptyString → TrimSuffix path (Ext path) ≠ path.
Proof.
  intros Hext Heq. pose proof (TrimSuffix_Ext path) as Hsplit.
  rewrite Heq in Hsplit. apply (f_equal String.length) in Hsplit.
  rewrite length_append in Hsplit. destruct (Ext path); [done |]. simpl in Hsplit. lia.
Qed.

Lemma Ext_without_dot (path : string) :
  contains_byte "." path = false → Ext path = EmptyString.
Proof.
  induction path as [|a rest IH]; [done |]. cbn [contains_byte Ext].
  intros [Ha Hrest]%orb_false_elim. rewrite (IH Hrest), Ha. cbn [is_empty negb].
  by destruct (contains_byte "/" rest).
Qed.

Lemma Ext_of_extension (stem ext : string) :
  contains_byte "." ext = false → contains_byte "/" ext = false →
  Ext (stem +:+ String "." ext) = String "." ext.
Proof.
  intros Hdot Hslash. induction stem as [|a stem IH].
  - rewrite append_nil_l. cbn [Ext]. by rewrite Hslash, (Ext_without_dot ext Hdot).
  - rewrite append_cons. cbn [Ext]. rewrite IH. cbn [is_empty negb].
    by destruct (contains_byte "/" (stem +:+ String "." ext)).
Qed.

Lemma is_flow_ext_cases (ext : string) :
  is_flow_ext ext = true ↔ ext = ".yaml" ∨ ext = ".yml".
Proof.
  unfold is_flow_ext. rewrite orb_true_iff, !String.eqb_eq. done.
Qed.

Lemma listFlows_range_elem (D : Disk) (dir : string) (entries : list DirEntry)
    (f : FlowFile.t) :
  f ∈ listFlows_range D dir entries ↔
  ∃ entry, entry ∈ entries ∧ entry_IsDir entry = false ∧
           is_flow_ext (Ext (entry_Name entry)) = true ∧
           f = FlowFile.mk (TrimSuffix (entry_Name entry) (Ext (entry_Name entry)))
                 (filepath_Join D dir (entry_Name entry)).
Proof.
  induction entries as [|entry rest IH]; cbn [listFlows_range].
  { split; [by intros ?%elem_of_nil | intros (? & ?%elem_of_nil & _); done]. }
  cbv zeta.
  destruct (entry_IsDir entry) eqn:Hdir;
    [| destruct (is_flow_ext (Ext (entry_Name entry))) eqn:Hext; cbn [negb]].
  - rewrite IH. split.
    + intros (e & Hin & H). exists e. split; [by right | done].
    + intros (e & [->|Hin]%elem_of_cons & Hd & H); [congruence |]. by exists e.
  - rewrite elem_of_cons, IH. split.
    + intros [->|(e & Hin & H)].
      * exists entry. split; [by left | done].
      * exists e. split; [by right | done].
    + intros (e & [->|Hin]%elem_of_cons & Hd & Hx & ->); [by left |].
      right. by exists e.
  - rewrite IH. split.
    + intros (e & Hin & H). exists e. split; [by right | done].
    + intros (e & [->|Hin]%elem_of_cons & Hd & Hx & H); [congruence |]. by exists e.
Qed.

Lemma listFlows_range_length (D : Disk) (dir : string) (entries : list DirEntry) :
  (length (listFlows_range D dir entries) ≤ length entries)%nat.
Proof.
  induction entries as [|entry rest IH]; cbn [listFlows_range]; [done |].
  cbv zeta. destruct (entry_IsDir entry); [simpl; lia |].
  destruct (negb (is_flow_ext (Ext (entry_Name entry)))); simpl; lia.
Qed.

(** X24. [listFlows] on a directory that can be read: the flows are the
    entries that are no directories and whose extension is [.yaml] or [.yml],
    each once, named by the file name without that extension (name and
    extension give the file name back) and located by the joined path; no
    flow comes after a flow of a greater name; other entries are passed
    over.  A directory that cannot be read is an error that carries the
    cause. *)
Theorem listFlows_contract (D : Disk) (dir : string) :
  sorts_by_Name D →
  (∀ entries, os_ReadDir D dir = Ok entries →
     ∃ flows,
       listFlows D dir = Ok flows ∧
       Sorted by_Name flows ∧
       flows ≡ₚ listFlows_range D dir entries ∧
       (length flows ≤ length entries)%nat ∧
       (∀ f, f ∈ flows ↔
          ∃ entry, entry ∈ entries ∧ entry_IsDir entry = false ∧
                   (Ext (entry_Name entry) = ".yaml" ∨ Ext (entry_Name entry) = ".yml") ∧
                   f = FlowFile.mk (TrimSuffix (entry_Name entry) (Ext (entry_Name entry)))
                         (filepath_Join D dir (entry_Name entry))) ∧
       (∀ f, f ∈ flows →
          ∃ entry, entry ∈ entries ∧
                   (entry_Name entry = FlowFile.Name f +:+ ".yaml" ∨
                    entry_Name entry = FlowFile.Name f +:+ ".yml") ∧
                   FlowFile.Path f = filepath_Join D dir (entry_Name entry))) ∧
  (∀ e, os_ReadDir D dir = Err e →
     listFlows D dir = Err ("read flow directory: " +:+ e)).
Proof.
  intros Hsort. unfold listFlows. split; [| by intros e ->].
  intros entries ->. destruct (Hsort (listFlows_range D dir entries)) as [Hsorted Hperm].
  exists (sort_Slice D (listFlows_range D dir entries)).
  split; [done |]. split; [done |]. split; [done |].
  split; [rewrite Hperm; apply listFlows_range_length |].
  assert (∀ f, f ∈ sort_Slice D (listFlows_range D dir entries) ↔
            ∃ entry, entry ∈ entries ∧ entry_IsDir entry = false ∧
              (Ext (entry_Name entry) = ".yaml" ∨ Ext (entry_Name entry) = ".yml") ∧
              f = FlowFile.mk (TrimSuffix (entry_Name entry) (Ext (entry_Name entry)))
                    (filepath_Join D dir (entry_Name entry))) as Helem.
  { intros f. rewrite Hperm, listFlows_range_elem.
    split; intros (entry & Hin & Hd & Hext & Hf); exists entry;
      (split; [done |]); (split; [done |]); (split; [| done]);
      by apply is_flow_ext_cases. }
  split; [exact Helem |].
  intros f (entry & Hin & _ & Hext & ->)%Helem. exists entry. split; [done |].
  cbn [FlowFile.Name FlowFile.Path]. split; [| done].
  pose proof (TrimSuffix_Ext (entry_Name entry)) as Hname.
  destruct Hext as [Hext|Hext]; rewrite Hext in Hname |- *; [by left | by right].
Qed.

#[local] Instance by_Name_total : Total by_Name.
Proof. intros a b. apply (total string_le). Qed.

Lemma sample_disk_sorts : sorts_by_Name SampleDisk.disk.
Proof.
  intros flows. split.
  - apply (Sorted_merge_sort by_Name).
  - apply merge_sort_Permutation.
Qed.

(** The sample directory: its flows are found, in the order of their
    names. *)
Lemma listFlows_contract_witness :
  ∃ flows, listFlows SampleDisk.disk "flows" = Ok flows ∧ Sorted by_Name flows.
Proof.
  destruct (proj1 (listFlows_contract SampleDisk.disk "flows" sample_disk_sorts)
              SampleDisk.flowEntries eq_refl) as (flows & Hflows & Hsorted & _).
  by exists flows.
Defined.

Example listFlows_sample :
  listFlows SampleDisk.disk "flows" =
    Ok [ FlowFile.mk "001_beta" "flows/001_beta.yml";
         FlowFile.mk "002_alpha" "flows/002_alpha.yaml";
         FlowFile.mk "v1.2" "flows/v1.2.yaml" ].
Proof. reflexivity. Qed.

(** ** The flows a command runs *)

Lemma find_flow_Some (flows : list FlowFile.t) (name : string) (f : FlowFile.t) :
  find_flow flows name = Some f → f ∈ flows ∧ FlowFile.Name f = name.
Proof.
  induction flows as [|g rest IH]; [done |]. cbn [find_flow].
  destruct (String.eqb_spec (FlowFile.Name g) name) as [Heq|Hne].
  - intros [= ->]. split; [by left | done].
  - intros [Hin Hname]%IH. split; [by right | done].
Qed.

Lemma find_flow_None (flows : list FlowFile.t) (name : string) :
  find_flow flows name = None ↔ ∀ f, f ∈ flows → FlowFile.Name f ≠ name.
Proof.
  induction flows as [|g rest IH]; cbn [find_flow].
  { split; [by intros _ f ?%elem_of_nil | done]. }
  destruct (String.eqb_spec (FlowFile.Name g) name) as [Heq|Hne].
  - split; [done |]. intros H. exfalso. apply (H g); [by left | done].
  - rewrite IH. split.
    + intros H f [->|Hin]%elem_of_cons; [done | by apply H].
    + intros H f Hin. apply H. by right.
Qed.

Lemma normalizedFlow_extension (stem ext : string) :
  contains_byte "." ext = false → contains_byte "/" ext = false →
  normalizedFlow (stem +:+ String "." ext) = stem.
Proof.
  intros Hdot Hslash. unfold normalizedFlow. cbv zeta.
  rewrite (Ext_of_extension stem ext Hdot Hslash). cbn [is_empty negb].
  apply TrimSuffix_append.
Qed.

Lemma normalizedFlow_plain (name : string) :
  contains_byte "." name = false → normalizedFlow name = name.
Proof. intros H. unfold normalizedFlow. by rewrite (Ext_without_dot name H). Qed.

Lemma normalizedFlow_dotted (name : string) :
  Ext name ≠ EmptyString → normalizedFlow name ≠ name.
Proof.
  intros H. unfold normalizedFlow. cbv zeta.
  rewrite (proj2 (is_empty_false _) H). cbn [negb]. by apply TrimSuffix_Ext_shorter.
Qed.

(** X25. [resolveFlowTargets]: a file path, when given, is the only thing
    looked at (directory and flow name are ignored) and must be an accessible
    file that is no directory.  Without a file path the flows of the
    directory are listed (the current directory for an empty one): without a
    flow name all of them are the targets, and an empty list is an error;
    with a flow name the target is one flow of the list that has the
    normalised name, and there is an error exactly when the list has none.
    Normalising takes one extension off, so a flow can be asked for with
    [.yaml] or [.yml] after its name, a name without a dot is looked for
    as it is, and a flow whose name has an extension of its own is never
    the answer to its bare name. *)
Theorem resolveFlowTargets_contract (D : Disk) (filePath dir flow : string) :
  let dir' := if is_empty dir then "." else dir in
  let answer := resolveFlowTargets D filePath dir flow in
  (filePath ≠ EmptyString →
     (∀ dir2 flow2, resolveFlowTargets D filePath dir2 flow2 = answer) ∧
     (os_Stat D filePath = Ok false →
      answer = Ok [FlowFile.mk (TrimSuffix (Base filePath) (Ext filePath)) filePath]) ∧
     (os_Stat D filePath = Ok true →
      answer = Err ("flow file " +:+ Quote filePath +:+ " is a directory")) ∧
     (∀ e, os_Stat D filePath = Err e →
      answer = Err ("flow file " +:+ Quote filePath +:+ " not accessible: " +:+ e))) ∧
  (filePath = EmptyString →
     (∀ e, listFlows D dir' = Err e → answer = Err e) ∧
     (∀ flows, listFlows D dir' = Ok flows →
        (flow = EmptyString → flows ≠ [] → answer = Ok flows) ∧
        (flow = EmptyString → flows = [] →
         answer = Err ("no flow files found in " +:+ Quote dir')) ∧
        (flow ≠ EmptyString →
           (∀ targets, answer = Ok targets →
              ∃ f, targets = [f] ∧ f ∈ flows ∧ FlowFile.Name f = normalizedFlow flow) ∧
           (is_ok answer ↔ ∃ f, f ∈ flows ∧ FlowFile.Name f = normalizedFlow flow) ∧
           ((∀ f, f ∈ flows → FlowFile.Name f ≠ normalizedFlow flow) →
            answer = Err ("flow " +:+ Quote flow +:+ " not found in " +:+ Quote dir')) ∧
           (∀ f, Ext (FlowFile.Name f) ≠ EmptyString → flow = FlowFile.Name f →
              answer ≠ Ok [f])))) ∧
  (∀ stem, normalizedFlow (stem +:+ ".yaml") = stem ∧
           normalizedFlow (stem +:+ ".yml") = stem) ∧
  (∀ name, contains_byte "." name = false → normalizedFlow name = name).
Proof.
  intros dir' answer. unfold answer, resolveFlowTargets. clear answer.
  split; [| split; [| split]].
  - intros Hfile%is_empty_false. rewrite Hfile. cbn [negb].
    split; [done |]. split; [by intros -> |]. split; [by intros -> | by intros e ->].
  - intros ->. cbn [is_empty negb]. cbv zeta. fold dir'.
    split; [by intros e -> |]. intros flows ->. cbn [rbind].
    split; [intros -> Hne; by destruct flows |].
    split; [by intros -> -> |].
    intros Hflow%is_empty_false. rewrite Hflow.
    destruct (find_flow flows (normalizedFlow flow)) as [f|] eqn:Hfind.
    + apply find_flow_Some in Hfind as [Hin Hname].
      split; [intros targets [= <-]; by exists f |].
      split; [split; [intros _; by exists f | done] |].
      split; [intros Hnone; by destruct (Hnone f Hin) |].
      intros g Hext -> [= ->]. by apply (normalizedFlow_dotted (FlowFile.Name g)).
    + split; [done |]. split.
      * split; [done |]. intros (f & Hin & Hname).
        by apply (proj1 (find_flow_None _ _) Hfind f Hin).
      * split; [done | done].
  - intros stem. split; by apply normalizedFlow_extension.
  - apply normalizedFlow_plain.
Qed.

(** In the sample directory: the flow asked for with and without its
    extension, the flow whose name has a dot, which its bare name does not
    find, and a file path, which wins over the rest. *)
Example resolveFlowTargets_sample :
  resolveFlowTargets SampleDisk.disk EmptyString "flows" "002_alpha" =
    Ok [FlowFile.mk "002_alpha" "flows/002_alpha.yaml"] ∧
  resolveFlowTargets SampleDisk.disk EmptyString "flows" "002_alpha.yaml" =
    Ok [FlowFile.mk "002_alpha" "flows/002_alpha.yaml"] ∧
  resolveFlowTargets SampleDisk.disk EmptyString "flows" "v1.2.yaml" =
    Ok [FlowFile.mk "v1.2" "flows/v1.2.yaml"] ∧
  resolveFlowTargets SampleDisk.disk EmptyString "flows" "v1.2" =
    Err ("flow " +:+ Quote "v1.2" +:+ " not found in " +:+ Quote "flows") ∧
  resolveFlowTargets SampleDisk.disk "flows/002_alpha.yaml" "elsewhere" "v1.2" =
    Ok [FlowFile.mk "002_alpha" "flows/002_alpha.yaml"].
Proof. repeat split; reflexivity. Qed.
